(** * Checkers rule engine and alpha-beta search: a shallow embedding

    The development follows the TypeScript sources:
    - [types.ts]: the enums and the records [Piece], [Move], [VariantRules];
    - [checkersLogic]: [getVariantRules], [createInitialBoard],
      [getValidMoves], [getPieceMoves] (with its inner [findJumps]),
      [applyMove], [serializeBoard];
    - the search service: [evaluateBoard], [quiesce], [alphaBeta],
      [getBestMove] and the module-level transposition table.

    Conventions.  Grid indices and scores are integers ([Z]); the values
    [-Infinity] and [Infinity] that the search uses are the two extra
    constructors of [Num].  Reading [board[r][c]] with [r] outside the array
    of rows raises a JavaScript [TypeError] (indexing [undefined]); reading a
    column outside a row yields [undefined], which the code treats like
    [null].  Both are written out in [cell].  Functions that can raise return
    a [result]. *)

From Stdlib Require Import ZArith List String Ascii Bool Lia DecimalString Sorted.
From stdpp Require Import base gmap strings list fin_maps.

Local Open Scope Z_scope.

(** ** Enumerations of [types.ts] *)

Inductive Player := RED | WHITE.
Inductive PieceType := PAWN | KING.

Inductive CheckersVariant :=
  | ENGLISH | INTERNATIONAL | RUSSIAN | BRAZILIAN | ITALIAN | TURKISH
  | SUICIDE | SPANISH | POOL | CANADIAN | THAI | CZECH | ARMENIAN
  | FRISIAN | GOTHIC | OLD_GERMAN.

#[global] Instance Player_eq_dec : EqDecision Player.
Proof. solve_decision. Defined.
#[global] Instance PieceType_eq_dec : EqDecision PieceType.
Proof. solve_decision. Defined.
#[global] Instance CheckersVariant_eq_dec : EqDecision CheckersVariant.
Proof. solve_decision. Defined.

(** ** Records of [types.ts] *)

Module Pos.
Record t := mk { r : Z; c : Z }.
End Pos.

#[global] Instance Pos_eq_dec : EqDecision Pos.t.
Proof. solve_decision. Defined.

Module Piece.
Record t := mk { id : string; player : Player; type : PieceType; position : Pos.t }.
End Piece.

(** [Move]: [captures] is an optional field; step moves leave it out.  The
    optional fields [path] and [isKinging] are never written by the engine
    and are not represented. *)
Module Move.
Record t := mk { from : Pos.t; to : Pos.t; captures : option (list Pos.t) }.
End Move.

Record VariantRules := {
  boardSize : Z;
  pawnCaptureBackwards : bool;
  kingLongRange : bool;
  majorityCaptureRequired : bool;
  qualityCaptureRequired : bool;
  kingCapturePriority : bool;
  pawnCanCaptureKing : bool;
  isOrthogonal : bool;
  isLosingGoal : bool;
  pawnKingTransformationMidJump : bool;
  kingStopsAfterCapture : bool;
  darkSquarePlay : bool;
  removeCapturedImmediately : bool;
  frisianCapturing : bool
}.

(** An index of a JavaScript array: a hole, where the array was lengthened
    past the index and nothing was written, or an element, [null] for the
    empty cell.  A hole reads as [undefined], which every test of the
    source treats like [null]; [map] and [slice] keep it a hole, and [join]
    prints nothing for it. *)
Inductive Slot (A : Type) := Hole | Held (v : option A).
Arguments Hole {A}.
Arguments Held {A} v.

(** [row[c]] at an index of the row. *)
Definition occupant {A} (s : Slot A) : option A :=
  match s with
  | Hole => None
  | Held v => v
  end.

(** [row.map(f)], at one index. *)
Definition mapSlot {A B} (f : option A -> option B) (s : Slot A) : Slot B :=
  match s with
  | Hole => Hole
  | Held v => Held (f v)
  end.

Abbreviation Board := (list (list (Slot Piece.t))).

(** ** Numbers with the two infinities *)

Inductive Num := NegInf | Fin (z : Z) | PosInf.

#[global] Instance Num_eq_dec : EqDecision Num.
Proof. solve_decision. Defined.

Definition Nleb (a b : Num) : bool :=
  match a, b with
  | NegInf, _ => true
  | _, PosInf => true
  | Fin x, Fin y => x <=? y
  | _, _ => false
  end.

Definition Nltb (a b : Num) : bool := negb (Nleb b a).
Definition Nmax (a b : Num) : Num := if Nleb a b then b else a.
Definition Nmin (a b : Num) : Num := if Nleb a b then a else b.

(** [Math.max(...l)]: [-Infinity] on the empty list. *)
Definition Math_max (l : list Z) : Num :=
  fold_left (fun acc x => Nmax acc (Fin x)) l NegInf.

(** ** Outcomes: a value, a JavaScript [TypeError], or an exhausted
    recursion budget (a device of the embedding, shown below never to occur
    with the budgets the definitions use). *)

Inductive result (A : Type) :=
  | Ok (a : A)
  | TypeError
  | OutOfFuel.
Arguments Ok {A} a.
Arguments TypeError {A}.
Arguments OutOfFuel {A}.

Definition rbind {A B} (x : result A) (f : A -> result B) : result B :=
  match x with
  | Ok a => f a
  | TypeError => TypeError
  | OutOfFuel => OutOfFuel
  end.

Declare Scope res_scope.
Delimit Scope res_scope with res.
Notation "x <- e ;; k" := (rbind e (fun x => k))
  (at level 100, e at next level, right associativity) : res_scope.
Local Open Scope res_scope.

(** Run [f] on every element, left to right, and concatenate what it
    pushes: the shape of [xs.forEach(x => { ... acc.push(...) })]. *)
Fixpoint forEachPush {A B} (f : A -> result (list B)) (xs : list A) : result (list B) :=
  match xs with
  | [] => Ok []
  | x :: xs' =>
      ys <- f x ;;
      zs <- forEachPush f xs' ;;
      Ok (ys ++ zs)
  end.

(** [xs.filter(p)] with a predicate that reads the board. *)
Fixpoint filterR {A} (p : A -> result bool) (xs : list A) : result (list A) :=
  match xs with
  | [] => Ok []
  | x :: xs' =>
      b <- p x ;;
      ys <- filterR p xs' ;;
      Ok (if b then x :: ys else ys)
  end.

Fixpoint mapR {A B} (f : A -> result B) (xs : list A) : result (list B) :=
  match xs with
  | [] => Ok []
  | x :: xs' =>
      y <- f x ;;
      ys <- mapR f xs' ;;
      Ok (y :: ys)
  end.

(** The index values of [for (let i = 0; i < n; i++)]. *)
Definition range (n : Z) : list Z := map Z.of_nat (seq 0 (Z.to_nat n)).

(** ** [getVariantRules] *)

Definition base : VariantRules := {|
  boardSize := 8;
  pawnCaptureBackwards := false;
  kingLongRange := false;
  majorityCaptureRequired := false;
  qualityCaptureRequired := false;
  kingCapturePriority := false;
  pawnCanCaptureKing := true;
  isOrthogonal := false;
  isLosingGoal := false;
  pawnKingTransformationMidJump := false;
  kingStopsAfterCapture := false;
  darkSquarePlay := true;
  removeCapturedImmediately := false;
  frisianCapturing := false
|}.

(** Functional record update, one setter per field that some variant
    overrides (the object spread [{ ...base, field: value }]). *)
Definition set_boardSize (v : Z) (x : VariantRules) : VariantRules :=
  {| boardSize := v; pawnCaptureBackwards := pawnCaptureBackwards x;
     kingLongRange := kingLongRange x; majorityCaptureRequired := majorityCaptureRequired x;
     qualityCaptureRequired := qualityCaptureRequired x; kingCapturePriority := kingCapturePriority x;
     pawnCanCaptureKing := pawnCanCaptureKing x; isOrthogonal := isOrthogonal x;
     isLosingGoal := isLosingGoal x; pawnKingTransformationMidJump := pawnKingTransformationMidJump x;
     kingStopsAfterCapture := kingStopsAfterCapture x; darkSquarePlay := darkSquarePlay x;
     removeCapturedImmediately := removeCapturedImmediately x; frisianCapturing := frisianCapturing x |}.
Definition set_pawnCaptureBackwards (v : bool) (x : VariantRules) : VariantRules :=
  {| boardSize := boardSize x; pawnCaptureBackwards := v;
     kingLongRange := kingLongRange x; majorityCaptureRequired := majorityCaptureRequired x;
     qualityCaptureRequired := qualityCaptureRequired x; kingCapturePriority := kingCapturePriority x;
     pawnCanCaptureKing := pawnCanCaptureKing x; isOrthogonal := isOrthogonal x;
     isLosingGoal := isLosingGoal x; pawnKingTransformationMidJump := pawnKingTransformationMidJump x;
     kingStopsAfterCapture := kingStopsAfterCapture x; darkSquarePlay := darkSquarePlay x;
     removeCapturedImmediately := removeCapturedImmediately x; frisianCapturing := frisianCapturing x |}.
Definition set_kingLongRange (v : bool) (x : VariantRules) : VariantRules :=
  {| boardSize := boardSize x; pawnCaptureBackwards := pawnCaptureBackwards x;
     kingLongRange := v; majorityCaptureRequired := majorityCaptureRequired x;
     qualityCaptureRequired := qualityCaptureRequired x; kingCapturePriority := kingCapturePriority x;
     pawnCanCaptureKing := pawnCanCaptureKing x; isOrthogonal := isOrthogonal x;
     isLosingGoal := isLosingGoal x; pawnKingTransformationMidJump := pawnKingTransformationMidJump x;
     kingStopsAfterCapture := kingStopsAfterCapture x; darkSquarePlay := darkSquarePlay x;
     removeCapturedImmediately := removeCapturedImmediately x; frisianCapturing := frisianCapturing x |}.
Definition set_majorityCaptureRequired (v : bool) (x : VariantRules) : VariantRules :=
  {| boardSize := boardSize x; pawnCaptureBackwards := pawnCaptureBackwards x;
     kingLongRange := kingLongRange x; majorityCaptureRequired := v;
     qualityCaptureRequired := qualityCaptureRequired x; kingCapturePriority := kingCapturePriority x;
     pawnCanCaptureKing := pawnCanCaptureKing x; isOrthogonal := isOrthogonal x;
     isLosingGoal := isLosingGoal x; pawnKingTransformationMidJump := pawnKingTransformationMidJump x;
     kingStopsAfterCapture := kingStopsAfterCapture x; darkSquarePlay := darkSquarePlay x;
     removeCapturedImmediately := removeCapturedImmediately x; frisianCapturing := frisianCapturing x |}.
Definition set_qualityCaptureRequired (v : bool) (x : VariantRules) : VariantRules :=
  {| boardSize := boardSize x; pawnCaptureBackwards := pawnCaptureBackwards x;
     kingLongRange := kingLongRange x; majorityCaptureRequired := majorityCaptureRequired x;
     qualityCaptureRequired := v; kingCapturePriority := kingCapturePriority x;
     pawnCanCaptureKing := pawnCanCaptureKing x; isOrthogonal := isOrthogonal x;
     isLosingGoal := isLosingGoal x; pawnKingTransformationMidJump := pawnKingTransformationMidJump x;
     kingStopsAfterCapture := kingStopsAfterCapture x; darkSquarePlay := darkSquarePlay x;
     removeCapturedImmediately := removeCapturedImmediately x; frisianCapturing := frisianCapturing x |}.
Definition set_kingCapturePriority (v : bool) (x : VariantRules) : VariantRules :=
  {| boardSize := boardSize x; pawnCaptureBackwards := pawnCaptureBackwards x;
     kingLongRange := kingLongRange x; majorityCaptureRequired := majorityCaptureRequired x;
     qualityCaptureRequired := qualityCaptureRequired x; kingCapturePriority := v;
     pawnCanCaptureKing := pawnCanCaptureKing x; isOrthogonal := isOrthogonal x;
     isLosingGoal := isLosingGoal x; pawnKingTransformationMidJump := pawnKingTransformationMidJump x;
     kingStopsAfterCapture := kingStopsAfterCapture x; darkSquarePlay := darkSquarePlay x;
     removeCapturedImmediately := removeCapturedImmediately x; frisianCapturing := frisianCapturing x |}.
Definition set_pawnCanCaptureKing (v : bool) (x : VariantRules) : VariantRules :=
  {| boardSize := boardSize x; pawnCaptureBackwards := pawnCaptureBackwards x;
     kingLongRange := kingLongRange x; majorityCaptureRequired := majorityCaptureRequired x;
     qualityCaptureRequired := qualityCaptureRequired x; kingCapturePriority := kingCapturePriority x;
     pawnCanCaptureKing := v; isOrthogonal := isOrthogonal x;
     isLosingGoal := isLosingGoal x; pawnKingTransformationMidJump := pawnKingTransformationMidJump x;
     kingStopsAfterCapture := kingStopsAfterCapture x; darkSquarePlay := darkSquarePlay x;
     removeCapturedImmediately := removeCapturedImmediately x; frisianCapturing := frisianCapturing x |}.
Definition set_isOrthogonal (v : bool) (x : VariantRules) : VariantRules :=
  {| boardSize := boardSize x; pawnCaptureBackwards := pawnCaptureBackwards x;
     kingLongRange := kingLongRange x; majorityCaptureRequired := majorityCaptureRequired x;
     qualityCaptureRequired := qualityCaptureRequired x; kingCapturePriority := kingCapturePriority x;
     pawnCanCaptureKing := pawnCanCaptureKing x; isOrthogonal := v;
     isLosingGoal := isLosingGoal x; pawnKingTransformationMidJump := pawnKingTransformationMidJump x;
     kingStopsAfterCapture := kingStopsAfterCapture x; darkSquarePlay := darkSquarePlay x;
     removeCapturedImmediately := removeCapturedImmediately x; frisianCapturing := frisianCapturing x |}.
Definition set_isLosingGoal (v : bool) (x : VariantRules) : VariantRules :=
  {| boardSize := boardSize x; pawnCaptureBackwards := pawnCaptureBackwards x;
     kingLongRange := kingLongRange x; majorityCaptureRequired := majorityCaptureRequired x;
     qualityCaptureRequired := qualityCaptureRequired x; kingCapturePriority := kingCapturePriority x;
     pawnCanCaptureKing := pawnCanCaptureKing x; isOrthogonal := isOrthogonal x;
     isLosingGoal := v; pawnKingTransformationMidJump := pawnKingTransformationMidJump x;
     kingStopsAfterCapture := kingStopsAfterCapture x; darkSquarePlay := darkSquarePlay x;
     removeCapturedImmediately := removeCapturedImmediately x; frisianCapturing := frisianCapturing x |}.
Definition set_pawnKingTransformationMidJump (v : bool) (x : VariantRules) : VariantRules :=
  {| boardSize := boardSize x; pawnCaptureBackwards := pawnCaptureBackwards x;
     kingLongRange := kingLongRange x; majorityCaptureRequired := majorityCaptureRequired x;
     qualityCaptureRequired := qualityCaptureRequired x; kingCapturePriority := kingCapturePriority x;
     pawnCanCaptureKing := pawnCanCaptureKing x; isOrthogonal := isOrthogonal x;
     isLosingGoal := isLosingGoal x; pawnKingTransformationMidJump := v;
     kingStopsAfterCapture := kingStopsAfterCapture x; darkSquarePlay := darkSquarePlay x;
     removeCapturedImmediately := removeCapturedImmediately x; frisianCapturing := frisianCapturing x |}.
Definition set_kingStopsAfterCapture (v : bool) (x : VariantRules) : VariantRules :=
  {| boardSize := boardSize x; pawnCaptureBackwards := pawnCaptureBackwards x;
     kingLongRange := kingLongRange x; majorityCaptureRequired := majorityCaptureRequired x;
     qualityCaptureRequired := qualityCaptureRequired x; kingCapturePriority := kingCapturePriority x;
     pawnCanCaptureKing := pawnCanCaptureKing x; isOrthogonal := isOrthogonal x;
     isLosingGoal := isLosingGoal x; pawnKingTransformationMidJump := pawnKingTransformationMidJump x;
     kingStopsAfterCapture := v; darkSquarePlay := darkSquarePlay x;
     removeCapturedImmediately := removeCapturedImmediately x; frisianCapturing := frisianCapturing x |}.
Definition set_darkSquarePlay (v : bool) (x : VariantRules) : VariantRules :=
  {| boardSize := boardSize x; pawnCaptureBackwards := pawnCaptureBackwards x;
     kingLongRange := kingLongRange x; majorityCaptureRequired := majorityCaptureRequired x;
     qualityCaptureRequired := qualityCaptureRequired x; kingCapturePriority := kingCapturePriority x;
     pawnCanCaptureKing := pawnCanCaptureKing x; isOrthogonal := isOrthogonal x;
     isLosingGoal := isLosingGoal x; pawnKingTransformationMidJump := pawnKingTransformationMidJump x;
     kingStopsAfterCapture := kingStopsAfterCapture x; darkSquarePlay := v;
     removeCapturedImmediately := removeCapturedImmediately x; frisianCapturing := frisianCapturing x |}.
Definition set_removeCapturedImmediately (v : bool) (x : VariantRules) : VariantRules :=
  {| boardSize := boardSize x; pawnCaptureBackwards := pawnCaptureBackwards x;
     kingLongRange := kingLongRange x; majorityCaptureRequired := majorityCaptureRequired x;
     qualityCaptureRequired := qualityCaptureRequired x; kingCapturePriority := kingCapturePriority x;
     pawnCanCaptureKing := pawnCanCaptureKing x; isOrthogonal := isOrthogonal x;
     isLosingGoal := isLosingGoal x; pawnKingTransformationMidJump := pawnKingTransformationMidJump x;
     kingStopsAfterCapture := kingStopsAfterCapture x; darkSquarePlay := darkSquarePlay x;
     removeCapturedImmediately := v; frisianCapturing := frisianCapturing x |}.
Definition set_frisianCapturing (v : bool) (x : VariantRules) : VariantRules :=
  {| boardSize := boardSize x; pawnCaptureBackwards := pawnCaptureBackwards x;
     kingLongRange := kingLongRange x; majorityCaptureRequired := majorityCaptureRequired x;
     qualityCaptureRequired := qualityCaptureRequired x; kingCapturePriority := kingCapturePriority x;
     pawnCanCaptureKing := pawnCanCaptureKing x; isOrthogonal := isOrthogonal x;
     isLosingGoal := isLosingGoal x; pawnKingTransformationMidJump := pawnKingTransformationMidJump x;
     kingStopsAfterCapture := kingStopsAfterCapture x; darkSquarePlay := darkSquarePlay x;
     removeCapturedImmediately := removeCapturedImmediately x; frisianCapturing := v |}.

Notation "x '<|' f ':=' v '|>'" := (f v x) (at level 1, left associativity, only parsing).

Definition getVariantRules (variant : CheckersVariant) : VariantRules :=
  match variant with
  | INTERNATIONAL =>
      base <| set_boardSize := 10 |> <| set_pawnCaptureBackwards := true |>
           <| set_kingLongRange := true |> <| set_majorityCaptureRequired := true |>
  | RUSSIAN =>
      base <| set_pawnCaptureBackwards := true |> <| set_kingLongRange := true |>
           <| set_pawnKingTransformationMidJump := true |> <| set_majorityCaptureRequired := false |>
  | BRAZILIAN =>
      base <| set_pawnCaptureBackwards := true |> <| set_kingLongRange := true |>
           <| set_majorityCaptureRequired := true |>
  | ITALIAN =>
      base <| set_majorityCaptureRequired := true |> <| set_qualityCaptureRequired := true |>
           <| set_kingCapturePriority := true |> <| set_pawnCanCaptureKing := false |>
  | TURKISH =>
      base <| set_kingLongRange := true |> <| set_majorityCaptureRequired := true |>
           <| set_isOrthogonal := true |> <| set_darkSquarePlay := false |>
           <| set_removeCapturedImmediately := true |>
  | ARMENIAN =>
      base <| set_kingLongRange := true |> <| set_majorityCaptureRequired := true |>
           <| set_isOrthogonal := true |> <| set_darkSquarePlay := false |>
           <| set_removeCapturedImmediately := true |>
  | SUICIDE =>
      base <| set_isLosingGoal := true |> <| set_majorityCaptureRequired := true |>
  | SPANISH =>
      base <| set_kingLongRange := true |> <| set_majorityCaptureRequired := true |>
           <| set_qualityCaptureRequired := true |>
  | POOL =>
      base <| set_pawnCaptureBackwards := true |> <| set_kingLongRange := true |>
           <| set_majorityCaptureRequired := true |>
  | CANADIAN =>
      base <| set_boardSize := 12 |> <| set_pawnCaptureBackwards := true |>
           <| set_kingLongRange := true |> <| set_majorityCaptureRequired := true |>
  | THAI =>
      base <| set_kingLongRange := true |> <| set_kingStopsAfterCapture := true |>
           <| set_majorityCaptureRequired := true |>
  | CZECH =>
      base <| set_kingLongRange := true |> <| set_kingCapturePriority := true |>
  | FRISIAN =>
      base <| set_boardSize := 10 |> <| set_kingLongRange := true |>
           <| set_majorityCaptureRequired := true |> <| set_frisianCapturing := true |>
           <| set_pawnCaptureBackwards := true |>
  | GOTHIC =>
      base <| set_boardSize := 8 |> <| set_kingLongRange := true |>
           <| set_pawnCaptureBackwards := true |>
  | OLD_GERMAN =>
      base <| set_boardSize := 8 |> <| set_kingLongRange := false |>
           <| set_majorityCaptureRequired := true |>
  | ENGLISH => base
  end.

(** ** Reading and writing the grid *)

(** [board[r][c]].  [board[r]] is [undefined] when [r] is not an index of
    the array of rows, and indexing [undefined] raises; a column that is a
    hole, or not an index of the row, reads as [undefined], which every use
    treats like the empty cell [null]. *)
Definition cell (board : Board) (r c : Z) : result (option Piece.t) :=
  if r <? 0 then TypeError
  else match board !! Z.to_nat r with
       | None => TypeError
       | Some row =>
           if c <? 0 then Ok None
           else Ok (occupant (default Hole (row !! Z.to_nat c)))
       end.

(** [row[c] = v].  On an index of the row it overwrites; past the end
    JavaScript lengthens the array and leaves holes in between.  A negative
    [c] is not an index: the assignment sets a property of the row object,
    which [length], [slice], [map] and [join] do not see, and the indices of
    the row are as they were.  Such a property is not represented: a
    negative column reads as [undefined] on every board here.  The engine
    writes none, as the destinations and the captured cells of the moves of
    [getValidMoves] pass the [0 <= _ < size] tests. *)
Definition writeRow (row : list (Slot Piece.t)) (c : Z) (v : option Piece.t)
  : list (Slot Piece.t) :=
  if c <? 0 then row
  else if c <? Z.of_nat (length row) then <[Z.to_nat c := Held v]> row
  else row ++ replicate (Z.to_nat c - length row)%nat Hole ++ [Held v].

(** [board[r][c] = v]: raises when [board[r]] is [undefined]. *)
Definition setCell (board : Board) (r c : Z) (v : option Piece.t) : result Board :=
  if r <? 0 then TypeError
  else match board !! Z.to_nat r with
       | None => TypeError
       | Some row => Ok (<[Z.to_nat r := writeRow row c v]> board)
       end.

(** Template literal [`${n}`] for an integer. *)
Definition showZ (n : Z) : string := NilZero.string_of_int (Z.to_int n).

Definition pieceId (tag : string) (r c : Z) : string :=
  (tag ++ "-" ++ showZ r ++ "-" ++ showZ c)%string.

(** ** [createInitialBoard] *)

Definition fillRowsOf (variant : CheckersVariant) (size : Z) : Z :=
  let fillRows := if size >=? 10 then 4 else 3 in
  let fillRows := if size =? 12 then 5 else fillRows in
  if bool_decide (variant = THAI) then 2 else fillRows.

(** Body of the inner loop, at cell [(r, c)]. *)
Definition initCell (variant : CheckersVariant) (rules : VariantRules) (size fillRows : Z)
    (board : Board) (r c : Z) : result Board :=
  let white := Some (Piece.mk (pieceId "w" r c) WHITE PAWN (Pos.mk r c)) in
  let red := Some (Piece.mk (pieceId "r" r c) RED PAWN (Pos.mk r c)) in
  if negb (darkSquarePlay rules) then
    board <- (if (r >=? 1) && (r <=? 2) then setCell board r c white else Ok board) ;;
    (if (r >=? size - 3) && (r <=? size - 2) then setCell board r c red else Ok board)
  else
    let isDarkSquare := negb ((r + c) mod 2 =? 0) in
    if isDarkSquare then
      if r <? fillRows then setCell board r c white
      else if r >=? size - fillRows then setCell board r c red
      else Ok board
    else Ok board.

(** A [for] loop over [xs] threading the mutated value. *)
Fixpoint forLoop {A S} (body : S -> A -> result S) (xs : list A) (s : S) : result S :=
  match xs with
  | [] => Ok s
  | x :: xs' => s' <- body s x ;; forLoop body xs' s'
  end.

Definition createInitialBoard (variant : CheckersVariant) : result Board :=
  let rules := getVariantRules variant in
  let size := boardSize rules in
  let board : Board := replicate (Z.to_nat size) (replicate (Z.to_nat size) (Held None)) in
  let fillRows := fillRowsOf variant size in
  forLoop (fun board r =>
    forLoop (fun board c => initCell variant rules size fillRows board r c)
            (range size) board)
    (range size) board.

(** ** [applyMove] *)

Definition kingRowOf (player : Player) (size : Z) : Z :=
  if bool_decide (player = RED) then 0 else size - 1.

Definition applyMove (board : Board) (move : Move.t) (variant : CheckersVariant)
  : result Board :=
  let rules := getVariantRules variant in
  let newBoard := board in
  piece <- cell newBoard (Pos.r (Move.from move)) (Pos.c (Move.from move)) ;;
  match piece with
  | None => Ok board
  | Some piece =>
      let kingRow := kingRowOf (Piece.player piece) (boardSize rules) in
      let newPiece :=
        Piece.mk (Piece.id piece) (Piece.player piece)
          (if Pos.r (Move.to move) =? kingRow then KING else Piece.type piece)
          (Move.to move) in
      newBoard <- setCell newBoard (Pos.r (Move.to move)) (Pos.c (Move.to move)) (Some newPiece) ;;
      newBoard <- setCell newBoard (Pos.r (Move.from move)) (Pos.c (Move.from move)) None ;;
      match Move.captures move with
      | Some caps =>
          forLoop (fun b cp => setCell b (Pos.r cp) (Pos.c cp) None) caps newBoard
      | None => Ok newBoard
      end
  end.

(** ** [serializeBoard] *)

Definition cellChar (p : option Piece.t) : string :=
  match p with
  | None => "."
  | Some p =>
      match Piece.player p, Piece.type p with
      | RED, PAWN => "r"
      | RED, KING => "R"
      | WHITE, PAWN => "w"
      | WHITE, KING => "W"
      end
  end.

(** [xs.join(sep)] *)
Fixpoint join (sep : string) (xs : list string) : string :=
  match xs with
  | [] => ""
  | [x] => x
  | x :: xs' => (x ++ sep ++ join sep xs')%string
  end.

Definition newline : string := String (ascii_of_nat 10) EmptyString.

(** What [join] prints for an index of [row.map(...)]: nothing for a
    hole. *)
Definition slotChar (s : Slot Piece.t) : string :=
  match s with
  | Hole => ""
  | Held p => cellChar p
  end.

Definition serializeBoard (board : Board) : string :=
  join newline (map (fun row => join "" (map slotChar row)) board).

(** The positions of the cells of a board, row by row. *)
Fixpoint rowCells (r c : Z) (row : list (Slot Piece.t)) : list Pos.t :=
  match row with
  | [] => []
  | _ :: row' => Pos.mk r c :: rowCells r (c + 1) row'
  end.

Fixpoint cellsFrom (r : Z) (board : Board) : list Pos.t :=
  match board with
  | [] => []
  | row :: board' => rowCells r 0 row ++ cellsFrom (r + 1) board'
  end.

Definition boardCells (board : Board) : list Pos.t := cellsFrom 0 board.

(** ** [getPieceMoves] and its inner [findJumps]

    The section variables are what the closures of [getPieceMoves] capture:
    the board, the moving piece and the rule-set. *)

Definition captureCount (m : Move.t) : Z :=
  match Move.captures m with
  | Some cs => Z.of_nat (length cs)
  | None => 0
  end.

Definition isKing (p : option Piece.t) : bool :=
  match p with
  | Some p => bool_decide (Piece.type p = KING)
  | None => false
  end.

Section GetPieceMoves.
Variables (board : Board) (piece : Piece.t) (rules : VariantRules).

Definition dirs : list (Z * Z) :=
  if isOrthogonal rules then
    [(0, 1); (0, -1); ((if bool_decide (Piece.player piece = RED) then -1 else 1), 0)]
  else if frisianCapturing rules then
    [(1, 1); (1, -1); (-1, 1); (-1, -1); (1, 0); (-1, 0); (0, 1); (0, -1)]
  else
    [(1, 1); (1, -1); (-1, 1); (-1, -1)].

(** [r >= 0 && r < size && c >= 0 && c < size] *)
Definition inGrid (r c : Z) : bool :=
  (r >=? 0) && (r <? boardSize rules) && (c >=? 0) && (c <? boardSize rules).

Definition isBack (dr : Z) : bool :=
  if bool_decide (Piece.player piece = RED) then dr >? 0 else dr <? 0.

(** [visitedCaptures.some(v => v.r === mr && v.c === mc)] *)
Definition visited (visitedCaptures : list Pos.t) (mr mc : Z) : bool :=
  existsb (fun v => (Pos.r v =? mr) && (Pos.c v =? mc)) visitedCaptures.

Definition isEnemy (mp : Piece.t) : bool :=
  negb (bool_decide (Piece.player mp = Piece.player piece)).

(** [if (deeper.length > 0) pieceJumps.push(...deeper);
     else pieceJumps.push({ from: piece.position, to, captures })] *)
Definition chainsFrom (deeper : list Move.t) (dest : Pos.t) (newCaptures : list Pos.t)
  : list Move.t :=
  if (0 <? length deeper)%nat then deeper
  else [Move.mk (Piece.position piece) dest (Some newCaptures)].

Section Direction.
(** The recursive call, and the arguments of the running call. *)
Variable recur : Pos.t -> PieceType -> list Pos.t -> result (list Move.t).
Variables (currentPos : Pos.t) (currentType : PieceType)
          (visitedCaptures : list Pos.t).

Definition pawnJump (dr dc : Z) : result (list Move.t) :=
  if isBack dr && negb (pawnCaptureBackwards rules) && negb (isOrthogonal rules)
  then Ok []
  else
    let mr := Pos.r currentPos + dr in
    let mc := Pos.c currentPos + dc in
    let er := Pos.r currentPos + dr * 2 in
    let ec := Pos.c currentPos + dc * 2 in
    if inGrid er ec then
      mp <- cell board mr mc ;;
      match mp with
      | Some mp =>
          if isEnemy mp then
            landing <- cell board er ec ;;
            match landing with
            | None =>
                if visited visitedCaptures mr mc then Ok []
                else if negb (pawnCanCaptureKing rules)
                        && bool_decide (Piece.type mp = KING) then Ok []
                else
                  let newCaptures := visitedCaptures ++ [Pos.mk mr mc] in
                  let kingRow := kingRowOf (Piece.player piece) (boardSize rules) in
                  let nextType :=
                    if pawnKingTransformationMidJump rules && (er =? kingRow)
                    then KING else currentType in
                  deeperJumps <- recur (Pos.mk er ec) nextType newCaptures ;;
                  Ok (chainsFrom deeperJumps (Pos.mk er ec) newCaptures)
            | Some _ => Ok []
            end
          else Ok []
      | None => Ok []
      end
    else Ok [].

(** [for (let l = 1; l < size; l++)]: the landing cells behind a
    captured piece at [(mr, mc)]; [n] counts the iterations left. *)
Fixpoint kingLandings (n : nat) (l : Z) (mr mc dr dc : Z) (newCaptures : list Pos.t)
  : result (list Move.t) :=
  match n with
  | O => Ok []
  | S n' =>
      let lr := mr + dr * l in
      let lc := mc + dc * l in
      if negb (inGrid lr lc) then Ok []
      else
        occ <- cell board lr lc ;;
        match occ with
        | Some _ => Ok []
        | None =>
            deeper <- recur (Pos.mk lr lc) currentType newCaptures ;;
            rest <- kingLandings n' (l + 1) mr mc dr dc newCaptures ;;
            Ok (chainsFrom deeper (Pos.mk lr lc) newCaptures ++ rest)
        end
  end.

(** What happens at the first piece met along the ray, at [(mr, mc)]. *)
Definition kingCapture (mp : Piece.t) (mr mc dr dc : Z) : result (list Move.t) :=
  if isEnemy mp && negb (visited visitedCaptures mr mc) then
    let tr := mr + dr in
    let tc := mc + dc in
    if inGrid tr tc then
      landing <- cell board tr tc ;;
      match landing with
      | None =>
          let newCaptures := visitedCaptures ++ [Pos.mk mr mc] in
          if kingStopsAfterCapture rules then
            deeper <- recur (Pos.mk tr tc) currentType newCaptures ;;
            Ok (chainsFrom deeper (Pos.mk tr tc) newCaptures)
          else
            kingLandings (Z.to_nat (boardSize rules - 1)) 1 mr mc dr dc newCaptures
      | Some _ => Ok []
      end
    else Ok []
  else Ok [].

(** [for (let d = 1; d < size; d++)]: slide until the edge or the first
    piece. *)
Fixpoint kingScan (n : nat) (d : Z) (dr dc : Z) : result (list Move.t) :=
  match n with
  | O => Ok []
  | S n' =>
      let mr := Pos.r currentPos + dr * d in
      let mc := Pos.c currentPos + dc * d in
      if negb (inGrid mr mc) then Ok []
      else
        mp <- cell board mr mc ;;
        match mp with
        | Some mp => kingCapture mp mr mc dr dc
        | None => kingScan n' (d + 1) dr dc
        end
  end.

Definition kingShortJump (dr dc : Z) : result (list Move.t) :=
  let mr := Pos.r currentPos + dr in
  let mc := Pos.c currentPos + dc in
  let er := Pos.r currentPos + dr * 2 in
  let ec := Pos.c currentPos + dc * 2 in
  if inGrid er ec then
    mp <- cell board mr mc ;;
    match mp with
    | Some mp =>
        if isEnemy mp then
          landing <- cell board er ec ;;
          match landing with
          | None =>
              if negb (visited visitedCaptures mr mc) then
                let newCaptures := visitedCaptures ++ [Pos.mk mr mc] in
                deeper <- recur (Pos.mk er ec) currentType newCaptures ;;
                Ok (chainsFrom deeper (Pos.mk er ec) newCaptures)
              else Ok []
          | Some _ => Ok []
          end
        else Ok []
    | None => Ok []
    end
  else Ok [].

(** The body of [dirs.forEach(([dr, dc]) => ...)] in [findJumps]. *)
Definition jumpsInDir (d : Z * Z) : result (list Move.t) :=
  let dr := fst d in
  let dc := snd d in
  if bool_decide (currentType = PAWN) then pawnJump dr dc
  else if kingLongRange rules then
    kingScan (Z.to_nat (boardSize rules - 1)) 1 dr dc
  else kingShortJump dr dc.
End Direction.

(** [findJumps], with a budget for the depth of the recursion. *)
Fixpoint findJumps (fuel : nat) (currentPos : Pos.t) (currentType : PieceType)
    (visitedCaptures : list Pos.t) : result (list Move.t) :=
  match fuel with
  | O => OutOfFuel
  | S fuel' =>
      forEachPush (jumpsInDir (findJumps fuel') currentPos currentType visitedCaptures) dirs
  end.

(** A chain captures distinct occupied cells, so its length is bounded by
    the number of cells of the board. *)
Definition chainBudget : nat := S (length (boardCells board)).

Definition stepTo (tr tc : Z) : Move.t :=
  Move.mk (Piece.position piece) (Pos.mk tr tc) None.

(** [for (let d = 1; d < size; d++)] of the step moves of a long-range
    king. *)
Fixpoint slideSteps (n : nat) (d : Z) (dr dc : Z) : result (list Move.t) :=
  match n with
  | O => Ok []
  | S n' =>
      let tr := Pos.r (Piece.position piece) + dr * d in
      let tc := Pos.c (Piece.position piece) + dc * d in
      if inGrid tr tc then
        occ <- cell board tr tc ;;
        match occ with
        | None =>
            rest <- slideSteps n' (d + 1) dr dc ;;
            Ok (stepTo tr tc :: rest)
        | Some _ => Ok []
        end
      else Ok []
  end.

(** The body of the second [dirs.forEach] (step moves). *)
Definition stepsInDir (d : Z * Z) : result (list Move.t) :=
  let dr := fst d in
  let dc := snd d in
  let isSide := dr =? 0 in
  if bool_decide (Piece.type piece = PAWN)
     && (isBack dr || (isSide && negb (isOrthogonal rules)))
  then Ok []
  else if bool_decide (Piece.type piece = KING) && kingLongRange rules then
    slideSteps (Z.to_nat (boardSize rules - 1)) 1 dr dc
  else
    let tr := Pos.r (Piece.position piece) + dr in
    let tc := Pos.c (Piece.position piece) + dc in
    if inGrid tr tc then
      occ <- cell board tr tc ;;
      match occ with
      | None => Ok [stepTo tr tc]
      | Some _ => Ok []
      end
    else Ok [].

Definition getPieceMoves : result (list Move.t * list Move.t) :=
  jumps <- findJumps chainBudget (Piece.position piece) (Piece.type piece) [] ;;
  steps <- forEachPush stepsInDir dirs ;;
  Ok (jumps, steps).
End GetPieceMoves.

(** ** [getValidMoves] *)

(** The two nested loops: [jumpMoves] and [stepMoves] after the scan. *)
Definition collectMoves (board : Board) (player : Player) (rules : VariantRules)
  : result (list Move.t * list Move.t) :=
  forLoop (fun acc r =>
    forLoop (fun acc c =>
      piece <- cell board r c ;;
      match piece with
      | Some piece =>
          if bool_decide (Piece.player piece = player) then
            found <- getPieceMoves board piece rules ;;
            Ok (fst acc ++ fst found, snd acc ++ snd found)
          else Ok acc
      | None => Ok acc
      end) (range (boardSize rules)) acc)
    (range (boardSize rules)) ([], []).

(** [board[p.r][p.c]?.type === PieceType.KING] *)
Definition kingAt (board : Board) (p : Pos.t) : result bool :=
  x <- cell board (Pos.r p) (Pos.c p) ;; Ok (isKing x).

(** [getKingCount]: [m.captures?.filter(c => kingAt c).length ?? 0] *)
Definition getKingCount (board : Board) (m : Move.t) : result Z :=
  match Move.captures m with
  | Some cs => ks <- filterR (kingAt board) cs ;; Ok (Z.of_nat (length ks))
  | None => Ok 0
  end.

Definition kingPriorityFilter (board : Board) (jumpMoves : list Move.t)
  : result (list Move.t) :=
  kingJumps <- filterR (fun m => kingAt board (Move.from m)) jumpMoves ;;
  Ok (if (0 <? length kingJumps)%nat then kingJumps else jumpMoves).

Definition majorityFilter (filtered : list Move.t) : list Move.t :=
  let maxQty := Math_max (map captureCount filtered) in
  filter (fun m => bool_decide (Fin (captureCount m) = maxQty)) filtered.

Definition qualityFilter (board : Board) (filtered : list Move.t) : result (list Move.t) :=
  counts <- mapR (getKingCount board) filtered ;;
  let maxKings := Math_max counts in
  filterR (fun m => k <- getKingCount board m ;; Ok (bool_decide (Fin k = maxKings))) filtered.

Definition getValidMoves (board : Board) (player : Player) (variant : CheckersVariant)
  : result (list Move.t) :=
  let rules := getVariantRules variant in
  found <- collectMoves board player rules ;;
  let jumpMoves := fst found in
  let stepMoves := snd found in
  if (0 <? length jumpMoves)%nat then
    filtered <- (if kingCapturePriority rules then kingPriorityFilter board jumpMoves
                 else Ok jumpMoves) ;;
    let filtered := if majorityCaptureRequired rules then majorityFilter filtered
                    else filtered in
    filtered <- (if qualityCaptureRequired rules then qualityFilter board filtered
                 else Ok filtered) ;;
    Ok filtered
  else Ok stepMoves.

(** ** [evaluateBoard] *)

Definition EVAL_PIECE : Z := 1000.
Definition EVAL_KING : Z := 3500.
Definition EVAL_MOBILITY : Z := 25.
Definition EVAL_CENTER : Z := 80.
Definition EVAL_BACK_ROW : Z := 150.
Definition EVAL_WIN : Z := 10000000.

Definition PST : list (list Z) :=
  [ [0; 50; 0; 50; 0; 50; 0; 50];
    [40; 0; 45; 0; 45; 0; 40; 0];
    [0; 35; 0; 40; 0; 40; 0; 35];
    [30; 0; 35; 0; 35; 0; 30; 0];
    [0; 30; 0; 35; 0; 35; 0; 30];
    [25; 0; 30; 0; 30; 0; 25; 0];
    [0; 20; 0; 20; 0; 20; 0; 20];
    [15; 0; 15; 0; 15; 0; 15; 0] ].

(** [PST[i][j]]; every use has [0 <= i, j <= 7]. *)
Definition pst (i j : Z) : Z :=
  nth (Z.to_nat j) (nth (Z.to_nat i) PST []) 0.

(** The value [val] the loop body computes for a piece at row [r], column
    [c]. *)
Definition pieceValue (size : Z) (r c : Z) (p : Piece.t) : Z :=
  let isRed := bool_decide (Piece.player p = RED) in
  let val := if bool_decide (Piece.type p = KING) then EVAL_KING else EVAL_PIECE in
  let val := val + (if isRed then pst (Z.min r 7) (Z.min c 7)
                    else pst (7 - Z.min r 7) (7 - Z.min c 7)) in
  let val := if bool_decide (Piece.type p = PAWN)
             then val + (if isRed then 7 - r else r) * 30 else val in
  let val := if isRed && (r =? size - 1) then val + EVAL_BACK_ROW else val in
  let val := if negb isRed && (r =? 0) then val + EVAL_BACK_ROW else val in
  val.

(** The accumulators [rMat], [wMat], [rCount], [wCount]. *)
Record Tally := { rMat : Z; wMat : Z; rCount : Z; wCount : Z }.

Definition tallyCell (size : Z) (board : Board) (r : Z) (acc : Tally) (c : Z)
  : result Tally :=
  p <- cell board r c ;;
  match p with
  | None => Ok acc
  | Some p =>
      let val := pieceValue size r c p in
      if bool_decide (Piece.player p = RED)
      then Ok {| rMat := rMat acc + val; wMat := wMat acc;
                 rCount := rCount acc + 1; wCount := wCount acc |}
      else Ok {| rMat := rMat acc; wMat := wMat acc + val;
                 rCount := rCount acc; wCount := wCount acc + 1 |}
  end.

Definition evaluateBoard (board : Board) (variant : CheckersVariant) : result Z :=
  let rules := getVariantRules variant in
  let size := boardSize rules in
  t <- forLoop (fun acc r => forLoop (tallyCell size board r) (range size) acc)
         (range size) {| rMat := 0; wMat := 0; rCount := 0; wCount := 0 |} ;;
  let score := rMat t - wMat t + (rCount t - wCount t) * EVAL_MOBILITY in
  Ok (if isLosingGoal rules then - score else score).

(** ** The search: transposition table, [quiesce], [alphaBeta], [getBestMove] *)

Inductive Flag := EXACT | LOWER | UPPER.

#[global] Instance Flag_eq_dec : EqDecision Flag.
Proof. solve_decision. Defined.

Module Entry.
Record t := mk { depth : nat; score : Num; flag : Flag }.
End Entry.

(** The activation of a function of the search, with the arguments that
    decide the side: [gameState.turn] for [getBestMove], [isMax] and
    [player] for [alphaBeta] and [quiesce]. *)
Inductive Frame :=
  | InGetBestMove (turn : Player)
  | InAlphaBeta (isMax : bool) (player : Player)
  | InQuiesce (isMax : bool) (player : Player).

(** A call: the frame that was running and the frame that is entered. *)
Record CallEdge := { caller : Frame; callee : Frame }.

(** The module-level [transpositionTable], with the call stack and the log
    of the calls made.  Stack and log are ghost state: the source keeps no
    such record, and nothing in the search reads them; they are what
    statements about "every call made by the search" quantify over. *)
Record SearchState := {
  transpositionTable : gmap string Entry.t;
  callLog : list CallEdge;
  callStack : list Frame
}.

(** Computations of the search: they read and write the state, and may
    raise; the state survives a raise, as a module-level [Map] does. *)
Definition M (A : Type) : Type := SearchState -> SearchState * result A.

Definition sret {A} (a : A) : M A := fun s => (s, Ok a).

Definition sbind {A B} (m : M A) (f : A -> M B) : M B :=
  fun s =>
    match m s with
    | (s', Ok a) => f a s'
    | (s', TypeError) => (s', TypeError)
    | (s', OutOfFuel) => (s', OutOfFuel)
    end.

Definition liftR {A} (x : result A) : M A := fun s => (s, x).

Definition tt_get (key : string) : M (option Entry.t) :=
  fun s => (s, Ok (transpositionTable s !! key)).

Definition tt_size : M Z :=
  fun s => (s, Ok (Z.of_nat (size (transpositionTable s)))).

Definition tt_set (key : string) (e : Entry.t) : M unit :=
  fun s => ({| transpositionTable := <[key := e]> (transpositionTable s);
               callLog := callLog s; callStack := callStack s |}, Ok tt).

Definition tt_clear : M unit :=
  fun s => ({| transpositionTable := ∅; callLog := callLog s;
               callStack := callStack s |}, Ok tt).

(** A function body is entered: its frame goes on the stack, and the call
    is recorded with the frame that was running, if there is one. *)
Definition enter (f : Frame) (s : SearchState) : SearchState :=
  {| transpositionTable := transpositionTable s;
     callLog := match callStack s with
                | [] => callLog s
                | from :: _ => callLog s ++ [{| caller := from; callee := f |}]
                end;
     callStack := f :: callStack s |}.

(** The body is left, by [return] or by an exception. *)
Definition leave (s : SearchState) : SearchState :=
  {| transpositionTable := transpositionTable s;
     callLog := callLog s;
     callStack := tail (callStack s) |}.

(** The body of a function whose activation is [f]: the frame is made of
    the arguments that the function received, so the log holds what the
    callers passed. *)
Definition framed {A} (f : Frame) (body : M A) : M A :=
  fun s => match body (enter f s) with
           | (s', r) => (leave s', r)
           end.

Declare Scope search_scope.
Delimit Scope search_scope with search.
Notation "x <- e ;; k" := (sbind e (fun x => k))
  (at level 100, e at next level, right associativity) : search_scope.

Definition opponent (player : Player) : Player :=
  if bool_decide (player = RED) then WHITE else RED.

Definition showBool (b : bool) : string := if b then "true" else "false".
Definition showPlayer (p : Player) : string :=
  match p with RED => "RED" | WHITE => "WHITE" end.

(** [moves.filter(m => (m.captures?.length ?? 0) > 0)] *)
Definition captureMoves (moves : list Move.t) : list Move.t :=
  filter (fun m => 0 <? captureCount m) moves.

Section Quiesce.
Local Open Scope search_scope.
Variable variant : CheckersVariant.

(** The two [for (const move of moves)] loops of [quiesce]; [recur] is
    the recursive call at [depth + 1]. *)
Fixpoint quiesceMax (recur : Board -> Num -> Num -> M Num)
    (board : Board) (moves : list Move.t) (alpha beta : Num) : M Num :=
  match moves with
  | [] => sret alpha
  | move :: rest =>
      child <- liftR (applyMove board move variant) ;;
      v <- recur child alpha beta ;;
      let alpha := Nmax alpha v in
      if Nleb beta alpha then sret alpha
      else quiesceMax recur board rest alpha beta
  end.

Fixpoint quiesceMin (recur : Board -> Num -> Num -> M Num)
    (board : Board) (moves : list Move.t) (alpha beta : Num) : M Num :=
  match moves with
  | [] => sret beta
  | move :: rest =>
      child <- liftR (applyMove board move variant) ;;
      v <- recur child alpha beta ;;
      let beta := Nmin beta v in
      if Nleb beta alpha then sret beta
      else quiesceMin recur board rest alpha beta
  end.

(** [quiesce]; [depth] counts up from 0 and the recursion stops once
    [depth > 4]; [fuel] bounds the recursion for the embedding. *)
Fixpoint quiesce (fuel : nat) (board : Board) (alpha beta : Num) (isMax : bool)
    (player : Player) (depth : Z) : M Num :=
  match fuel with
  | O => liftR OutOfFuel
  | S fuel' =>
      framed (InQuiesce isMax player)
        (standPat <- liftR (evaluateBoard board variant) ;;
         let standPat := Fin standPat in
         if depth >? 4 then sret standPat
         else if isMax then
           if Nleb beta standPat then sret beta
           else
             let alpha := if Nltb alpha standPat then standPat else alpha in
             moves <- liftR (getValidMoves board player variant) ;;
             quiesceMax
               (fun child a b => quiesce fuel' child a b false WHITE (depth + 1))
               board (captureMoves moves) alpha beta
         else
           if Nleb standPat alpha then sret alpha
           else
             let beta := if Nltb standPat beta then standPat else beta in
             moves <- liftR (getValidMoves board player variant) ;;
             quiesceMin
               (fun child a b => quiesce fuel' child a b true RED (depth + 1))
               board (captureMoves moves) alpha beta)
  end.

(** Calls at depths 0 to 5 can be active at once. *)
Definition quiesceBudget : nat := 6.
End Quiesce.

(** [moves.sort((a, b) => (b.captures?.length || 0) - (a.captures?.length || 0))]:
    a sort by descending capture count, stable as the language standard
    requires of [sort] since ES2019. *)
Fixpoint insertByCaptures (m : Move.t) (sorted : list Move.t) : list Move.t :=
  match sorted with
  | [] => [m]
  | x :: rest =>
      if captureCount x <=? captureCount m then m :: x :: rest
      else x :: insertByCaptures m rest
  end.

Definition sortByCaptures (moves : list Move.t) : list Move.t :=
  foldr insertByCaptures [] moves.

(** The cache probe at the head of [alphaBeta]: [inl score] when the call
    returns the cached score, [inr (alpha, beta)] with the window to go on
    with otherwise. *)
Definition probe (cached : option Entry.t) (depth : nat) (alpha beta : Num)
  : Num + (Num * Num) :=
  match cached with
  | Some e =>
      if (depth <=? Entry.depth e)%nat then
        if bool_decide (Entry.flag e = EXACT) then inl (Entry.score e)
        else
          let alpha := if bool_decide (Entry.flag e = LOWER)
                       then Nmax alpha (Entry.score e) else alpha in
          let beta := if bool_decide (Entry.flag e = UPPER)
                      then Nmin beta (Entry.score e) else beta in
          if Nleb beta alpha then inl (Entry.score e) else inr (alpha, beta)
      else inr (alpha, beta)
  | None => inr (alpha, beta)
  end.

(** [best <= alpha ? 'UPPER' : best >= beta ? 'LOWER' : 'EXACT'] *)
Definition flagOf (best alpha beta : Num) : Flag :=
  if Nleb best alpha then UPPER else if Nleb beta best then LOWER else EXACT.

(** The two literals compared with [transpositionTable.size]: [getBestMove]
    clears the table above the first, [alphaBeta] stores below the second. *)
Definition CLEAR_ABOVE : Z := 20000.
Definition STORE_BELOW : Z := 50000.

(** The variables [best], [alpha], [beta] of the move loop. *)
Module Window.
Record t := mk { best : Num; alpha : Num; beta : Num }.
End Window.

Section AlphaBeta.
Local Open Scope search_scope.
Variable variant : CheckersVariant.

(** [for (const move of ordered)]; [recur] is the call at [depth - 1]. *)
Fixpoint searchMoves (recur : Board -> Num -> Num -> M Num) (isMax : bool)
    (player : Player) (board : Board) (ordered : list Move.t) (w : Window.t)
  : M Window.t :=
  match ordered with
  | [] => sret w
  | move :: rest =>
      child <- liftR (applyMove board move variant) ;;
      score <- recur child (Window.alpha w) (Window.beta w) ;;
      let w :=
        if isMax then
          let best := Nmax (Window.best w) score in
          Window.mk best (Nmax (Window.alpha w) best) (Window.beta w)
        else
          let best := Nmin (Window.best w) score in
          Window.mk best (Window.alpha w) (Nmin (Window.beta w) best) in
      if Nleb (Window.beta w) (Window.alpha w) then sret w
      else searchMoves recur isMax player board rest w
  end.

(** [alphaBeta].  [depth] is a natural number: [getBestMove] starts the
    search at [depth - 1 >= 1] and every call passes [depth - 1] until
    [depth === 0]. *)
Fixpoint alphaBeta (depth : nat) (board : Board) (alpha beta : Num) (isMax : bool)
    (player : Player) : M Num :=
  framed (InAlphaBeta isMax player)
    (let key := (serializeBoard board ++ showBool isMax ++ showPlayer player)%string in
     cached <- tt_get key ;;
     match probe cached depth alpha beta with
     | inl score => sret score
     | inr (alpha, beta) =>
         moves <- liftR (getValidMoves board player variant) ;;
         match depth with
         | O => quiesce variant quiesceBudget board alpha beta isMax player 0
         | S depth' =>
             if (length moves =? 0)%nat then
               quiesce variant quiesceBudget board alpha beta isMax player 0
             else
               let best := if isMax then NegInf else PosInf in
               let ordered := sortByCaptures moves in
               w <- searchMoves
                      (fun child a b =>
                         alphaBeta depth' child a b (negb isMax)
                           (if bool_decide (player = RED) then WHITE else RED))
                      isMax player board ordered
                      (Window.mk best alpha beta) ;;
               n <- tt_size ;;
               _ <- (if n <? STORE_BELOW
                     then tt_set key
                            (Entry.mk depth (Window.best w)
                               (flagOf (Window.best w) (Window.alpha w) (Window.beta w)))
                     else sret tt) ;;
               sret (Window.best w)
         end
     end).
End AlphaBeta.

(** ** [getBestMove] *)

Inductive AppMode := PLAY | PUZZLE | EDITOR.

(** [Player | 'DRAW'] *)
Inductive Outcome := Won (player : Player) | DRAW.

Module GameState.
Record t := mk {
  board : Board;
  turn : Player;
  winner : option Outcome;
  history : list Move.t;
  aiLevel : Z;
  variant : CheckersVariant;
  mode : AppMode
}.
End GameState.

(** The difficulty-to-depth table, for an integer level [lv]. *)
Definition depthOfLevel (lv : Z) : Z :=
  if lv <=? 2 then 2 else if lv <=? 4 then 4 else if lv <=? 6 then 5
  else if lv <=? 8 then 6 else if lv <=? 10 then 8 else if lv <=? 12 then 9
  else if lv <=? 14 then 10 else if lv =? 15 then 11 else if lv =? 16 then 12
  else if lv =? 17 then 14 else 16.

Section GetBestMove.
Local Open Scope search_scope.
Variable gameState : GameState.t.

(** [for (const move of moves)] of [getBestMove], over [bestMove] and
    [bestScore]. *)
Fixpoint pickBest (depth : Z) (moves : list Move.t) (bestMove : Move.t) (bestScore : Num)
  : M Move.t :=
  match moves with
  | [] => sret bestMove
  | move :: rest =>
      child <- liftR (applyMove (GameState.board gameState) move (GameState.variant gameState)) ;;
      let isMax := negb (bool_decide (GameState.turn gameState = RED)) in
      let side := if bool_decide (GameState.turn gameState = RED) then WHITE else RED in
      score <- alphaBeta (GameState.variant gameState) (Z.to_nat (depth - 1)) child
                 NegInf PosInf isMax side ;;
      if (bool_decide (GameState.turn gameState = RED) && Nltb bestScore score)
         || (bool_decide (GameState.turn gameState = WHITE) && Nltb score bestScore)
      then pickBest depth rest move score
      else pickBest depth rest bestMove bestScore
  end.

(** [getBestMove] after its first statement, the part of its body that
    makes calls; [None] is the source's [null]. *)
Definition chooseMove : M (option Move.t) :=
  framed (InGetBestMove (GameState.turn gameState))
    (let lv := GameState.aiLevel gameState in
     let depth := depthOfLevel lv in
     moves <- liftR (getValidMoves (GameState.board gameState) (GameState.turn gameState) (GameState.variant gameState)) ;;
     match moves with
     | [] => sret None
     | first :: _ =>
         let bestScore := if bool_decide (GameState.turn gameState = RED) then NegInf else PosInf in
         m <- pickBest depth moves first bestScore ;;
         sret (Some m)
     end).

Definition getBestMove : M (option Move.t) :=
  n <- tt_size ;;
  _ <- (if n >? CLEAR_ABOVE then tt_clear else sret tt) ;;
  chooseMove.
End GetBestMove.

Definition emptyState : SearchState :=
  {| transpositionTable := ∅; callLog := []; callStack := [] |}.


(** ** The component: [App.tsx] *)

Module App.
(** The state of [App] that the engine sees: [mode], [variant],
    [winStreak] and [gameState]. *)
Record t := mk {
  mode : AppMode;
  variant : CheckersVariant;
  winStreak : Z;
  gameState : GameState.t
}.
End App.

(** The initial values of [useState]. *)
Definition initialApp : result App.t :=
  (board <- createInitialBoard ENGLISH ;;
   Ok (App.mk PLAY ENGLISH 0 (GameState.mk board RED None [] 8 ENGLISH PLAY)))%res.

(** [Math.min(18, gameState.aiLevel + Math.floor(winStreak / 2))] *)
Definition adaptiveLevel (st : App.t) : Z :=
  Z.min 18 (GameState.aiLevel (App.gameState st) + App.winStreak st / 2).

(** [getValidMoves(gameState.board, gameState.turn, variant)] *)
Definition currentValidMoves (st : App.t) : result (list Move.t) :=
  getValidMoves (GameState.board (App.gameState st)) (GameState.turn (App.gameState st))
    (App.variant st).

Definition handleVariantChange (v : CheckersVariant) (st : App.t) : result App.t :=
  (board <- createInitialBoard v ;;
   let prev := App.gameState st in
   Ok (App.mk (App.mode st) v (App.winStreak st)
         (GameState.mk board RED None [] (GameState.aiLevel prev) v (GameState.mode prev))))%res.

(** [handleModeChange]; the puzzle that [fetchNewPuzzle] installs when it
    arrives is not part of the model. *)
Definition handleModeChange (newMode : AppMode) (st : App.t) : result App.t :=
  let st' := App.mk newMode (App.variant st) (App.winStreak st) (App.gameState st) in
  match newMode with
  | PLAY => handleVariantChange (App.variant st) st'
  | _ => Ok st'
  end.

Definition handleMove (move : Move.t) (st : App.t) : result App.t :=
  (let gs := App.gameState st in
   let rules := getVariantRules (App.variant st) in
   newBoard <- applyMove (GameState.board gs) move (App.variant st) ;;
   let nextTurn := if bool_decide (GameState.turn gs = RED) then WHITE else RED in
   nextMoves <- getValidMoves newBoard nextTurn (App.variant st) ;;
   let winner :=
     if (length nextMoves =? 0)%nat
     then Some (Won (if isLosingGoal rules then nextTurn else GameState.turn gs))
     else None in
   let streak :=
     match winner, App.mode st with
     | Some (Won RED), PLAY => App.winStreak st + 1
     | Some (Won WHITE), PLAY => 0
     | _, _ => App.winStreak st
     end in
   Ok (App.mk (App.mode st) (App.variant st) streak
         (GameState.mk newBoard nextTurn winner (GameState.history gs ++ [move])
            (GameState.aiLevel gs) (GameState.variant gs) (GameState.mode gs))))%res.

(** The condition of the effect that lets the engine play WHITE. *)
Definition aiToMove (st : App.t) : bool :=
  match App.mode st, GameState.turn (App.gameState st), GameState.winner (App.gameState st) with
  | PLAY, WHITE, None => true
  | _, _, _ => false
  end.

(** The body of that effect. *)
Definition aiTurn (st : App.t) : M App.t :=
  (let gs := App.gameState st in
   let rules := getVariantRules (App.variant st) in
   aiMove <- getBestMove
               (GameState.mk (GameState.board gs) (GameState.turn gs) (GameState.winner gs)
                  (GameState.history gs) (adaptiveLevel st) (GameState.variant gs)
                  (GameState.mode gs)) ;;
   match aiMove with
   | Some move => liftR (handleMove move st)
   | None =>
       sret (App.mk (App.mode st) (App.variant st) (App.winStreak st)
               (GameState.mk (GameState.board gs) (GameState.turn gs)
                  (Some (Won (if isLosingGoal rules then WHITE else RED)))
                  (GameState.history gs) (GameState.aiLevel gs) (GameState.variant gs)
                  (GameState.mode gs)))
   end)%search.

(** The slider of the level: [aiLevel: parseInt(e.target.value)]. *)
Definition setLevel (lv : Z) (st : App.t) : App.t :=
  let gs := App.gameState st in
  App.mk (App.mode st) (App.variant st) (App.winStreak st)
    (GameState.mk (GameState.board gs) (GameState.turn gs) (GameState.winner gs)
       (GameState.history gs) lv (GameState.variant gs) (GameState.mode gs)).

(** What a click puts on a square in the editor: nothing, a red man, a
    red king, a white man, a white king, and nothing again. *)
Definition editedCell (r c : Z) (current : option Piece.t) : option Piece.t :=
  match current with
  | None => Some (Piece.mk (pieceId "ed" r c) RED PAWN (Pos.mk r c))
  | Some p =>
      match Piece.player p, Piece.type p with
      | RED, PAWN => Some (Piece.mk (Piece.id p) RED KING (Piece.position p))
      | RED, KING => Some (Piece.mk (Piece.id p) WHITE PAWN (Piece.position p))
      | WHITE, PAWN => Some (Piece.mk (Piece.id p) WHITE KING (Piece.position p))
      | WHITE, KING => None
      end
  end.

(** The board after a click on [(r, c)] in the editor. *)
Definition editBoard (r c : Z) (board : Board) : result Board :=
  (current <- cell board r c ;;
   setCell board r c (editedCell r c current))%res.

(** [onSquareClick] in the mode EDITOR. *)
Definition editorClick (r c : Z) (st : App.t) : result App.t :=
  (let gs := App.gameState st in
   match GameState.winner gs with
   | Some _ => Ok st
   | None =>
       newBoard <- editBoard r c (GameState.board gs) ;;
       Ok (App.mk (App.mode st) (App.variant st) (App.winStreak st)
             (GameState.mk newBoard (GameState.turn gs) (GameState.winner gs)
                (GameState.history gs) (GameState.aiLevel gs) (GameState.variant gs)
                (GameState.mode gs)))
   end)%res.


(** ** The service: [aiEngineService.ts] *)

Module Legacy.
(** A piece of the existing system: [{ color, isKing, id }]. *)
Record t := mk { color : string; isKing : bool; id : string }.
End Legacy.

Abbreviation LegacyBoard := (list (list (Slot Legacy.t))).

(** The object literal of [convertBoardToNewFormat]. *)
Definition newPieceOf (piece : Legacy.t) : Piece.t :=
  Piece.mk (Legacy.id piece)
    (if bool_decide (Legacy.color piece = "white") then WHITE else RED)
    (if Legacy.isKing piece then KING else PAWN)
    (Pos.mk 0 0).

Definition convertBoardToNewFormat (existingBoard : LegacyBoard) : Board :=
  map (fun row => map (mapSlot (option_map newPieceOf)) row) existingBoard.

(** The object literal of [convertBoardToExistingFormat]. *)
Definition legacyPieceOf (piece : Piece.t) : Legacy.t :=
  Legacy.mk (if bool_decide (Piece.player piece = WHITE) then "white" else "black")
    (bool_decide (Piece.type piece = KING))
    (Piece.id piece).

Definition convertBoardToExistingFormat (newBoard : Board) : LegacyBoard :=
  map (fun row => map (mapSlot (option_map legacyPieceOf)) row) newBoard.

(** [newBoard[r][c]!.position = { r, c }] *)
Definition placeAt (r c : nat) (piece : Piece.t) : Piece.t :=
  Piece.mk (Piece.id piece) (Piece.player piece) (Piece.type piece)
    (Pos.mk (Z.of_nat r) (Z.of_nat c)).

(** [updatePiecePositions] writes the pieces of the board it is given; the
    board written is returned here. *)
Definition updatePiecePositions (newBoard : Board) : Board :=
  imap (fun r row => imap (fun c => mapSlot (option_map (placeAt r c))) row) newBoard.

(** [convertBoardFormat], of the second version of the class, whose
    callers do not update the positions. *)
Definition convertBoardFormat (existingBoard : LegacyBoard) : Board :=
  map (fun row => map (mapSlot (option_map newPieceOf)) row) existingBoard.


(** ** Notions used to state the properties *)

(** The occupant of a cell, empty where [board[r][c]] would raise. *)
Definition pieceAt (board : Board) (r c : Z) : option Piece.t :=
  match cell board r c with
  | Ok p => p
  | _ => None
  end.

(** [m.captures ?? []] *)
Definition capturedCells (m : Move.t) : list Pos.t := default [] (Move.captures m).

(** The [n] by [n] board whose cell [(r, c)] holds [f r c]. *)
Definition grid (n : Z) (f : Z -> Z -> option Piece.t) : Board :=
  map (fun r => map (fun c => Held (f r c)) (range n)) (range n).

Definition ownedBy (player : Player) (p : option Piece.t) : bool :=
  match p with
  | Some p => bool_decide (Piece.player p = player)
  | None => false
  end.

(** Number of rows holding at least one piece of [player]. *)
Definition rowsOf (board : Board) (player : Player) : Z :=
  Z.of_nat (length (filter (fun row => existsb (fun s => ownedBy player (occupant s)) row)
                      board)).

Definition isDark (r c : Z) : bool := negb ((r + c) mod 2 =? 0).

(** Every piece within the first [n] rows and columns stands on a dark
    square. *)
Definition onlyDarkSquares (n : Z) (board : Board) : bool :=
  forallb (fun r =>
    forallb (fun c =>
      match pieceAt board r c with
      | Some _ => isDark r c
      | None => true
      end) (range n)) (range n).

(** *** Initial layout *)

(** Rows per side by board width, Thai apart. *)
Definition rowsByWidth (variant : CheckersVariant) : Z :=
  let size := boardSize (getVariantRules variant) in
  if bool_decide (variant = THAI) then 2
  else if size =? 8 then 3 else if size =? 10 then 4 else if size =? 12 then 5 else 0.

(** Rows per side that the code fills: two full rows in the variants that
    play on all squares. *)
Definition rowsFilled (variant : CheckersVariant) : Z :=
  if darkSquarePlay (getVariantRules variant) then rowsByWidth variant else 2.

Definition whitePawn (r c : Z) : Piece.t := Piece.mk (pieceId "w" r c) WHITE PAWN (Pos.mk r c).
Definition redPawn (r c : Z) : Piece.t := Piece.mk (pieceId "r" r c) RED PAWN (Pos.mk r c).

(** The occupant of cell [(r, c)] of the initial position: on dark squares
    of the first and last [rowsByWidth] rows when play is on dark squares;
    otherwise on every square of rows 1-2 (WHITE) and of rows [size - 3]
    and [size - 2] (RED). *)
Definition initialCell (variant : CheckersVariant) (r c : Z) : option Piece.t :=
  let rules := getVariantRules variant in
  let size := boardSize rules in
  if darkSquarePlay rules then
    if isDark r c then
      if r <? rowsByWidth variant then Some (whitePawn r c)
      else if size - rowsByWidth variant <=? r then Some (redPawn r c)
      else None
    else None
  else
    if (1 <=? r) && (r <=? 2) then Some (whitePawn r c)
    else if (size - 3 <=? r) && (r <=? size - 2) then Some (redPawn r c)
    else None.

(** *** Side-swapped mirror *)

Definition swapSide (r c : Z) (p : Piece.t) : Piece.t :=
  Piece.mk (Piece.id p) (opponent (Piece.player p)) (Piece.type p) (Pos.mk r c).

(** Cell [(r, c)] of the mirror holds the piece of cell
    [(N-1-r, N-1-c)], with the same rank and the other side. *)
Definition sideSwappedMirror (variant : CheckersVariant) (board : Board) : Board :=
  let size := boardSize (getVariantRules variant) in
  grid size (fun r c => swapSide r c <$> pieceAt board (size - 1 - r) (size - 1 - c)).

Definition negatedScores (variant : CheckersVariant) (board : Board) : Prop :=
  exists s, evaluateBoard board variant = Ok s
            /\ evaluateBoard (sideSwappedMirror variant board) variant = Ok (- s).

(** A 10 by 10 board with one red man on its own back row. *)
Definition lonePawnBoard : Board :=
  grid 10 (fun r c => if (r =? 9) && (c =? 0) then Some (redPawn 9 0) else None).

(** *** The capture filters, as the rules word them *)

Definition fromKing (board : Board) (m : Move.t) : bool :=
  isKing (pieceAt board (Pos.r (Move.from m)) (Pos.c (Move.from m))).

Definition kingsCaptured (board : Board) (m : Move.t) : Z :=
  Z.of_nat (length (filter (fun cp => isKing (pieceAt board (Pos.r cp) (Pos.c cp)))
                           (capturedCells m))).

(** The candidates that no candidate beats on the measure [f]. *)
Definition tiedForMax (f : Move.t -> Z) (cands : list Move.t) : list Move.t :=
  filter (fun m => forallb (fun m' => f m' <=? f m) cands) cands.

Definition kingPriorityStage (rules : VariantRules) (board : Board) (cands : list Move.t)
  : list Move.t :=
  if kingCapturePriority rules && existsb (fromKing board) cands
  then filter (fun m => fromKing board m) cands
  else cands.

Definition majorityStage (rules : VariantRules) (cands : list Move.t) : list Move.t :=
  if majorityCaptureRequired rules then tiedForMax captureCount cands else cands.

Definition qualityStage (rules : VariantRules) (board : Board) (cands : list Move.t)
  : list Move.t :=
  if qualityCaptureRequired rules then tiedForMax (kingsCaptured board) cands else cands.

Definition captureFilters (rules : VariantRules) (board : Board) (jumpMoves : list Move.t)
  : list Move.t :=
  qualityStage rules board (majorityStage rules (kingPriorityStage rules board jumpMoves)).

(** *** Well-formed boards *)

(** The board has one row per rank of the variant and every piece records
    the cell it stands on. *)
Definition wellFormed (rules : VariantRules) (board : Board) : Prop :=
  Z.of_nat (length board) = boardSize rules
  /\ forall r c p, cell board r c = Ok (Some p) -> Piece.position p = Pos.mk r c.

(** *** Calls *)

Definition redMaximizes (f : Frame) : Prop :=
  match f with
  | InGetBestMove _ => False
  | InAlphaBeta isMax player | InQuiesce isMax player => isMax = bool_decide (player = RED)
  end.

Definition sideOf (f : Frame) : Player :=
  match f with
  | InGetBestMove t => t
  | InAlphaBeta _ player | InQuiesce _ player => player
  end.

(** A recorded call enters a frame where the maximizing flag is set exactly
    for RED, on behalf of the opponent of the side of the calling frame when
    it moves a piece (every call but the one from [alphaBeta] into
    [quiesce], which hands over the same position). *)
Definition callOk (e : CallEdge) : Prop :=
  redMaximizes (callee e)
  /\ match caller e, callee e with
     | InAlphaBeta _ _, InQuiesce _ _ => sideOf (callee e) = sideOf (caller e)
     | _, _ => sideOf (callee e) = opponent (sideOf (caller e))
     end.

(** The call recorded when [f] is entered on the stack [stk] is in order:
    nothing is recorded on an empty stack. *)
Definition entryOk (stk : list Frame) (f : Frame) : Prop :=
  match stk with
  | [] => True
  | from :: _ => callOk {| caller := from; callee := f |}
  end.

(** *** Positions used as examples *)

(** A red king alone in the middle of an 8 by 8 board. *)
Definition loneKingBoard : Board :=
  grid 8 (fun r c => if (r =? 3) && (c =? 3)
                     then Some (Piece.mk "r-3-3" RED KING (Pos.mk 3 3)) else None).

(** *** Capture chains *)

Definition occupied (board : Board) (v : Pos.t) : Prop :=
  exists p, cell board (Pos.r v) (Pos.c v) = Ok (Some p).

(** The cells captured so far: pairwise distinct and all occupied. *)
Definition distinctOccupied (board : Board) (cells : list Pos.t) : Prop :=
  NoDup cells /\ Forall (occupied board) cells.

(** [m] is a chain of [piece] that extends the captures [vis] by at least
    one cell. *)
Definition chainOf (board : Board) (piece : Piece.t) (vis : list Pos.t) (m : Move.t) : Prop :=
  Move.from m = Piece.position piece
  /\ exists ext, Move.captures m = Some (vis ++ ext) /\ ext <> []
                 /\ distinctOccupied board (vis ++ ext).

(** [m] is a step move of [piece]. *)
Definition stepOf (piece : Piece.t) (m : Move.t) : Prop :=
  Move.from m = Piece.position piece /\ Move.captures m = None.

(** The board has a row for every rank and [pos] lies on one of them. *)
Definition inRows (board : Board) (rules : VariantRules) (pos : Pos.t) : Prop :=
  boardSize rules <= Z.of_nat (length board)
  /\ 0 <= Pos.r pos < Z.of_nat (length board).

(** A capture move: a non-empty list of distinct occupied cells, taken by
    a piece that, on a well-formed board, starts from one of the rows. *)
Definition captureMove (rules : VariantRules) (board : Board) (m : Move.t) : Prop :=
  (exists cs, Move.captures m = Some cs /\ cs <> [] /\ distinctOccupied board cs)
  /\ (wellFormed rules board -> 0 <= Pos.r (Move.from m) < Z.of_nat (length board)).

Definition stepMove (m : Move.t) : Prop := Move.captures m = None.

(** What [getValidMoves] returns, given what the scan of the board finds. *)
Definition validMoves (rules : VariantRules) (board : Board) (player : Player)
    (moves : list Move.t) : Prop :=
  exists jumpMoves stepMoves,
    collectMoves board player rules = Ok (jumpMoves, stepMoves)
    /\ Forall (captureMove rules board) jumpMoves
    /\ Forall stepMove stepMoves
    /\ (jumpMoves <> [] -> moves = captureFilters rules board jumpMoves)
    /\ (jumpMoves = [] -> moves = stepMoves).

(** A red man at (4, 1) that can take the white man at (3, 2), or step
    to (3, 0). *)
Definition skirmishBoard : Board :=
  grid 8 (fun r c =>
    if (r =? 4) && (c =? 1) then Some (redPawn 4 1)
    else if (r =? 3) && (c =? 2) then Some (whitePawn 3 2)
    else None).

Definition skirmishJump : Move.t :=
  Move.mk (Pos.mk 4 1) (Pos.mk 2 3) (Some [Pos.mk 3 2]).

Definition skirmishStep : Move.t := Move.mk (Pos.mk 4 1) (Pos.mk 3 0) None.

(** *** The evaluation as a sum over the cells *)

Definition sumZ (f : Z -> Z) (xs : list Z) : Z := foldr (fun x acc => f x + acc) 0 xs.

(** What the occupant of cell [(r, c)] adds to the score: its value and
    one unit of the piece-count term, counted for RED and against WHITE. *)
Definition cellScore (size r c : Z) (p : option Piece.t) : Z :=
  match p with
  | None => 0
  | Some p =>
      if bool_decide (Piece.player p = RED)
      then pieceValue size r c p + EVAL_MOBILITY
      else - (pieceValue size r c p + EVAL_MOBILITY)
  end.

Definition boardTotal (size : Z) (board : Board) : Z :=
  sumZ (fun r => sumZ (fun c => cellScore size r c (pieceAt board r c)) (range size))
       (range size).

Definition tallyScore (t : Tally) : Z :=
  rMat t - wMat t + (rCount t - wCount t) * EVAL_MOBILITY.

(** International draughts: the red man at (6, 1) can take two white men
    in a row, the red man at (6, 7) only one. *)
Definition majorityBoard : Board :=
  grid 10 (fun r c =>
    if (r =? 6) && ((c =? 1) || (c =? 7)) then Some (redPawn r c)
    else if ((r =? 5) && ((c =? 2) || (c =? 8))) || ((r =? 3) && (c =? 4))
         then Some (whitePawn r c)
    else None).

(** Russian draughts: the red man at (2, 1) takes (1, 2), lands on its
    king row at (0, 3), and goes on as a long-range king to take (2, 5). *)
Definition promotionBoard : Board :=
  grid 8 (fun r c =>
    if (r =? 2) && (c =? 1) then Some (redPawn r c)
    else if ((r =? 1) && (c =? 2)) || ((r =? 2) && (c =? 5)) then Some (whitePawn r c)
    else None).

(** *** States of the search *)

(** [transpositionTable.clear()] *)
Definition clearTable (s : SearchState) : SearchState :=
  {| transpositionTable := ∅; callLog := callLog s; callStack := callStack s |}.

Definition tableSize (s : SearchState) : Z := Z.of_nat (size (transpositionTable s)).

(** The initial position of English draughts, and its key in the table
    for a maximizing call with RED to move. *)
Definition openingBoard : Board := grid 8 (initialCell ENGLISH).

Definition openingKey : string :=
  (serializeBoard openingBoard ++ "true" ++ "RED")%string.

(** *** Applying a move *)

(** The piece that [applyMove] writes on the destination: [newPiece]. *)
Definition movedPiece (variant : CheckersVariant) (piece : Piece.t) (dest : Pos.t) : Piece.t :=
  Piece.mk (Piece.id piece) (Piece.player piece)
    (if Pos.r dest =? kingRowOf (Piece.player piece) (boardSize (getVariantRules variant))
     then KING else Piece.type piece)
    dest.

(** The occupant of [pos]. *)
Definition pieceOn (board : Board) (pos : Pos.t) : option Piece.t :=
  pieceAt board (Pos.r pos) (Pos.c pos).

(** *** What the generator guarantees of a move *)

(** [whenOk Q x]: if [x] is a value, it satisfies [Q]. *)
Definition whenOk {A} (Q : A -> Prop) (x : result A) : Prop :=
  match x with
  | Ok a => Q a
  | _ => True
  end.

(** A cell that [piece], moving with rank [ty], may capture: it holds a
    piece of the other side, and not a king when the mover is a man, men may
    not capture kings and do not promote in the middle of a chain. *)
Definition capturable (board : Board) (piece : Piece.t) (rules : VariantRules)
    (ty : PieceType) (cp : Pos.t) : Prop :=
  exists mp,
    cell board (Pos.r cp) (Pos.c cp) = Ok (Some mp)
    /\ Piece.player mp <> Piece.player piece
    /\ (ty = PAWN -> pawnCanCaptureKing rules = false ->
        pawnKingTransformationMidJump rules = false -> Piece.type mp = PAWN).

(** A capture move of [piece], found while it moves with rank [ty] and has
    captured [vis]: it starts at the piece's position, lands on an empty
    cell of the grid, and adds capturable cells to [vis]. *)
Definition captureFacts (board : Board) (piece : Piece.t) (rules : VariantRules)
    (ty : PieceType) (vis : list Pos.t) (m : Move.t) : Prop :=
  Move.from m = Piece.position piece
  /\ inGrid rules (Pos.r (Move.to m)) (Pos.c (Move.to m)) = true
  /\ cell board (Pos.r (Move.to m)) (Pos.c (Move.to m)) = Ok None
  /\ exists ext, Move.captures m = Some (vis ++ ext) /\ ext <> []
                 /\ Forall (capturable board piece rules ty) ext.

(** A step move of [piece]: [k] cells along one of its directions to an
    empty cell of the grid; more than one cell only for a long-range king;
    for a man, not backward, and sideways only in an orthogonal variant;
    every cell on the way is an empty cell of the grid. *)
Definition stepFacts (board : Board) (piece : Piece.t) (rules : VariantRules)
    (m : Move.t) : Prop :=
  Move.from m = Piece.position piece
  /\ Move.captures m = None
  /\ inGrid rules (Pos.r (Move.to m)) (Pos.c (Move.to m)) = true
  /\ cell board (Pos.r (Move.to m)) (Pos.c (Move.to m)) = Ok None
  /\ exists d k,
       d ∈ dirs piece rules /\ 1 <= k
       /\ Move.to m = Pos.mk (Pos.r (Piece.position piece) + fst d * k)
                             (Pos.c (Piece.position piece) + snd d * k)
       /\ (k = 1 \/ (Piece.type piece = KING /\ kingLongRange rules = true))
       /\ (Piece.type piece = PAWN ->
           isBack piece (fst d) = false /\ (fst d = 0 -> isOrthogonal rules = true))
       /\ forall i, 1 <= i <= k ->
            inGrid rules (Pos.r (Piece.position piece) + fst d * i)
                         (Pos.c (Piece.position piece) + snd d * i) = true
            /\ cell board (Pos.r (Piece.position piece) + fst d * i)
                          (Pos.c (Piece.position piece) + snd d * i) = Ok None.

(** A move of a piece of [player] standing on the board. *)
Definition moveOf (board : Board) (player : Player) (rules : VariantRules) (m : Move.t)
  : Prop :=
  exists piece r c,
    cell board r c = Ok (Some piece)
    /\ Piece.player piece = player
    /\ 0 <= r < boardSize rules /\ 0 <= c < boardSize rules
    /\ (captureFacts board piece rules (Piece.type piece) [] m
        \/ stepFacts board piece rules m).

(** [yields Q m]: from every state [m] returns a value, and it satisfies
    [Q]. *)
Definition yields {A} (Q : A -> Prop) (m : M A) : Prop :=
  forall s, exists a, snd (m s) = Ok a /\ Q a.

(** The answer of [getBestMove] against the legal moves: [null] when
    there is none, one of them otherwise. *)
Definition chosenFrom (moves : list Move.t) (answer : option Move.t) : Prop :=
  match answer with
  | None => moves = []
  | Some m => m ∈ moves
  end.

(** *** Keys of the transposition table *)

(** [serializeBoard(board) + isMax + player], the key of [alphaBeta]. *)
Definition tableKey (board : Board) (isMax : bool) (player : Player) : string :=
  (serializeBoard board ++ showBool isMax ++ showPlayer player)%string.

(** The side and rank on every cell, as [serializeBoard] prints them. *)
Definition layout (board : Board) : list (list string) := map (map slotChar) board.

(** No row has a hole: every write so far fell on an index of its row, or
    just past the last. *)
Definition held {A} (s : Slot A) : bool :=
  match s with
  | Hole => false
  | Held _ => true
  end.

Definition dense (board : Board) : Prop := forallb (forallb held) board = true.

Definition newlineChar : ascii := ascii_of_nat 10.

(** A string without a line break. *)
Fixpoint plain (s : string) : Prop :=
  match s with
  | EmptyString => True
  | String ch s' => ch <> newlineChar /\ plain s'
  end.

(** A table without entries tagged [EXACT]. *)
Definition exactFree (s : SearchState) : Prop :=
  forall key e, transpositionTable s !! key = Some e -> Entry.flag e <> EXACT.

(** *** Sample positions *)

(** The first step of the opening position that [getValidMoves] lists. *)
Definition openingStep : Move.t := Move.mk (Pos.mk 5 0) (Pos.mk 4 1) None.

(** The opening position with RED to move, at level 1. *)
Definition openingGame : GameState.t :=
  GameState.mk openingBoard RED None [] 1 ENGLISH PLAY.

(** The skirmish with other identifiers and stale positions on its
    pieces. *)
Definition relabelledSkirmish : Board :=
  grid 8 (fun r c =>
    if (r =? 4) && (c =? 1) then Some (Piece.mk "a" RED PAWN (Pos.mk 0 0))
    else if (r =? 3) && (c =? 2) then Some (Piece.mk "b" WHITE PAWN (Pos.mk 0 0))
    else None).

(** The skirmish after the capture. *)
Definition skirmishAfter : Board :=
  grid 8 (fun r c =>
    if (r =? 2) && (c =? 3) then Some (Piece.mk "r-4-1" RED PAWN (Pos.mk 2 3)) else None).

(** The moves of RED in the opening position. *)
Definition openingMoves : list Move.t :=
  Eval vm_compute in
    match getValidMoves openingBoard RED ENGLISH with
    | Ok moves => moves
    | _ => []
    end.

(** *** Material *)

(** No piece stands outside the grid of the variant. *)
Definition confined (rules : VariantRules) (board : Board) : Prop :=
  forall r c p, pieceAt board r c = Some p -> inGrid rules r c = true.

Definition gridSum (size : Z) (f : Z -> Z -> Z) : Z :=
  sumZ (fun r => sumZ (fun c => f r c) (range size)) (range size).

(** The number of pieces of [player] on the grid. *)
Definition material (rules : VariantRules) (board : Board) (player : Player) : Z :=
  gridSum (boardSize rules) (fun r c => if ownedBy player (pieceAt board r c) then 1 else 0).

(** *** States of the component *)

(** The states that the component goes through without puzzles: from its
    initial state by a change of variant, of mode or of level, by a move
    of [currentValidMoves], by a turn of the engine, and by a click on a
    square of the grid in the editor. *)
Inductive reachable : App.t -> Prop :=
  | reach_initial st : initialApp = Ok st -> reachable st
  | reach_variant v st st' :
      reachable st -> handleVariantChange v st = Ok st' -> reachable st'
  | reach_mode newMode st st' :
      reachable st -> handleModeChange newMode st = Ok st' -> reachable st'
  | reach_level lv st : reachable st -> reachable (setLevel lv st)
  | reach_move move moves st st' :
      reachable st -> currentValidMoves st = Ok moves -> move ∈ moves ->
      handleMove move st = Ok st' -> reachable st'
  | reach_ai s st st' :
      reachable st -> aiToMove st = true -> snd (aiTurn st s) = Ok st' -> reachable st'
  | reach_edit r c st st' :
      reachable st -> App.mode st = EDITOR ->
      inGrid (getVariantRules (App.variant st)) r c = true ->
      editorClick r c st = Ok st' -> reachable st'.

(** The same without the editor: the states of a game. *)
Inductive played : App.t -> Prop :=
  | play_initial st : initialApp = Ok st -> played st
  | play_variant v st st' :
      played st -> handleVariantChange v st = Ok st' -> played st'
  | play_mode newMode st st' :
      played st -> handleModeChange newMode st = Ok st' -> played st'
  | play_level lv st : played st -> played (setLevel lv st)
  | play_move move moves st st' :
      played st -> currentValidMoves st = Ok moves -> move ∈ moves ->
      handleMove move st = Ok st' -> played st'
  | play_ai s st st' :
      played st -> aiToMove st = true -> snd (aiTurn st s) = Ok st' -> played st'.

(** What the engine needs of the state: a well-formed board for the
    variant, the same variant in [gameState], no negative streak. *)
Definition engineReady (st : App.t) : Prop :=
  wellFormed (getVariantRules (App.variant st)) (GameState.board (App.gameState st))
  /\ GameState.variant (App.gameState st) = App.variant st
  /\ 0 <= App.winStreak st.

(** The bookkeeping of a game: RED is to move after an even number of
    moves; no winner is recorded while the side to move has a legal
    move; a recorded winner is the side to move where losing is the goal,
    the other side otherwise, and the side to move has no legal move. *)
Definition scoreKept (st : App.t) : Prop :=
  let gs := App.gameState st in
  (GameState.turn gs = RED <-> Nat.even (length (GameState.history gs)) = true)
  /\ match GameState.winner gs with
     | None => exists move moves, currentValidMoves st = Ok (move :: moves)
     | Some w =>
         currentValidMoves st = Ok []
         /\ w = Won (if isLosingGoal (getVariantRules (App.variant st))
                     then GameState.turn gs else opponent (GameState.turn gs))
     end.

(** The initial state of the component. *)
Definition openingApp : App.t :=
  App.mk PLAY ENGLISH 0 (GameState.mk openingBoard RED None [] 8 ENGLISH PLAY).

(** [n] clicks on the square [(r, c)] in the editor. *)
Fixpoint clicks (n : nat) (r c : Z) (board : Board) : result Board :=
  match n with
  | O => Ok board
  | S n => (board' <- editBoard r c board ;; clicks n r c board')%res
  end.

(** *** Boards of the service *)

(** Every piece records the cell it stands on. *)
Definition positioned (board : Board) : Prop :=
  forall r c p, cell board r c = Ok (Some p) -> Piece.position p = Pos.mk r c.

(** The colours of the existing system. *)
Definition twoColours (board : LegacyBoard) : Prop :=
  forall row piece, row ∈ board -> Held (Some piece) ∈ row ->
    Legacy.color piece = "white" \/ Legacy.color piece = "black".

(** The skirmish in the format of the existing system. *)
Definition legacySkirmish : LegacyBoard :=
  Eval vm_compute in convertBoardToExistingFormat skirmishBoard.

(** *** Captures within reach *)

(** The man [piece] can take in the direction [d]: it may capture that
    way, the next cell holds a piece of the other side that a man may take,
    and the cell behind it is an empty cell of the grid. *)
Definition manCanTake (board : Board) (rules : VariantRules) (piece : Piece.t) (d : Z * Z)
  : Prop :=
  let pos := Piece.position piece in
  exists mp,
    d ∈ dirs piece rules
    /\ (isBack piece (fst d) = false \/ pawnCaptureBackwards rules = true
        \/ isOrthogonal rules = true)
    /\ inGrid rules (Pos.r pos + fst d * 2) (Pos.c pos + snd d * 2) = true
    /\ pieceAt board (Pos.r pos + fst d) (Pos.c pos + snd d) = Some mp
    /\ Piece.player mp <> Piece.player piece
    /\ (pawnCanCaptureKing rules = true \/ Piece.type mp = PAWN)
    /\ pieceAt board (Pos.r pos + fst d * 2) (Pos.c pos + snd d * 2) = None.

(** *** Rows that exist *)

(** [board[pos.r]] is a row of the board. *)
Definition onRows (board : Board) (pos : Pos.t) : Prop :=
  0 <= Pos.r pos < Z.of_nat (length board).

(** The accesses of [applyMove] stay on the rows of the board: the source,
    and if the source holds a piece, the destination and the captured
    cells. *)
Definition moveOnRows (board : Board) (move : Move.t) : Prop :=
  onRows board (Move.from move)
  /\ (pieceOn board (Move.from move) = None
      \/ (onRows board (Move.to move) /\ Forall (onRows board) (capturedCells move))).

(** The score of the initial position, by width of the board. *)
Definition initialScore (size : Z) : Z :=
  if size =? 8 then 0 else if size =? 10 then -1400 else -4070.

(** A game state on a board without rows. *)
Definition emptyGame : GameState.t := GameState.mk [] RED None [] 1 ENGLISH PLAY.

(** *** A table with one entry *)

Definition oneEntryState : SearchState :=
  {| transpositionTable := {[ openingKey := Entry.mk 1 (Fin 40) UPPER ]};
     callLog := []; callStack := [] |}.

(** *** The choice at the root *)

(** The calls of the loop of [getBestMove], in its order, without the
    comparison. *)
Fixpoint rootLoop (gs : GameState.t) (depth : Z) (moves : list Move.t) : M (list Num) :=
  match moves with
  | [] => sret []
  | move :: rest =>
      (child <- liftR (applyMove (GameState.board gs) move (GameState.variant gs)) ;;
       let isMax := negb (bool_decide (GameState.turn gs = RED)) in
       let side := if bool_decide (GameState.turn gs = RED) then WHITE else RED in
       score <- alphaBeta (GameState.variant gs) (Z.to_nat (depth - 1)) child
                  NegInf PosInf isMax side ;;
       scores <- rootLoop gs depth rest ;;
       sret (score :: scores))%search
  end.

(** The scores of the moves at the root: those of the loop, run in the
    frame of [getBestMove]. *)
Definition rootScores (gs : GameState.t) (depth : Z) (moves : list Move.t) : M (list Num) :=
  framed (InGetBestMove (GameState.turn gs)) (rootLoop gs depth moves).

(** The score [a] is better than [b] for the side to move: higher for
    RED, lower for WHITE. *)
Definition better (turn : Player) (a b : Num) : bool :=
  if bool_decide (turn = RED) then Nltb b a else Nltb a b.

(** The [i]-th move has the best score, and is the first to have it. *)
Definition firstBest (turn : Player) (scores : list Num) (i : nat) : Prop :=
  exists best,
    scores !! i = Some best
    /\ (forall j score, scores !! j = Some score -> better turn score best = false)
    /\ (forall j score, (j < i)%nat -> scores !! j = Some score -> better turn best score = true).

(** The table with which the search of [getBestMove] starts. *)
Definition searchStart (s : SearchState) : SearchState :=
  if tableSize s >? CLEAR_ABOVE then clearTable s else s.

(** The loop of [getBestMove] on the scores: the move kept after the
    comparisons. *)
Fixpoint keptMove (turn : Player) (moves : list Move.t) (scores : list Num)
    (bestMove : Move.t) (bestScore : Num) : Move.t :=
  match moves, scores with
  | move :: moves', score :: scores' =>
      if better turn score bestScore then keptMove turn moves' scores' move score
      else keptMove turn moves' scores' bestMove bestScore
  | _, _ => bestMove
  end.

(** *** Finite scores *)

(** A number other than [Infinity] and [-Infinity]. *)
Definition finite (v : Num) : Prop := exists z, v = Fin z.

(** Every score in the table is finite. *)
Definition finiteTable (s : SearchState) : Prop :=
  forall key e, transpositionTable s !! key = Some e -> finite (Entry.score e).

(** [ensures I Q m]: [m] keeps the invariant [I] of the state, and the
    value it returns, if any, satisfies [Q]. *)
Definition ensures {A} (I : SearchState -> Prop) (Q : A -> Prop) (m : M A) : Prop :=
  forall s, I s -> I (fst (m s)) /\ whenOk Q (snd (m s)).

(** *** Where a capture comes from *)

(** [m] is one of the chains that [getPieceMoves] finds for a piece of
    the board. *)
Definition chainFound (board : Board) (rules : VariantRules) (m : Move.t) : Prop :=
  exists piece r c found,
    cell board r c = Ok (Some piece)
    /\ getPieceMoves board piece rules = Ok found
    /\ m ∈ fst found
    /\ Move.from m = Piece.position piece.

(** *** Pieces and captures of a game *)

(** The number of captures of the moves played. *)
Definition capturesOf (history : list Move.t) : Z :=
  foldr (fun m acc => captureCount m + acc) 0 history.

(** The pieces of both sides on the board. *)
Definition piecesOn (rules : VariantRules) (board : Board) : Z :=
  material rules board RED + material rules board WHITE.

(** Every piece of the initial position is on the board or was captured by
    a move of the history, and no piece stands outside the grid. *)
Definition piecesAccounted (st : App.t) : Prop :=
  let rules := getVariantRules (App.variant st) in
  let gs := App.gameState st in
  confined rules (GameState.board gs)
  /\ piecesOn rules (GameState.board gs) + capturesOf (GameState.history gs)
     = piecesOn rules (grid (boardSize rules) (initialCell (App.variant st))).

(** *** A position where every capture filter acts *)

(** Italian draughts.  The red king at (4, 3) has three chains: over the
    man at (5, 2); over the king at (3, 4) and the man at (1, 6); over the
    men at (3, 2) and (1, 2).  The red man at (6, 7) can take the man at
    (5, 6). *)
Definition priorityBoard : Board :=
  grid 8 (fun r c =>
    if (r =? 4) && (c =? 3) then Some (Piece.mk "r-4-3" RED KING (Pos.mk 4 3))
    else if (r =? 6) && (c =? 7) then Some (redPawn 6 7)
    else if (r =? 3) && (c =? 4) then Some (Piece.mk "w-3-4" WHITE KING (Pos.mk 3 4))
    else if ((r =? 3) && (c =? 2)) || ((r =? 1) && (c =? 2)) || ((r =? 1) && (c =? 6))
            || ((r =? 5) && (c =? 2)) || ((r =? 5) && (c =? 6))
         then Some (whitePawn r c)
    else None).

(** The chain of the king over a king and a man. *)
Definition priorityBest : Move.t :=
  Move.mk (Pos.mk 4 3) (Pos.mk 0 7) (Some [Pos.mk 3 4; Pos.mk 1 6]).

(** The chains found on [priorityBoard], in the order of the scan. *)
Definition priorityChains : list Move.t :=
  [Move.mk (Pos.mk 4 3) (Pos.mk 6 1) (Some [Pos.mk 5 2]);
   priorityBest;
   Move.mk (Pos.mk 4 3) (Pos.mk 0 3) (Some [Pos.mk 3 2; Pos.mk 1 2]);
   Move.mk (Pos.mk 6 7) (Pos.mk 4 5) (Some [Pos.mk 5 6])].

Definition prioritySteps : list Move.t := [Move.mk (Pos.mk 4 3) (Pos.mk 5 4) None].

(** *** A game played to its end *)

(** [n] moves, each the first of [currentValidMoves]; the state is kept
    where there is none. *)
Fixpoint playFirst (n : nat) (st : App.t) : App.t :=
  match n with
  | O => st
  | S n =>
      match currentValidMoves st with
      | Ok (move :: _) =>
          match handleMove move st with
          | Ok st' => playFirst n st'
          | _ => st
          end
      | _ => st
      end
  end.

(** English draughts from the opening, 48 moves: WHITE has won, 19 pieces
    were captured, 5 are left. *)
Definition finishedGame : App.t := playFirst 48 openingApp.

(** The opening after four wins in a row. *)
Definition streakApp : App.t :=
  App.mk PLAY ENGLISH 4 (GameState.mk openingBoard RED None [] 8 ENGLISH PLAY).


(** *** Rows without holes *)

(** Which indices of the rows are held. *)
Definition shape (board : Board) : list (list bool) := map (map held) board.

(** [(r, c)] is an index of a row of the board, and not a hole. *)
Definition slotHeld (board : Board) (r c : Z) : bool :=
  (0 <=? r) && (0 <=? c)
  && match shape board !! Z.to_nat r with
     | Some row => default false (row !! Z.to_nat c)
     | None => false
     end.

(** The board is the whole grid of the variant: as many rows as the grid
    is wide, each with as many indices, none of them a hole. *)
Definition full (rules : VariantRules) (board : Board) : Prop :=
  shape board
  = replicate (Z.to_nat (boardSize rules)) (replicate (Z.to_nat (boardSize rules)) true).

(** Eight rows, all without an index but the sixth, where a red man stands
    at (5, 2); its two steps, to the left and to the right. *)
Definition raggedBoard : Board :=
  [[]; []; []; []; []; [Held None; Held None; Held (Some (redPawn 5 2))]; []; []].

Definition raggedLeft : Move.t := Move.mk (Pos.mk 5 2) (Pos.mk 4 1) None.
Definition raggedRight : Move.t := Move.mk (Pos.mk 5 2) (Pos.mk 4 3) None.

(** *** Outcomes of computations *)

(** [wp te Q x]: [x] does not exhaust its budget, raises only if [te], and
    its value satisfies [Q]. *)
Definition wp {A} (te : Prop) (Q : A -> Prop) (x : result A) : Prop :=
  match x with
  | Ok a => Q a
  | TypeError => te
  | OutOfFuel => False
  end.

(** [keeps I m]: running [m] from a state satisfying [I] ends in such a
    state, and not because a budget is exhausted. *)
Definition keeps {A} (I : SearchState -> Prop) (m : M A) : Prop :=
  forall s, I s -> I (fst (m s)) /\ snd (m s) <> OutOfFuel.

(** * Properties *)

(** ** Difficulty levels *)

Lemma depthOfLevel_bounds (lv : Z) : 2 <= depthOfLevel lv <= 16.
Proof.
  unfold depthOfLevel.
  repeat match goal with
         | |- context [if ?b then _ else _] => destruct b
         end; lia.
Qed.

(** C8.  The depth used by [getBestMove] never decreases when the level
    grows, and it always lies between 2 and 16. *)
Theorem depthOfLevel_monotone (l1 l2 : Z) :
  l1 <= l2 ->
  depthOfLevel l1 <= depthOfLevel l2
  /\ 2 <= depthOfLevel l1 <= 16 /\ 2 <= depthOfLevel l2 <= 16.
Proof.
  intros Hle. split; [|split; apply depthOfLevel_bounds].
  unfold depthOfLevel.
  repeat match goal with
         | |- context [?a <=? ?b] => destruct (Z.leb_spec a b)
         | |- context [?a =? ?b] => destruct (Z.eqb_spec a b)
         end; lia.
Qed.

Lemma depthOfLevel_monotone_witness :
  3 <= 16
  /\ depthOfLevel 3 <= depthOfLevel 16
  /\ 2 <= depthOfLevel 3 <= 16 /\ 2 <= depthOfLevel 16 <= 16.
Proof. split; [lia | apply (depthOfLevel_monotone 3 16); lia]. Defined.

(** [getBestMove] searches each root move at [depthOfLevel lv - 1]. *)
Lemma chooseMove_depth (gs : GameState.t) :
  chooseMove gs =
  framed (InGetBestMove (GameState.turn gs))
    (sbind (liftR (getValidMoves (GameState.board gs) (GameState.turn gs) (GameState.variant gs)))
       (fun moves =>
          match moves with
          | [] => sret None
          | first :: _ =>
              sbind (pickBest gs (depthOfLevel (GameState.aiLevel gs)) moves first
                       (if bool_decide (GameState.turn gs = RED) then NegInf else PosInf))
                    (fun m => sret (Some m))
          end)).
Proof. reflexivity. Qed.

(** ** Initial position *)

(** C7 (as amended).  The initial board is the grid of [initialCell]: on
    dark squares only and on 3, 4 or 5 rows per side by width (2 for Thai)
    in the variants that play on dark squares; on every square of two rows
    per side in the variants that play on all squares. *)
Theorem createInitialBoard_layout (variant : CheckersVariant) :
  let size := boardSize (getVariantRules variant) in
  let board := grid size (initialCell variant) in
  createInitialBoard variant = Ok board
  /\ rowsOf board WHITE = rowsFilled variant
  /\ rowsOf board RED = rowsFilled variant
  /\ onlyDarkSquares size board = darkSquarePlay (getVariantRules variant).
Proof. destruct variant; vm_compute; repeat split; reflexivity. Qed.

(** C7 (as stated) fails for Turkish draughts: an 8-wide board, not Thai,
    and each side fills two rows, not three. *)
Lemma createInitialBoard_turkish_rows :
  exists board,
    createInitialBoard TURKISH = Ok board
    /\ boardSize (getVariantRules TURKISH) = 8
    /\ rowsByWidth TURKISH = 3
    /\ rowsOf board WHITE = 2 /\ rowsOf board RED = 2
    /\ rowsOf board WHITE <> rowsByWidth TURKISH.
Proof.
  eexists. split; [vm_compute; reflexivity|].
  repeat split; try (vm_compute; congruence).
Qed.

(** ** Outcomes *)

Section WpRules.
Context {A B : Type}.
Implicit Types (te : Prop).

Lemma wp_bind te (Q : B -> Prop) (x : result A) (f : A -> result B) :
  wp te (fun a => wp te Q (f a)) x -> wp te Q (rbind x f).
Proof. destruct x; simpl; auto. Qed.

Lemma wp_mono te te' (Q Q' : A -> Prop) (x : result A) :
  (te -> te') -> (forall a, Q a -> Q' a) -> wp te Q x -> wp te' Q' x.
Proof. destruct x; simpl; auto. Qed.

Lemma wp_Ok te (Q : A -> Prop) (x : result A) a : wp te Q x -> x = Ok a -> Q a.
Proof. intros H ->. exact H. Qed.

Lemma wp_fuel te (Q : A -> Prop) (x : result A) : wp te Q x -> x <> OutOfFuel.
Proof. intros H ->. exact H. Qed.

End WpRules.

Lemma wp_forEachPush {A B} te (P : B -> Prop) (f : A -> result (list B)) (xs : list A) :
  (forall x, x ∈ xs -> wp te (Forall P) (f x)) ->
  wp te (Forall P) (forEachPush f xs).
Proof.
  induction xs as [|x xs IH]; intros H; simpl; [constructor|].
  apply wp_bind. eapply wp_mono; [exact (fun t => t) | | apply H; left].
  intros ys Hys. apply wp_bind.
  eapply wp_mono; [exact (fun t => t) | | apply IH; intros; apply H; by right].
  intros zs Hzs. simpl. by apply Forall_app.
Qed.

Lemma wp_forLoop {A S} te (I : S -> Prop) (body : S -> A -> result S) (xs : list A) (s : S) :
  I s ->
  (forall s x, x ∈ xs -> I s -> wp te I (body s x)) ->
  wp te I (forLoop body xs s).
Proof.
  revert s. induction xs as [|x xs IH]; intros s Hs H; simpl; [exact Hs|].
  apply wp_bind. eapply wp_mono; [exact (fun t => t) | | apply H; [left | exact Hs]].
  intros s' Hs'. apply IH; [exact Hs'|]. intros; apply H; [by right | done].
Qed.

Lemma wp_filterR {A} te (p : A -> result bool) (q : A -> bool) (xs : list A) :
  (forall x, x ∈ xs -> wp te (fun b => b = q x) (p x)) ->
  wp te (fun ys => ys = filter (fun x => q x) xs) (filterR p xs).
Proof.
  induction xs as [|x xs IH]; intros H; simpl; [reflexivity|].
  apply wp_bind. eapply wp_mono; [exact (fun t => t) | | apply H; left].
  intros b ->. apply wp_bind.
  eapply wp_mono; [exact (fun t => t) | | apply IH; intros; apply H; by right].
  intros ys ->. simpl. destruct (q x) eqn:E.
  - rewrite filter_cons_True; [done | by rewrite E].
  - rewrite filter_cons_False; [done | rewrite E; simpl; tauto].
Qed.

Lemma wp_mapR {A B} te (f : A -> result B) (g : A -> B) (xs : list A) :
  (forall x, x ∈ xs -> wp te (fun y => y = g x) (f x)) ->
  wp te (fun ys => ys = map g xs) (mapR f xs).
Proof.
  induction xs as [|x xs IH]; intros H; simpl; [reflexivity|].
  apply wp_bind. eapply wp_mono; [exact (fun t => t) | | apply H; left].
  intros b ->. apply wp_bind.
  eapply wp_mono; [exact (fun t => t) | | apply IH; intros; apply H; by right].
  intros ys ->. reflexivity.
Qed.

(** ** Cells *)

Lemma cell_fuel board r c : cell board r c <> OutOfFuel.
Proof.
  unfold cell. destruct (r <? 0); [done|].
  destruct (board !! Z.to_nat r); [|done]. by destruct (c <? 0).
Qed.

Lemma cell_raises board r c :
  cell board r c = TypeError <-> ~ (0 <= r < Z.of_nat (length board)).
Proof.
  unfold cell. destruct (Z.ltb_spec r 0) as [Hr|Hr]; [split; [lia | done]|].
  destruct (board !! Z.to_nat r) as [row|] eqn:Hrow.
  - apply lookup_lt_Some in Hrow. destruct (c <? 0); split; try done; lia.
  - apply lookup_ge_None in Hrow. split; [lia | done].
Qed.

Lemma cell_pieceAt board r c p : cell board r c = Ok p -> pieceAt board r c = p.
Proof. unfold pieceAt. by intros ->. Qed.

Lemma wp_cell board r c te :
  (~ (0 <= r < Z.of_nat (length board)) -> te) ->
  wp te (fun p => cell board r c = Ok p) (cell board r c).
Proof.
  intros H. destruct (cell board r c) eqn:E; simpl; [done | |].
  - apply H. by apply (cell_raises board r c).
  - by apply cell_fuel in E.
Qed.

Lemma rowCells_lookup (row : list (Slot Piece.t)) r c n x :
  row !! n = Some x -> Pos.mk r (c + Z.of_nat n) ∈ rowCells r c row.
Proof.
  revert c n. induction row as [|y row IH]; intros c n H; [done|].
  destruct n as [|n]; simpl.
  - replace (c + Z.of_nat 0) with c by lia. left.
  - right. replace (c + Z.of_nat (S n)) with (c + 1 + Z.of_nat n) by lia. by apply IH.
Qed.

Lemma cellsFrom_lookup (board : Board) r0 n row m x :
  board !! n = Some row -> row !! m = Some x ->
  Pos.mk (r0 + Z.of_nat n) (Z.of_nat m) ∈ cellsFrom r0 board.
Proof.
  revert r0 n. induction board as [|row' board IH]; intros r0 n Hn Hm; [done|].
  simpl. apply elem_of_app. destruct n as [|n]; simpl in Hn.
  - left. injection Hn as ->. replace (r0 + Z.of_nat 0) with r0 by lia.
    by apply (rowCells_lookup row r0 0 m x).
  - right. replace (r0 + Z.of_nat (S n)) with (r0 + 1 + Z.of_nat n) by lia. by apply IH.
Qed.

Lemma cell_boardCells board r c p :
  cell board r c = Ok (Some p) -> Pos.mk r c ∈ boardCells board.
Proof.
  unfold cell. destruct (Z.ltb_spec r 0); [done|].
  destruct (board !! Z.to_nat r) as [row|] eqn:Hrow; [|done].
  destruct (Z.ltb_spec c 0); [done|].
  destruct (row !! Z.to_nat c) as [x|] eqn:Hc; simpl; [|done].
  intros _. unfold boardCells.
  replace r with (0 + Z.of_nat (Z.to_nat r)) by lia.
  replace c with (Z.of_nat (Z.to_nat c)) by lia.
  by eapply cellsFrom_lookup.
Qed.

(** ** Capture chains *)

Section Chains.
Variables (board : Board) (piece : Piece.t) (rules : VariantRules).

Lemma inGrid_true r c :
  inGrid rules r c = true <-> 0 <= r < boardSize rules /\ 0 <= c < boardSize rules.
Proof. unfold inGrid. rewrite !andb_true_iff. lia. Qed.

Lemma visited_false vis mr mc : visited vis mr mc = false -> Pos.mk mr mc ∉ vis.
Proof.
  unfold visited. intros H Hin.
  assert (existsb (fun v => (Pos.r v =? mr) && (Pos.c v =? mc)) vis = true) as E.
  { apply existsb_exists. exists (Pos.mk mr mc). split.
    - by apply list_elem_of_In.
    - simpl. by rewrite !Z.eqb_refl. }
  congruence.
Qed.

Lemma distinctOccupied_snoc vis mr mc mp :
  distinctOccupied board vis ->
  cell board mr mc = Ok (Some mp) ->
  visited vis mr mc = false ->
  distinctOccupied board (vis ++ [Pos.mk mr mc]).
Proof.
  intros [Hnd Hocc] Hcell Hvis. split.
  - apply NoDup_app. split; [done|]. split; [|apply NoDup_singleton].
    intros x Hx Hx'. apply list_elem_of_singleton in Hx' as ->.
    by apply visited_false in Hvis.
  - apply Forall_app. split; [done|]. constructor; [|constructor]. by exists mp.
Qed.

Lemma distinctOccupied_length vis :
  distinctOccupied board vis -> (length vis <= length (boardCells board))%nat.
Proof.
  intros [Hnd Hocc]. apply submseteq_length, NoDup_submseteq; [done|].
  intros x Hx. rewrite Forall_forall in Hocc. destruct (Hocc x Hx) as [p Hp].
  destruct x as [xr xc]. by eapply cell_boardCells.
Qed.

Lemma chainOf_snoc vis x m : chainOf board piece (vis ++ [x]) m -> chainOf board piece vis m.
Proof.
  intros [Hfrom (ext & Hc & _ & Hd)]. split; [done|].
  exists (x :: ext). rewrite <- app_assoc in Hc, Hd.
  split; [exact Hc|]. split; [done | exact Hd].
Qed.

Lemma chainsFrom_chain vis x deeper dest :
  distinctOccupied board (vis ++ [x]) ->
  Forall (chainOf board piece (vis ++ [x])) deeper ->
  Forall (chainOf board piece vis) (chainsFrom piece deeper dest (vis ++ [x])).
Proof.
  intros Hd Hdeep. unfold chainsFrom. destruct (0 <? length deeper)%nat.
  - eapply Forall_impl; [exact Hdeep|]. intros m. apply chainOf_snoc.
  - constructor; [|constructor]. split; [done|]. exists [x].
    split; [done|]. split; [done | exact Hd].
Qed.

Section Body.
Variable recur : Pos.t -> PieceType -> list Pos.t -> result (list Move.t).
Variables (cur : Pos.t) (ty : PieceType) (vis : list Pos.t) (k : nat).
Hypothesis Hrec : forall pos ty' vis',
  distinctOccupied board vis' ->
  (length (boardCells board) < k + length vis')%nat ->
  wp (~ inRows board rules pos) (Forall (chainOf board piece vis')) (recur pos ty' vis').
Hypothesis Hinv : distinctOccupied board vis.
Hypothesis Hk : (length (boardCells board) < S k + length vis)%nat.

Lemma recur_step mr mc mp er ec ty' :
  cell board mr mc = Ok (Some mp) ->
  visited vis mr mc = false ->
  inGrid rules er ec = true ->
  wp (~ inRows board rules cur)
     (fun deeper => Forall (chainOf board piece vis)
                      (chainsFrom piece deeper (Pos.mk er ec) (vis ++ [Pos.mk mr mc])))
     (recur (Pos.mk er ec) ty' (vis ++ [Pos.mk mr mc])).
Proof using Hrec Hinv Hk.
  intros Hcell Hvis Hgrid.
  pose proof (distinctOccupied_snoc vis mr mc mp Hinv Hcell Hvis) as Hd.
  eapply wp_mono; [ | | apply Hrec; [exact Hd|] ].
  - intros Hn [Hsz Hcur]. apply Hn. split; [done|]. simpl.
    apply inGrid_true in Hgrid. lia.
  - intros deeper. by apply chainsFrom_chain.
  - rewrite length_app. simpl. lia.
Qed.

(** A read of the grid inside the body: it cannot exhaust a budget, and
    it raises only off the rows of the board. *)
Ltac read_cell E :=
  match goal with
  | |- wp _ _ (rbind (cell ?b ?r ?c) _) =>
      destruct (cell b r c) as [[?mp|]| |] eqn:E; simpl;
      [ | | | exfalso; exact (cell_fuel _ _ _ E) ]
  end.

Lemma pawnJump_chains dr dc :
  -1 <= dr <= 1 ->
  wp (~ inRows board rules cur) (Forall (chainOf board piece vis))
     (pawnJump board piece rules recur cur ty vis dr dc).
Proof using Hrec Hinv Hk.
  intros Hdr. unfold pawnJump.
  destruct (isBack piece dr && _ && _); [constructor|].
  destruct (inGrid rules _ _) eqn:Hgrid; [|constructor].
  read_cell Em; [ | constructor | ].
  - destruct (isEnemy piece mp); [|constructor].
    read_cell El; [constructor | | ].
    + destruct (visited vis _ _) eqn:Hvis; [constructor|].
      destruct (negb _ && _); [constructor|].
      apply wp_bind. by eapply recur_step.
    + intros [Hsz Hcur]. apply cell_raises in El. apply El.
      apply inGrid_true in Hgrid. lia.
  - intros [Hsz Hcur]. apply cell_raises in Em. apply Em.
    apply inGrid_true in Hgrid. lia.
Qed.

Lemma kingShortJump_chains dr dc :
  -1 <= dr <= 1 ->
  wp (~ inRows board rules cur) (Forall (chainOf board piece vis))
     (kingShortJump board piece rules recur cur ty vis dr dc).
Proof using Hrec Hinv Hk.
  intros Hdr. unfold kingShortJump.
  destruct (inGrid rules _ _) eqn:Hgrid; [|constructor].
  read_cell Em; [ | constructor | ].
  - destruct (isEnemy piece mp); [|constructor].
    read_cell El; [constructor | | ].
    + destruct (visited vis _ _) eqn:Hvis; [constructor|]. simpl.
      apply wp_bind. by eapply recur_step.
    + intros [Hsz Hcur]. apply cell_raises in El. apply El.
      apply inGrid_true in Hgrid. lia.
  - intros [Hsz Hcur]. apply cell_raises in Em. apply Em.
    apply inGrid_true in Hgrid. lia.
Qed.

Lemma kingLandings_chains n l mr mc mp dr dc :
  cell board mr mc = Ok (Some mp) ->
  visited vis mr mc = false ->
  wp (~ inRows board rules cur) (Forall (chainOf board piece vis))
     (kingLandings board piece rules recur ty n l mr mc dr dc (vis ++ [Pos.mk mr mc])).
Proof using Hrec Hinv Hk.
  intros Hcell Hvis. revert l. induction n as [|n IH]; intros l; simpl; [constructor|].
  destruct (inGrid rules _ _) eqn:Hgrid; simpl; [|constructor].
  read_cell El; [constructor | | ].
  - apply wp_bind.
    eapply wp_mono; [exact (fun t => t) | | by eapply recur_step].
    intros deeper Hdeep. apply wp_bind.
    eapply wp_mono; [exact (fun t => t) | | apply IH].
    intros rest Hrest. simpl. by apply Forall_app.
  - intros [Hsz Hcur]. apply cell_raises in El. apply El.
    apply inGrid_true in Hgrid. lia.
Qed.

Lemma kingCapture_chains mp mr mc dr dc :
  cell board mr mc = Ok (Some mp) ->
  wp (~ inRows board rules cur) (Forall (chainOf board piece vis))
     (kingCapture board piece rules recur ty vis mp mr mc dr dc).
Proof using Hrec Hinv Hk.
  intros Hcell. unfold kingCapture.
  destruct (isEnemy piece mp); simpl; [|constructor].
  destruct (visited vis mr mc) eqn:Hvis; simpl; [constructor|].
  destruct (inGrid rules _ _) eqn:Hgrid; [|constructor].
  read_cell El; [constructor | | ].
  - destruct (kingStopsAfterCapture rules).
    + apply wp_bind. by eapply recur_step.
    + by eapply kingLandings_chains.
  - intros [Hsz Hcur]. apply cell_raises in El. apply El.
    apply inGrid_true in Hgrid. lia.
Qed.

Lemma kingScan_chains n d dr dc :
  wp (~ inRows board rules cur) (Forall (chainOf board piece vis))
     (kingScan board piece rules recur cur ty vis n d dr dc).
Proof using Hrec Hinv Hk.
  revert d. induction n as [|n IH]; intros d; simpl; [constructor|].
  destruct (inGrid rules _ _) eqn:Hgrid; simpl; [|constructor].
  read_cell Em; [ | apply IH | ].
  - by apply kingCapture_chains.
  - intros [Hsz Hcur]. apply cell_raises in Em. apply Em.
    apply inGrid_true in Hgrid. lia.
Qed.

Lemma jumpsInDir_chains d :
  -1 <= fst d <= 1 ->
  wp (~ inRows board rules cur) (Forall (chainOf board piece vis))
     (jumpsInDir board piece rules recur cur ty vis d).
Proof using Hrec Hinv Hk.
  intros Hd. unfold jumpsInDir. destruct (bool_decide (ty = PAWN)).
  - by apply pawnJump_chains.
  - destruct (kingLongRange rules).
    + apply kingScan_chains.
    + by apply kingShortJump_chains.
Qed.
End Body.

Lemma dirs_unit d : d ∈ dirs piece rules -> -1 <= fst d <= 1.
Proof.
  unfold dirs. destruct (isOrthogonal rules); [|destruct (frisianCapturing rules)];
    rewrite ?elem_of_cons, elem_of_nil; intros H;
    repeat (destruct H as [->|H]); try contradiction; simpl; try lia.
  destruct (bool_decide _); lia.
Qed.

(** [findJumps] with enough budget for the captures still possible: the
    budget is not exhausted, a raise comes from a position off the rows
    of the board, and every move returned is a chain extending
    [vis]. *)
Lemma findJumps_chains fuel cur ty vis :
  distinctOccupied board vis ->
  (length (boardCells board) < fuel + length vis)%nat ->
  wp (~ inRows board rules cur) (Forall (chainOf board piece vis))
     (findJumps board piece rules fuel cur ty vis).
Proof.
  revert cur ty vis. induction fuel as [|fuel IH]; intros cur ty vis Hinv Hk.
  - apply distinctOccupied_length in Hinv. simpl in Hk. lia.
  - simpl. apply wp_forEachPush. intros d Hd.
    eapply (jumpsInDir_chains _ cur ty vis fuel); eauto using dirs_unit.
Qed.
End Chains.

(** ** Step moves and the moves of one piece *)

Section Steps.
Variables (board : Board) (piece : Piece.t) (rules : VariantRules).

Lemma slideSteps_steps n d dr dc :
  wp (~ inRows board rules (Piece.position piece)) (Forall (stepOf piece))
     (slideSteps board piece rules n d dr dc).
Proof.
  revert d. induction n as [|n IH]; intros d; simpl; [constructor|].
  destruct (inGrid rules _ _) eqn:Hgrid; [|constructor].
  destruct (cell board _ _) as [[mp|]| |] eqn:E; simpl.
  - constructor.
  - apply wp_bind. eapply wp_mono; [exact (fun t => t) | | apply IH].
    intros rest Hrest. simpl. constructor; [by split | done].
  - intros [Hsz Hcur]. apply cell_raises in E. apply E.
    apply inGrid_true in Hgrid. lia.
  - by apply cell_fuel in E.
Qed.

Lemma stepsInDir_steps d :
  wp (~ inRows board rules (Piece.position piece)) (Forall (stepOf piece))
     (stepsInDir board piece rules d).
Proof.
  unfold stepsInDir. destruct (_ && _); [constructor|].
  destruct (_ && _); [apply slideSteps_steps|].
  destruct (inGrid rules _ _) eqn:Hgrid; [|constructor].
  destruct (cell board _ _) as [[mp|]| |] eqn:E; simpl.
  - constructor.
  - constructor; [by split | constructor].
  - intros [Hsz Hcur]. apply cell_raises in E. apply E.
    apply inGrid_true in Hgrid. lia.
  - by apply cell_fuel in E.
Qed.

Lemma getPieceMoves_moves :
  wp (~ inRows board rules (Piece.position piece))
     (fun found => Forall (chainOf board piece []) (fst found)
                   /\ Forall (stepOf piece) (snd found))
     (getPieceMoves board piece rules).
Proof.
  unfold getPieceMoves. apply wp_bind.
  eapply wp_mono; [exact (fun t => t) | | apply findJumps_chains].
  - intros jumps Hj. apply wp_bind.
    eapply wp_mono; [exact (fun t => t) | | apply wp_forEachPush].
    + intros steps Hs. by split.
    + intros d _. apply stepsInDir_steps.
  - split; constructor.
  - unfold chainBudget. simpl. lia.
Qed.
End Steps.

(** ** The scan of the board *)

Lemma elem_of_range n x : x ∈ range n <-> 0 <= x < n.
Proof.
  unfold range. rewrite list_elem_of_fmap. split.
  - intros (i & -> & Hi). apply elem_of_seq in Hi. lia.
  - intros H. exists (Z.to_nat x). split; [lia|]. apply elem_of_seq. lia.
Qed.

Lemma chainOf_captureMove rules board piece r c m :
  cell board r c = Ok (Some piece) ->
  chainOf board piece [] m -> captureMove rules board m.
Proof.
  intros Hcell [Hfrom (ext & Hc & Hne & Hd)]. split; [by exists ext|].
  intros [Hlen Hpos]. rewrite Hfrom, (Hpos _ _ _ Hcell). simpl.
  destruct (Z.le_gt_cases 0 r) as [H0|H0], (Z.lt_ge_cases r (Z.of_nat (length board))) as [H1|H1];
    try lia; exfalso;
    assert (cell board r c = TypeError) as E by (apply cell_raises; lia); congruence.
Qed.

Lemma collectMoves_moves board player rules :
  wp (~ wellFormed rules board)
     (fun found => Forall (captureMove rules board) (fst found)
                   /\ Forall stepMove (snd found))
     (collectMoves board player rules).
Proof.
  unfold collectMoves. apply wp_forLoop; [split; constructor|].
  intros acc r Hr Hacc. apply wp_forLoop; [exact Hacc|].
  clear acc Hacc. intros acc c Hc [Hj Hs].
  apply elem_of_range in Hr.
  destruct (cell board r c) as [[piece|]| |] eqn:E; simpl.
  - destruct (bool_decide _); [|by split].
    apply wp_bind.
    eapply wp_mono; [ | | apply getPieceMoves_moves ].
    + intros Hn [Hlen Hpos]. apply Hn. rewrite (Hpos _ _ _ E). split; simpl; lia.
    + intros [jumps steps] [Hj' Hs']. simpl in *. split; apply Forall_app; split; try done.
      * eapply Forall_impl; [exact Hj'|]. intros m. by eapply chainOf_captureMove.
      * eapply Forall_impl; [exact Hs'|]. by intros m [_ ?].
  - by split.
  - intros [Hlen _]. apply cell_raises in E. lia.
  - by apply cell_fuel in E.
Qed.

(** ** The capture filters *)

Lemma filter_ext_elem {A} (P Q : A -> Prop) `{!forall x, Decision (P x)}
    `{!forall x, Decision (Q x)} (l : list A) :
  (forall x, x ∈ l -> P x <-> Q x) -> filter P l = filter Q l.
Proof.
  induction l as [|x l IH]; intros HPQ; [done|].
  rewrite !filter_cons. rewrite IH by (intros; apply HPQ; by right).
  destruct (decide (P x)) as [HP|HP], (decide (Q x)) as [HQ|HQ]; try done;
    exfalso; pose proof (HPQ x ltac:(left)); tauto.
Qed.

Lemma Forall_filter_keep {A} (R : A -> Prop) (P : A -> Prop) `{!forall x, Decision (P x)}
    (l : list A) :
  Forall R l -> Forall R (filter P l).
Proof.
  rewrite !Forall_forall. intros HR x Hx. apply list_elem_of_filter in Hx as [_ Hx]. by apply HR.
Qed.

Lemma length_filter_existsb {A} (q : A -> bool) (l : list A) :
  (0 <? length (filter (fun x => q x) l))%nat = existsb q l.
Proof.
  induction l as [|x l IH]; [done|]. simpl. destruct (q x) eqn:E.
  - rewrite filter_cons_True by (by rewrite E). done.
  - rewrite filter_cons_False by (rewrite E; simpl; tauto). done.
Qed.

Lemma fold_max_Fin (l : list Z) (acc : Z) :
  exists z, fold_left (fun a x => Nmax a (Fin x)) l (Fin acc) = Fin z
            /\ (z = acc \/ z ∈ l) /\ acc <= z /\ forall x, x ∈ l -> x <= z.
Proof.
  revert acc. induction l as [|y l IH]; intros acc; simpl.
  - exists acc. repeat split; [by left | lia | by intros x Hx%elem_of_nil].
  - unfold Nmax at 2. simpl. destruct (Z.leb_spec acc y) as [Hle|Hgt].
    + destruct (IH y) as (z & Hz & Hin & Hge & Hall). exists z.
      split; [done|]. split; [right; destruct Hin as [->|]; [left | by right]|].
      split; [lia|]. intros x [->|Hx]%elem_of_cons; [lia | by apply Hall].
    + destruct (IH acc) as (z & Hz & Hin & Hge & Hall). exists z.
      split; [done|]. split; [destruct Hin; [by left | right; by right]|].
      split; [lia|]. intros x [->|Hx]%elem_of_cons; [lia | by apply Hall].
Qed.

(** [Math.max] of a non-empty list is its greatest element. *)
Lemma Math_max_greatest (l : list Z) :
  l <> [] -> exists z, Math_max l = Fin z /\ z ∈ l /\ forall x, x ∈ l -> x <= z.
Proof.
  destruct l as [|y l]; [done|]. intros _. unfold Math_max. simpl.
  destruct (fold_max_Fin l y) as (z & Hz & Hin & Hge & Hall).
  exists z. split; [exact Hz|]. split.
  - destruct Hin as [->|]; [left | by right].
  - intros x [->|Hx]%elem_of_cons; [lia | by apply Hall].
Qed.

(** Keeping the moves whose measure equals [Math.max] of the measures is
    keeping those that no candidate beats. *)
Lemma filter_Math_max (f : Move.t -> Z) (l : list Move.t) :
  filter (fun m => bool_decide (Fin (f m) = Math_max (map f l))) l = tiedForMax f l.
Proof.
  unfold tiedForMax. apply filter_ext_elem. intros m Hm.
  destruct (Math_max_greatest (map f l)) as (z & Hz & Hin & Hall).
  { destruct l; [by apply elem_of_nil in Hm | done]. }
  rewrite Hz. rewrite bool_decide_spec, forallb_True, Forall_forall. split.
  - intros [= ->] m' Hm'. apply Is_true_true, Z.leb_le, Hall.
    apply list_elem_of_fmap. by exists m'.
  - intros Hge. f_equal. apply list_elem_of_fmap in Hin as (m' & -> & Hm').
    apply Z.le_antisymm.
    + apply Hall, list_elem_of_fmap. by exists m.
    + apply Z.leb_le, Is_true_true. by apply Hge.
Qed.

Lemma tiedForMax_nonempty (f : Move.t -> Z) (l : list Move.t) :
  l <> [] -> tiedForMax f l <> [].
Proof.
  intros Hne. destruct (Math_max_greatest (map f l)) as (z & Hz & Hin & Hall).
  { by destruct l. }
  apply list_elem_of_fmap in Hin as (m & -> & Hm).
  assert (m ∈ tiedForMax f l) as Hin; [|by intros E; rewrite E in Hin; apply elem_of_nil in Hin].
  unfold tiedForMax. apply list_elem_of_filter. split; [|done].
  apply forallb_True, Forall_forall. intros m' Hm'.
  apply Is_true_true, Z.leb_le, Hall, list_elem_of_fmap. by exists m'.
Qed.

Lemma kingAt_fromKing rules board m :
  captureMove rules board m ->
  wp (~ wellFormed rules board) (fun b => b = fromKing board m) (kingAt board (Move.from m)).
Proof.
  intros [_ Hfrom]. unfold kingAt, fromKing.
  destruct (cell board _ _) as [p| |] eqn:E; simpl.
  - by rewrite (cell_pieceAt _ _ _ _ E).
  - intros Hwf. apply cell_raises in E. by apply E, Hfrom.
  - by apply cell_fuel in E.
Qed.

Lemma getKingCount_kingsCaptured rules board m :
  captureMove rules board m ->
  wp (~ wellFormed rules board) (fun k => k = kingsCaptured board m) (getKingCount board m).
Proof.
  intros [(cs & Hcs & _ & _ & Hocc) _]. unfold getKingCount, kingsCaptured, capturedCells.
  rewrite Hcs. simpl. apply wp_bind.
  eapply wp_mono; [exact (fun t => t) | | apply wp_filterR
    with (q := fun cp => isKing (pieceAt board (Pos.r cp) (Pos.c cp)))].
  - by intros ks ->.
  - intros cp Hcp. rewrite Forall_forall in Hocc. destruct (Hocc cp Hcp) as [p Hp].
    unfold kingAt. rewrite Hp. simpl. by rewrite (cell_pieceAt _ _ _ _ Hp).
Qed.

Lemma kingPriorityFilter_stage rules board jumpMoves :
  kingCapturePriority rules = true ->
  Forall (captureMove rules board) jumpMoves ->
  wp (~ wellFormed rules board)
     (fun filtered => filtered = kingPriorityStage rules board jumpMoves)
     (kingPriorityFilter board jumpMoves).
Proof.
  intros Hprio Hall. unfold kingPriorityFilter, kingPriorityStage. rewrite Hprio. simpl.
  apply wp_bind.
  eapply wp_mono; [exact (fun t => t) | | apply wp_filterR with (q := fromKing board)].
  - intros ks ->. simpl. by rewrite length_filter_existsb.
  - intros m Hm. rewrite Forall_forall in Hall. by apply kingAt_fromKing, Hall.
Qed.

Lemma qualityFilter_stage rules board filtered :
  qualityCaptureRequired rules = true ->
  Forall (captureMove rules board) filtered ->
  wp (~ wellFormed rules board)
     (fun filtered' => filtered' = qualityStage rules board filtered)
     (qualityFilter board filtered).
Proof.
  intros Hq Hall. unfold qualityFilter, qualityStage. rewrite Hq.
  rewrite Forall_forall in Hall. apply wp_bind.
  eapply wp_mono; [exact (fun t => t) | | apply wp_mapR with (g := kingsCaptured board)].
  - intros counts ->. rewrite <- filter_Math_max.
    apply wp_filterR
      with (q := fun m => bool_decide (Fin (kingsCaptured board m)
                                       = Math_max (map (kingsCaptured board) filtered))).
    intros m Hm. apply wp_bind.
    eapply wp_mono; [exact (fun t => t) | | by apply (getKingCount_kingsCaptured rules), Hall].
    by intros k ->.
  - intros m Hm. by apply (getKingCount_kingsCaptured rules), Hall.
Qed.

Lemma kingPriorityStage_keeps rules board (R : Move.t -> Prop) l :
  Forall R l -> Forall R (kingPriorityStage rules board l).
Proof.
  intros H. unfold kingPriorityStage. destruct (_ && _); [|done].
  by apply Forall_filter_keep.
Qed.

Lemma majorityStage_keeps rules (R : Move.t -> Prop) l :
  Forall R l -> Forall R (majorityStage rules l).
Proof.
  intros H. unfold majorityStage, tiedForMax. destruct (majorityCaptureRequired rules); [|done].
  by apply Forall_filter_keep.
Qed.

Lemma qualityStage_keeps rules board (R : Move.t -> Prop) l :
  Forall R l -> Forall R (qualityStage rules board l).
Proof.
  intros H. unfold qualityStage, tiedForMax. destruct (qualityCaptureRequired rules); [|done].
  by apply Forall_filter_keep.
Qed.

Lemma captureFilters_keeps rules board (R : Move.t -> Prop) l :
  Forall R l -> Forall R (captureFilters rules board l).
Proof.
  intros H. by apply qualityStage_keeps, majorityStage_keeps, kingPriorityStage_keeps.
Qed.

Lemma captureFilters_nonempty rules board l :
  l <> [] -> captureFilters rules board l <> [].
Proof.
  intros H. unfold captureFilters, qualityStage, majorityStage.
  assert (kingPriorityStage rules board l <> []) as H1.
  { unfold kingPriorityStage. destruct (kingCapturePriority rules); simpl; [|done].
    rewrite <- length_filter_existsb.
    destruct (filter _ l) eqn:E; simpl; done. }
  destruct (majorityCaptureRequired rules), (qualityCaptureRequired rules);
    auto using tiedForMax_nonempty.
Qed.

(** ** [getValidMoves] *)

(** The budget of [findJumps] is never exhausted; a raise comes from a
    board that is not well formed; and the value is the scan's step moves
    when it finds no capture, the filtered captures otherwise. *)
Lemma getValidMoves_validMoves board player variant :
  wp (~ wellFormed (getVariantRules variant) board)
     (validMoves (getVariantRules variant) board player)
     (getValidMoves board player variant).
Proof.
  unfold getValidMoves. set (rules := getVariantRules variant).
  pose proof (collectMoves_moves board player rules) as Hscan.
  destruct (collectMoves board player rules) as [[jumps steps]| |] eqn:E; simpl in *;
    [|done..].
  destruct Hscan as [Hj Hs]. destruct jumps as [|j jumps]; simpl.
  { exists [], steps. by repeat split. }
  set (js := j :: jumps) in *.
  assert (wp (~ wellFormed rules board)
             (fun filtered => filtered = kingPriorityStage rules board js)
             (if kingCapturePriority rules then kingPriorityFilter board js else Ok js)) as H1.
  { destruct (kingCapturePriority rules) eqn:Hp.
    - by apply kingPriorityFilter_stage.
    - unfold kingPriorityStage. by rewrite Hp. }
  apply wp_bind. eapply wp_mono; [exact (fun t => t) | | exact H1].
  intros filtered ->. apply wp_bind.
  assert ((if majorityCaptureRequired rules
           then majorityFilter (kingPriorityStage rules board js)
           else kingPriorityStage rules board js)
          = majorityStage rules (kingPriorityStage rules board js)) as ->.
  { unfold majorityStage, majorityFilter. destruct (majorityCaptureRequired rules); [|done].
    apply filter_Math_max. }
  assert (wp (~ wellFormed rules board)
             (fun filtered => filtered = captureFilters rules board js)
             (if qualityCaptureRequired rules
              then qualityFilter board (majorityStage rules (kingPriorityStage rules board js))
              else Ok (majorityStage rules (kingPriorityStage rules board js)))) as H2.
  { destruct (qualityCaptureRequired rules) eqn:Hq.
    - apply qualityFilter_stage; [done|].
      by apply majorityStage_keeps, kingPriorityStage_keeps.
    - unfold captureFilters, qualityStage. by rewrite Hq. }
  eapply wp_mono; [exact (fun t => t) | | exact H2].
  intros filtered ->. simpl. exists js, steps. by repeat split.
Qed.

Lemma wp_unless {A} (P : Prop) (Q : A -> Prop) (x : result A) :
  wp (~ P) Q x -> P -> exists a, x = Ok a /\ Q a.
Proof. destruct x; simpl; intros H HP; [eauto | contradiction | contradiction]. Qed.

(** [getValidMoves] never exhausts the budget of [findJumps]. *)
Lemma getValidMoves_fuel board player variant :
  getValidMoves board player variant <> OutOfFuel.
Proof. eapply wp_fuel, getValidMoves_validMoves. Qed.

(** On a well-formed board [getValidMoves] returns a list of moves. *)
Lemma getValidMoves_total board player variant :
  wellFormed (getVariantRules variant) board ->
  exists moves, getValidMoves board player variant = Ok moves.
Proof.
  intros Hwf. destruct (wp_unless _ _ _ (getValidMoves_validMoves board player variant) Hwf)
    as (moves & E & _). eauto.
Qed.

Lemma captureMove_count rules board m : captureMove rules board m -> 0 < captureCount m.
Proof.
  intros [(cs & Hcs & Hne & _) _]. unfold captureCount. rewrite Hcs.
  destruct cs; [done | simpl; lia].
Qed.

Lemma captureMove_NoDup rules board m : captureMove rules board m -> NoDup (capturedCells m).
Proof. intros [(cs & Hcs & _ & Hnd & _) _]. unfold capturedCells. by rewrite Hcs. Qed.

Lemma stepMove_NoDup m : stepMove m -> NoDup (capturedCells m).
Proof. unfold stepMove, capturedCells. intros ->. constructor. Qed.

(** C1.  When the scan of the board finds a capture chain for some piece of
    the side to move, every move returned is one of the chains, with a
    non-empty capture list, and none is a step move; when it finds none, the
    step moves are returned as they are. *)
Theorem getValidMoves_forced_capture board player variant jumpMoves stepMoves moves :
  collectMoves board player (getVariantRules variant) = Ok (jumpMoves, stepMoves) ->
  getValidMoves board player variant = Ok moves ->
  (jumpMoves <> [] ->
     moves <> []
     /\ forall m, m ∈ moves -> m ∈ jumpMoves /\ 0 < captureCount m /\ m ∉ stepMoves)
  /\ (jumpMoves = [] -> moves = stepMoves).
Proof.
  intros Hscan Hres.
  pose proof (getValidMoves_validMoves board player variant) as H.
  rewrite Hres in H. destruct H as (js & ss & Hscan' & Hj & Hs & Hcap & Hstep).
  rewrite Hscan in Hscan'. injection Hscan' as <- <-. split; [|exact Hstep].
  intros Hne. rewrite (Hcap Hne). split; [by apply captureFilters_nonempty|].
  intros m Hm.
  assert (Forall (fun m => m ∈ jumpMoves /\ captureMove (getVariantRules variant) board m)
                 (captureFilters (getVariantRules variant) board jumpMoves)) as Hall.
  { apply captureFilters_keeps. rewrite Forall_forall in Hj. apply Forall_forall.
    intros x Hx. split; [done | by apply Hj]. }
  rewrite Forall_forall in Hall. destruct (Hall m Hm) as [Hin Hc].
  split; [done|]. split; [by eapply captureMove_count|].
  intros Hin'. rewrite Forall_forall in Hs. specialize (Hs m Hin'). unfold stepMove in Hs.
  destruct Hc as [(cs & Hcs & _) _]. congruence.
Qed.

Lemma getValidMoves_forced_capture_witness :
  ([skirmishJump] <> [] ->
     [skirmishJump] <> []
     /\ forall m, m ∈ [skirmishJump] ->
          m ∈ [skirmishJump] /\ 0 < captureCount m /\ m ∉ [skirmishStep])
  /\ ([skirmishJump] = [] -> [skirmishJump] = [skirmishStep]).
Proof.
  apply (getValidMoves_forced_capture skirmishBoard RED ENGLISH
           [skirmishJump] [skirmishStep] [skirmishJump]);
    vm_compute; reflexivity.
Defined.

(** C2.  When the scan finds capture chains, [getValidMoves] returns them
    filtered by, in this order, king priority, majority and quality, each
    stage applied only if the rule-set asks for it. *)
Theorem getValidMoves_capture_filters board player variant jumpMoves stepMoves moves :
  collectMoves board player (getVariantRules variant) = Ok (jumpMoves, stepMoves) ->
  jumpMoves <> [] ->
  getValidMoves board player variant = Ok moves ->
  moves = qualityStage (getVariantRules variant) board
            (majorityStage (getVariantRules variant)
               (kingPriorityStage (getVariantRules variant) board jumpMoves)).
Proof.
  intros Hscan Hne Hres.
  pose proof (getValidMoves_validMoves board player variant) as H.
  rewrite Hres in H. destruct H as (js & ss & Hscan' & _ & _ & Hcap & _).
  rewrite Hscan in Hscan'. injection Hscan' as <- <-. by apply Hcap.
Qed.

Lemma getValidMoves_capture_filters_witness :
  [priorityBest]
  = qualityStage (getVariantRules ITALIAN) priorityBoard
      (majorityStage (getVariantRules ITALIAN)
         (kingPriorityStage (getVariantRules ITALIAN) priorityBoard priorityChains)).
Proof.
  apply (getValidMoves_capture_filters priorityBoard RED ITALIAN
           priorityChains prioritySteps [priorityBest]);
    [vm_compute; reflexivity | discriminate | vm_compute; reflexivity].
Defined.

(** On [priorityBoard] every stage acts: king priority drops the chain of
    the man, majority the chain of one capture, quality the chain that
    takes two men. *)
Example priorityBoard_stages :
  let rules := getVariantRules ITALIAN in
  kingPriorityStage rules priorityBoard priorityChains
  = [Move.mk (Pos.mk 4 3) (Pos.mk 6 1) (Some [Pos.mk 5 2]); priorityBest;
     Move.mk (Pos.mk 4 3) (Pos.mk 0 3) (Some [Pos.mk 3 2; Pos.mk 1 2])]
  /\ majorityStage rules (kingPriorityStage rules priorityBoard priorityChains)
     = [priorityBest; Move.mk (Pos.mk 4 3) (Pos.mk 0 3) (Some [Pos.mk 3 2; Pos.mk 1 2])]
  /\ qualityStage rules priorityBoard
       (majorityStage rules (kingPriorityStage rules priorityBoard priorityChains))
     = [priorityBest].
Proof. vm_compute. by repeat split. Qed.

(** The opening position of English draughts: seven step moves for RED,
    no capture. *)
Example getValidMoves_opening :
  exists moves,
    getValidMoves (grid 8 (initialCell ENGLISH)) RED ENGLISH = Ok moves
    /\ length moves = 7%nat /\ Forall stepMove moves.
Proof.
  eexists. split; [vm_compute; reflexivity|]. split; [reflexivity|].
  repeat constructor.
Qed.

(** Majority capture: of a chain of two captures and a chain of one, only
    the longer is returned. *)
Example getValidMoves_majority :
  getValidMoves majorityBoard RED INTERNATIONAL
  = Ok [Move.mk (Pos.mk 6 1) (Pos.mk 2 5) (Some [Pos.mk 5 2; Pos.mk 3 4])].
Proof. vm_compute. reflexivity. Qed.

(** Promotion in the middle of a chain: the second capture is made at a
    distance, and the king may land on either cell behind the piece it
    takes. *)
Example getValidMoves_promotion :
  getValidMoves promotionBoard RED RUSSIAN
  = Ok [Move.mk (Pos.mk 2 1) (Pos.mk 3 6) (Some [Pos.mk 1 2; Pos.mk 2 5]);
        Move.mk (Pos.mk 2 1) (Pos.mk 4 7) (Some [Pos.mk 1 2; Pos.mk 2 5])].
Proof. vm_compute. reflexivity. Qed.

(** C6.  No move returned by [getValidMoves] lists a captured cell
    twice. *)
Theorem getValidMoves_captures_distinct board player variant moves :
  getValidMoves board player variant = Ok moves ->
  forall m, m ∈ moves -> NoDup (capturedCells m).
Proof.
  intros Hres m Hm.
  pose proof (getValidMoves_validMoves board player variant) as H.
  rewrite Hres in H. destruct H as (js & ss & _ & Hj & Hs & Hcap & Hstep).
  destruct js as [|j js].
  - rewrite (Hstep eq_refl) in Hm. rewrite Forall_forall in Hs.
    by apply stepMove_NoDup, Hs.
  - rewrite (Hcap ltac:(done)) in Hm.
    pose proof (captureFilters_keeps (getVariantRules variant) board _ _ Hj) as Hall.
    rewrite Forall_forall in Hall. eapply captureMove_NoDup. by apply Hall.
Qed.

Lemma getValidMoves_captures_distinct_witness : NoDup (capturedCells priorityBest).
Proof.
  apply (getValidMoves_captures_distinct priorityBoard RED ITALIAN [priorityBest]).
  - vm_compute; reflexivity.
  - left.
Defined.

(** ** Directions of orthogonal variants *)

(** In an orthogonal variant the directions are left, right and forward
    for the owner of the piece, whatever its rank: none points backward. *)
Lemma dirs_orthogonal piece rules :
  isOrthogonal rules = true ->
  dirs piece rules
  = [(0, 1); (0, -1); ((if bool_decide (Piece.player piece = RED) then -1 else 1), 0)]
  /\ forall d, d ∈ dirs piece rules -> isBack piece (fst d) = false.
Proof.
  intros H. unfold dirs, isBack. rewrite H. split; [done|].
  intros d. rewrite !elem_of_cons, elem_of_nil.
  intros [->|[->|[->|[]]]]; simpl; destruct (bool_decide _); done.
Qed.

(** C4 (failing input).  Turkish draughts, a red king alone at (3, 3):
    the cell behind it, (4, 3), is on the board and empty, and no move
    returned goes backward. *)
Theorem orthogonal_king_cannot_retreat :
  isOrthogonal (getVariantRules TURKISH) = true
  /\ isKing (pieceAt loneKingBoard 3 3) = true
  /\ pieceAt loneKingBoard 4 3 = None
  /\ inGrid (getVariantRules TURKISH) 4 3 = true
  /\ exists moves,
       getValidMoves loneKingBoard RED TURKISH = Ok moves
       /\ length moves = 10%nat
       /\ Forall (fun m => Pos.r (Move.to m) <= 3) moves.
Proof.
  repeat split; try (vm_compute; reflexivity).
  eexists. split; [vm_compute; reflexivity|]. split; [reflexivity|].
  repeat constructor; simpl; lia.
Qed.

(** ** Evaluation *)

Lemma sumZ_app f xs ys : sumZ f (xs ++ ys) = sumZ f xs + sumZ f ys.
Proof. unfold sumZ. induction xs as [|x xs IH]; simpl; [done | rewrite IH; lia]. Qed.

Lemma sumZ_ext f g xs : (forall x, x ∈ xs -> f x = g x) -> sumZ f xs = sumZ g xs.
Proof.
  unfold sumZ. induction xs as [|x xs IH]; intros H; simpl; [done|].
  rewrite H by left. rewrite IH; [done|]. intros; apply H; by right.
Qed.

Lemma sumZ_opp f xs : sumZ (fun x => - f x) xs = - sumZ f xs.
Proof. unfold sumZ. induction xs as [|x xs IH]; simpl; [done | rewrite IH; lia]. Qed.

Lemma tallyCell_score size board r acc c te :
  (~ (0 <= r < Z.of_nat (length board)) -> te) ->
  wp te (fun t => tallyScore t = tallyScore acc + cellScore size r c (pieceAt board r c))
     (tallyCell size board r acc c).
Proof.
  intros Hte. unfold tallyCell, pieceAt.
  destruct (cell board r c) as [[p|]| |] eqn:E; simpl.
  - unfold tallyScore. destruct (bool_decide _); simpl; lia.
  - lia.
  - by apply Hte, (cell_raises board r c).
  - by apply cell_fuel in E.
Qed.

Lemma tallyRow_score size board r cs acc te :
  (~ (0 <= r < Z.of_nat (length board)) -> te) ->
  wp te (fun t => tallyScore t
                  = tallyScore acc + sumZ (fun c => cellScore size r c (pieceAt board r c)) cs)
     (forLoop (tallyCell size board r) cs acc).
Proof.
  intros Hte. revert acc. induction cs as [|c cs IH]; intros acc; simpl; [lia|].
  apply wp_bind. eapply wp_mono; [exact (fun t => t) | | by apply tallyCell_score].
  intros t Ht. eapply wp_mono; [exact (fun t => t) | | apply IH].
  intros t' Ht'. simpl in *. lia.
Qed.

Lemma tallyBoard_score size board cs rs acc te :
  (forall r, r ∈ rs -> ~ (0 <= r < Z.of_nat (length board)) -> te) ->
  wp te (fun t => tallyScore t
                  = tallyScore acc
                    + sumZ (fun r => sumZ (fun c => cellScore size r c (pieceAt board r c)) cs) rs)
     (forLoop (fun acc r => forLoop (tallyCell size board r) cs acc) rs acc).
Proof.
  revert acc. induction rs as [|r rs IH]; intros acc Hte; simpl; [lia|].
  apply wp_bind.
  eapply wp_mono; [exact (fun t => t) | | apply tallyRow_score, Hte; left].
  intros t Ht. eapply wp_mono; [exact (fun t => t) | | apply IH].
  - intros t' Ht'. simpl in *. lia.
  - intros r' Hr'. apply Hte. by right.
Qed.

(** [evaluateBoard] is the sum of the cell scores, negated for a losing
    goal; it raises only when the board lacks a row. *)
Lemma evaluateBoard_total board variant :
  let rules := getVariantRules variant in
  wp (~ (boardSize rules <= Z.of_nat (length board)))
     (fun s => s = if isLosingGoal rules
                   then - boardTotal (boardSize rules) board
                   else boardTotal (boardSize rules) board)
     (evaluateBoard board variant).
Proof.
  intros rules. unfold evaluateBoard. fold rules. apply wp_bind.
  eapply wp_mono; [exact (fun t => t) | | apply tallyBoard_score].
  - intros t Ht. simpl. fold (tallyScore t). rewrite Ht. unfold tallyScore, boardTotal. simpl.
    destruct (isLosingGoal rules); f_equal; lia.
  - intros r Hr%elem_of_range Hn Hsz. lia.
Qed.

Lemma evaluateBoard_fuel board variant : evaluateBoard board variant <> OutOfFuel.
Proof. eapply wp_fuel, evaluateBoard_total. Qed.

(** *** Grids *)

Lemma map_fmap {A B} (f : A -> B) (l : list A) : map f l = f <$> l.
Proof. reflexivity. Qed.

Lemma range_lookup n i : (i < Z.to_nat n)%nat -> range n !! i = Some (Z.of_nat i).
Proof.
  intros H. unfold range. rewrite map_fmap, list_lookup_fmap, lookup_seq_lt by done. done.
Qed.

Lemma length_range n : length (range n) = Z.to_nat n.
Proof. unfold range. by rewrite length_map, length_seq. Qed.

Lemma length_grid n f : length (grid n f) = Z.to_nat n.
Proof. unfold grid. by rewrite length_map, length_range. Qed.

Lemma pieceAt_grid n f r c :
  0 <= r < n -> 0 <= c < n -> pieceAt (grid n f) r c = f r c.
Proof.
  intros Hr Hc. unfold pieceAt, cell, grid.
  destruct (Z.ltb_spec r 0); [lia|].
  rewrite map_fmap, list_lookup_fmap, range_lookup by lia. simpl.
  destruct (Z.ltb_spec c 0); [lia|].
  rewrite map_fmap, list_lookup_fmap, range_lookup by lia. simpl.
  by rewrite !Z2Nat.id by lia.
Qed.

(** *** The mirror on 8-wide boards *)

Lemma cellScore_swapSide r c p :
  0 <= r <= 7 -> 0 <= c <= 7 ->
  cellScore 8 (7 - r) (7 - c) (swapSide (7 - r) (7 - c) <$> p) = - cellScore 8 r c p.
Proof.
  intros Hr Hc. destruct p as [[i pl ty pos]|]; simpl; [|done].
  unfold cellScore, pieceValue, swapSide, opponent. simpl.
  rewrite !(Z.min_l _ 7) by lia.
  replace (7 - (7 - r)) with r by lia. replace (7 - (7 - c)) with c by lia.
  destruct pl, ty; simpl;
    repeat match goal with
           | |- context [?a =? ?b] => destruct (Z.eqb_spec a b)
           end; lia.
Qed.

Lemma sumZ_flip8 (g : Z -> Z -> Z) :
  sumZ (fun r => sumZ (fun c => - g (7 - r) (7 - c)) (range 8)) (range 8)
  = - sumZ (fun r => sumZ (fun c => g r c) (range 8)) (range 8).
Proof.
  change (range 8) with [0; 1; 2; 3; 4; 5; 6; 7]. unfold sumZ. simpl.
  change (7 - 0) with 7. change (7 - 1) with 6. change (7 - 2) with 5.
  change (7 - 3) with 4. change (7 - 4) with 3. change (7 - 5) with 2.
  change (7 - 6) with 1. change (7 - 7) with 0. lia.
Qed.

Lemma boardTotal_mirror variant board :
  boardSize (getVariantRules variant) = 8 ->
  boardTotal 8 (sideSwappedMirror variant board) = - boardTotal 8 board.
Proof.
  intros Hsz. unfold boardTotal, sideSwappedMirror. rewrite Hsz.
  transitivity
    (sumZ (fun r => sumZ (fun c => - cellScore 8 (7 - r) (7 - c)
                                       (pieceAt board (7 - r) (7 - c))) (range 8)) (range 8)).
  - apply sumZ_ext. intros r Hr%elem_of_range. apply sumZ_ext. intros c Hc%elem_of_range.
    rewrite pieceAt_grid by lia.
    replace (8 - 1 - r) with (7 - r) by lia. replace (8 - 1 - c) with (7 - c) by lia.
    pose proof (cellScore_swapSide (7 - r) (7 - c) (pieceAt board (7 - r) (7 - c))
                  ltac:(lia) ltac:(lia)) as H.
    replace (7 - (7 - r)) with r in H by lia. replace (7 - (7 - c)) with c in H by lia.
    exact H.
  - apply (sumZ_flip8 (fun r c => cellScore 8 r c (pieceAt board r c))).
Qed.

(** Where the board is 8 wide, and the goal is not to lose, the score of
    the side-swapped mirror of a board is the negation of the score of the
    board: the constant 7 of the advancement bonus and of the reads of the
    square table is then [size - 1]. *)
Lemma evaluateBoard_mirror variant board s :
  isLosingGoal (getVariantRules variant) = false ->
  boardSize (getVariantRules variant) = 8 ->
  evaluateBoard board variant = Ok s ->
  evaluateBoard (sideSwappedMirror variant board) variant = Ok (- s).
Proof.
  intros Hgoal Hsz Hs.
  pose proof (evaluateBoard_total board variant) as H. rewrite Hs in H. simpl in H.
  rewrite Hgoal, Hsz in H. subst s.
  pose proof (evaluateBoard_total (sideSwappedMirror variant board) variant) as H'.
  simpl in H'. rewrite Hgoal, Hsz in H'.
  destruct (evaluateBoard (sideSwappedMirror variant board) variant) as [s'| |]; simpl in H'.
  - subst s'. f_equal. by apply boardTotal_mirror.
  - exfalso. apply H'. unfold sideSwappedMirror. rewrite length_grid, Hsz. lia.
  - done.
Qed.

Lemma evaluateBoard_mirror_witness :
  evaluateBoard (sideSwappedMirror ENGLISH skirmishBoard) ENGLISH = Ok (- (-5)).
Proof.
  apply (evaluateBoard_mirror ENGLISH skirmishBoard (-5)); vm_compute; reflexivity.
Defined.

(** C5.  The score of a board and the score of its side-swapped mirror are
    not negations of each other on a 10-wide board.  International
    draughts, one red man on its own back row at (9, 0): the man is worth
    1105 and its mirror image, a white man on its own back row at (0, 9),
    is worth 1165, because the advancement of a red man is [7 - r], counted
    from row 7 whatever the size of the board, and that of a white man is
    [r]; the scores are 1130 and -1190. *)
Theorem evaluateBoard_mirror_international :
  isLosingGoal (getVariantRules INTERNATIONAL) = false
  /\ pieceValue 10 9 0 (redPawn 9 0) = 1105
  /\ pieceValue 10 0 9 (swapSide 0 9 (redPawn 9 0)) = 1165
  /\ evaluateBoard lonePawnBoard INTERNATIONAL = Ok 1130
  /\ evaluateBoard (sideSwappedMirror INTERNATIONAL lonePawnBoard) INTERNATIONAL = Ok (- 1190)
  /\ ~ negatedScores INTERNATIONAL lonePawnBoard.
Proof.
  assert (evaluateBoard lonePawnBoard INTERNATIONAL = Ok 1130) as E1
    by (vm_compute; reflexivity).
  assert (evaluateBoard (sideSwappedMirror INTERNATIONAL lonePawnBoard) INTERNATIONAL
          = Ok (- 1190)) as E2 by (vm_compute; reflexivity).
  split; [done|]. split; [vm_compute; reflexivity|]. split; [vm_compute; reflexivity|].
  split; [done|]. split; [done|].
  intros (s & Hs & Hs'). rewrite E1 in Hs. rewrite E2 in Hs'.
  injection Hs as <-. discriminate.
Qed.

(** ** The search *)

#[local] Arguments Nleb : simpl never.
#[local] Arguments Nltb : simpl never.

Section KeepsRules.
Context {A B : Type}.
Variable I : SearchState -> Prop.

Lemma keeps_ret (a : A) : keeps I (sret a).
Proof. intros s Hs. by split. Qed.

Lemma keeps_bind (m : M A) (f : A -> M B) :
  keeps I m -> (forall a, keeps I (f a)) -> keeps I (sbind m f).
Proof.
  intros Hm Hf s Hs. unfold sbind. destruct (Hm s Hs) as [H1 H2].
  destruct (m s) as [s' [a| |]]; simpl in *; [by apply Hf | by split | done].
Qed.

Lemma keeps_liftR (x : result A) : x <> OutOfFuel -> keeps I (liftR x).
Proof. intros Hx s Hs. by split. Qed.
End KeepsRules.

Lemma keeps_tt_get I key : keeps I (tt_get key).
Proof. intros s Hs. by split. Qed.

Lemma setCell_fuel board r c v : setCell board r c v <> OutOfFuel.
Proof.
  unfold setCell. destruct (r <? 0); [done|]. by destruct (board !! Z.to_nat r).
Qed.

Lemma applyMove_fuel board move variant : applyMove board move variant <> OutOfFuel.
Proof.
  apply (wp_fuel True (fun _ => True)). unfold applyMove.
  apply wp_bind. eapply wp_mono; [exact (fun t => t) | | by apply wp_cell].
  intros [piece|] _; simpl; [|done].
  assert (forall b r c v, wp True (fun _ : Board => True) (setCell b r c v)) as Hset.
  { intros b r c v. pose proof (setCell_fuel b r c v). by destruct (setCell b r c v). }
  apply wp_bind. eapply wp_mono; [exact (fun t => t) | | apply Hset].
  intros b1 _. apply wp_bind. eapply wp_mono; [exact (fun t => t) | | apply Hset].
  intros b2 _. destruct (Move.captures move); [|done].
  apply wp_forLoop; [done|]. intros; apply Hset.
Qed.

Section SearchInvariant.
Variable I : list Frame -> SearchState -> Prop.
Variable variant : CheckersVariant.

(** [I stk] is what holds of the state while the stack is [stk]: it
    survives the entry of a frame whose call is in order, the return from
    it, and a store made while the table is below its bound. *)
Hypothesis Henter : forall stk f s,
  entryOk stk f -> I stk s -> I (f :: stk) (enter f s).
Hypothesis Hleave : forall stk f s, I (f :: stk) s -> I stk (leave s).
Hypothesis Hstore : forall stk key e s,
  I stk s -> tableSize s < STORE_BELOW -> I stk (fst (tt_set key e s)).

Lemma framed_keeps {A} stk f (body : M A) :
  entryOk stk f -> keeps (I (f :: stk)) body -> keeps (I stk) (framed f body).
Proof using Henter Hleave.
  intros Hok Hbody s Hs. unfold framed.
  destruct (Hbody (enter f s)) as [H1 H2]; [by apply Henter|].
  destruct (body (enter f s)) as [s' r]. simpl in *. split; [by eapply Hleave | done].
Qed.

Lemma quiesceMax_keeps stk recur board moves alpha beta :
  (forall child a b, keeps (I stk) (recur child a b)) ->
  keeps (I stk) (quiesceMax variant recur board moves alpha beta).
Proof.
  intros Hrec. revert alpha. induction moves as [|move rest IH]; intros alpha; simpl.
  - apply keeps_ret.
  - apply keeps_bind; [apply keeps_liftR, applyMove_fuel|]. intros child.
    apply keeps_bind; [apply Hrec|]. intros v.
    destruct (Nleb _ _); [apply keeps_ret | apply IH].
Qed.

Lemma quiesceMin_keeps stk recur board moves alpha beta :
  (forall child a b, keeps (I stk) (recur child a b)) ->
  keeps (I stk) (quiesceMin variant recur board moves alpha beta).
Proof.
  intros Hrec. revert beta. induction moves as [|move rest IH]; intros beta; simpl.
  - apply keeps_ret.
  - apply keeps_bind; [apply keeps_liftR, applyMove_fuel|]. intros child.
    apply keeps_bind; [apply Hrec|]. intros v.
    destruct (Nleb _ _); [apply keeps_ret | apply IH].
Qed.

(** [quiesce] stops within its budget: from depth [depth], [6 - depth]
    nested calls at most.  Entered with the flag set exactly for RED, it
    enters itself with [false] and WHITE from a frame of RED, with [true]
    and RED from a frame of WHITE. *)
Lemma quiesce_keeps stk fuel board alpha beta isMax player depth :
  isMax = bool_decide (player = RED) ->
  entryOk stk (InQuiesce isMax player) ->
  (0 < fuel)%nat -> 5 - depth < Z.of_nat fuel ->
  keeps (I stk) (quiesce variant fuel board alpha beta isMax player depth).
Proof using Henter Hleave.
  revert stk board alpha beta isMax player depth.
  induction fuel as [|fuel IH];
    intros stk board alpha beta isMax player depth Hside Hok Hpos Hfuel; [lia|].
  cbn [quiesce]. apply framed_keeps; [done|].
  apply keeps_bind; [apply keeps_liftR, evaluateBoard_fuel|]. intros standPat.
  destruct (Z.gtb_spec depth 4) as [Hd|Hd]; [apply keeps_ret|].
  destruct isMax.
  - destruct player; [|done]. destruct (Nleb beta (Fin standPat)); [apply keeps_ret|].
    apply keeps_bind; [apply keeps_liftR, getValidMoves_fuel|]. intros moves.
    apply quiesceMax_keeps. intros child a b. apply IH; [done | by split | lia | lia].
  - destruct player; [done|]. destruct (Nleb (Fin standPat) alpha); [apply keeps_ret|].
    apply keeps_bind; [apply keeps_liftR, getValidMoves_fuel|]. intros moves.
    apply quiesceMin_keeps. intros child a b. apply IH; [done | by split | lia | lia].
Qed.

Lemma searchMoves_keeps stk recur isMax player board ordered w :
  (forall child a b, keeps (I stk) (recur child a b)) ->
  keeps (I stk) (searchMoves variant recur isMax player board ordered w).
Proof.
  intros Hrec. revert w. induction ordered as [|move rest IH]; intros w; simpl.
  - apply keeps_ret.
  - apply keeps_bind; [apply keeps_liftR, applyMove_fuel|]. intros child.
    apply keeps_bind; [apply Hrec|]. intros score.
    destruct (Nleb _ _); [apply keeps_ret | apply IH].
Qed.

Lemma store_keeps {A} stk key e (a : A) :
  keeps (I stk) (sbind tt_size (fun n =>
             sbind (if n <? STORE_BELOW then tt_set key e else sret tt)
                   (fun _ => sret a))).
Proof using Hstore.
  intros s Hs. unfold sbind, tt_size. simpl.
  destruct (Z.ltb_spec (Z.of_nat (size (transpositionTable s))) STORE_BELOW); simpl.
  - split; [by apply Hstore | done].
  - by split.
Qed.

(** [alphaBeta], entered with the flag set exactly for RED, enters
    [quiesce] with its own flag and side, and itself with the flag negated
    and the other side. *)
Lemma alphaBeta_keeps stk depth board alpha beta isMax player :
  isMax = bool_decide (player = RED) ->
  entryOk stk (InAlphaBeta isMax player) ->
  keeps (I stk) (alphaBeta variant depth board alpha beta isMax player).
Proof using Henter Hleave Hstore.
  revert stk board alpha beta isMax player.
  induction depth as [|depth IH]; intros stk board alpha beta isMax player Hside Hok.
  - cbn [alphaBeta]. apply framed_keeps; [done|]. cbv zeta.
    apply keeps_bind; [apply keeps_tt_get|]. intros cached.
    destruct (probe _ _ _ _) as [score|[alpha' beta']]; [apply keeps_ret|].
    apply keeps_bind; [apply keeps_liftR, getValidMoves_fuel|]. intros moves.
    apply quiesce_keeps; [done | by split | unfold quiesceBudget; lia..].
  - cbn [alphaBeta]. apply framed_keeps; [done|]. cbv zeta.
    apply keeps_bind; [apply keeps_tt_get|]. intros cached.
    destruct (probe _ _ _ _) as [score|[alpha' beta']]; [apply keeps_ret|].
    apply keeps_bind; [apply keeps_liftR, getValidMoves_fuel|]. intros moves.
    destruct (length moves =? 0)%nat.
    + apply quiesce_keeps; [done | by split | unfold quiesceBudget; lia..].
    + apply keeps_bind.
      { apply searchMoves_keeps. intros child a b.
        assert (negb isMax
                = bool_decide ((if bool_decide (player = RED) then WHITE else RED) = RED))
          as Hnext by (subst isMax; by destruct player).
        apply IH; [exact Hnext | by split]. }
      intros w. apply store_keeps.
Qed.

Lemma pickBest_keeps gs depth moves bestMove bestScore :
  GameState.variant gs = variant ->
  keeps (I [InGetBestMove (GameState.turn gs)]) (pickBest gs depth moves bestMove bestScore).
Proof using Henter Hleave Hstore.
  intros Hv. revert bestMove bestScore.
  induction moves as [|move rest IH]; intros bestMove bestScore; simpl.
  - apply keeps_ret.
  - apply keeps_bind; [apply keeps_liftR, applyMove_fuel|]. intros child.
    apply keeps_bind.
    { rewrite Hv. apply alphaBeta_keeps; [|split; simpl]; by destruct (GameState.turn gs). }
    intros score. destruct (_ || _); apply IH.
Qed.

Lemma chooseMove_keeps gs :
  GameState.variant gs = variant -> keeps (I []) (chooseMove gs).
Proof using Henter Hleave Hstore.
  intros Hv. unfold chooseMove. apply framed_keeps; [done|]. cbv zeta.
  apply keeps_bind; [apply keeps_liftR, getValidMoves_fuel|]. intros [|first moves].
  - apply keeps_ret.
  - apply keeps_bind; [by apply pickBest_keeps|]. intros m. apply keeps_ret.
Qed.
End SearchInvariant.

(** Properties of the table alone survive the entry of a frame and the
    return from it. *)
Section TableInvariant.
Variable P : SearchState -> Prop.
Variable variant : CheckersVariant.
Hypothesis Henter : forall f s, P s -> P (enter f s).
Hypothesis Hleave : forall s, P s -> P (leave s).
Hypothesis Hstore : forall key e s,
  P s -> tableSize s < STORE_BELOW -> P (fst (tt_set key e s)).

Lemma framed_keeps_table {A} f (body : M A) : keeps P body -> keeps P (framed f body).
Proof using Henter Hleave.
  intros.
  by apply (framed_keeps (fun _ => P) (fun _ f s _ => Henter f s) (fun _ _ => Hleave) []).
Qed.

Lemma quiesce_keeps_table fuel board alpha beta isMax player depth :
  isMax = bool_decide (player = RED) ->
  (0 < fuel)%nat -> 5 - depth < Z.of_nat fuel ->
  keeps P (quiesce variant fuel board alpha beta isMax player depth).
Proof using Henter Hleave.
  intros.
  by apply (quiesce_keeps (fun _ => P) variant (fun _ f s _ => Henter f s) (fun _ _ => Hleave) []).
Qed.

Lemma alphaBeta_keeps_table depth board alpha beta isMax player :
  isMax = bool_decide (player = RED) ->
  keeps P (alphaBeta variant depth board alpha beta isMax player).
Proof using Henter Hleave Hstore.
  intros.
  by apply (alphaBeta_keeps (fun _ => P) variant (fun _ f s _ => Henter f s) (fun _ _ => Hleave)
              (fun _ => Hstore) []).
Qed.

Lemma chooseMove_keeps_table gs :
  GameState.variant gs = variant -> keeps P (chooseMove gs).
Proof using Henter Hleave Hstore.
  intros.
  by apply (chooseMove_keeps (fun _ => P) variant (fun _ f s _ => Henter f s) (fun _ _ => Hleave)
              (fun _ => Hstore)).
Qed.
End TableInvariant.

(** *** The call log *)

(** Every call recorded is in order, and the stack is [stk]. *)
Definition callsOk (stk : list Frame) (s : SearchState) : Prop :=
  Forall callOk (callLog s) /\ callStack s = stk.

Lemma callsOk_enter stk f s : entryOk stk f -> callsOk stk s -> callsOk (f :: stk) (enter f s).
Proof.
  intros Hok [Hlog Hstk]. split; simpl; [|by rewrite Hstk].
  rewrite Hstk. destruct stk as [|from stk']; [done|].
  apply Forall_app. split; [done|]. by constructor.
Qed.

Lemma callsOk_leave stk f s : callsOk (f :: stk) s -> callsOk stk (leave s).
Proof. intros [Hlog Hstk]. split; simpl; [done | by rewrite Hstk]. Qed.

(** C10.  Every call that a run of [getBestMove] makes into [alphaBeta] or
    [quiesce] sets the maximizing flag exactly when the side to move is
    RED; and every call that moves a piece, those of [quiesce] with their
    fixed WHITE and RED included, passes the opponent of the side of the
    calling frame.  The calls are those recorded when a function is
    entered: the flag and the side are the arguments it received, the
    calling frame is the one on top of the stack. *)
Theorem getBestMove_calls_red_maximizes (gs : GameState.t) (table : gmap string Entry.t) :
  Forall callOk
    (callLog (fst (getBestMove gs
                     {| transpositionTable := table; callLog := []; callStack := [] |}))).
Proof.
  assert (keeps (callsOk []) (chooseMove gs)) as Hk.
  { apply (chooseMove_keeps callsOk (GameState.variant gs));
      [apply callsOk_enter | apply callsOk_leave | by intros stk key e s [Hlog Hstk] _ | done]. }
  unfold getBestMove, sbind, tt_size. simpl.
  destruct (_ >? CLEAR_ABOVE); simpl; apply Hk; by split.
Qed.

(** The log of a search from the opening position, at level 1, is not
    empty: 7 root calls, 49 replies, as many entries into [quiesce], and 4
    calls of [quiesce] to itself; and the stack is empty again at the
    end. *)
Example getBestMove_opening_calls :
  let s := fst (getBestMove (GameState.mk openingBoard RED None [] 1 ENGLISH PLAY) emptyState) in
  length (callLog s) = 109%nat /\ callStack s = [].
Proof. vm_compute. by split. Qed.

(** *** The size of the table *)

Lemma tt_set_size key e s :
  tableSize s < STORE_BELOW -> tableSize (fst (tt_set key e s)) <= STORE_BELOW.
Proof.
  unfold tableSize. simpl. intros Hlt.
  destruct (transpositionTable s !! key) as [e'|] eqn:E.
  - rewrite map_size_insert_Some by (by rewrite E). lia.
  - rewrite map_size_insert_None by done. lia.
Qed.

(** C9 (as amended).  [getBestMove] first empties the table when it holds
    more than [CLEAR_ABOVE] entries, a threshold below the bound
    [STORE_BELOW] under which [alphaBeta] stores; and when the call ends
    the table holds at most [STORE_BELOW] entries. *)
Theorem getBestMove_table_bound (gs : GameState.t) (s : SearchState) :
  CLEAR_ABOVE < STORE_BELOW
  /\ getBestMove gs s
     = chooseMove gs (if CLEAR_ABOVE <? tableSize s then clearTable s else s)
  /\ tableSize (fst (getBestMove gs s)) <= STORE_BELOW.
Proof.
  assert (getBestMove gs s
          = chooseMove gs (if CLEAR_ABOVE <? tableSize s then clearTable s else s)) as E.
  { unfold getBestMove, sbind, tt_size, tableSize. simpl. rewrite Z.gtb_ltb.
    by destruct (CLEAR_ABOVE <? _). }
  split; [done|]. split; [exact E|]. rewrite E.
  apply (chooseMove_keeps_table (fun s => tableSize s <= STORE_BELOW) (GameState.variant gs)).
  - by intros f s' Hs'.
  - by intros s' Hs'.
  - intros key e s' _. apply tt_set_size.
  - done.
  - destruct (Z.ltb_spec CLEAR_ABOVE (tableSize s)) as [H|H].
    + unfold tableSize, clearTable. simpl. rewrite map_size_empty. done.
    + unfold CLEAR_ABOVE, STORE_BELOW in *. lia.
Qed.

(** C9 (as stated) fails: the threshold of the clear is not larger than
    the bound of the stores. *)
Lemma clear_threshold_not_larger : ~ (STORE_BELOW < CLEAR_ABOVE).
Proof. unfold STORE_BELOW, CLEAR_ABOVE. lia. Qed.

(** Once the table holds [STORE_BELOW] entries, [alphaBeta] leaves it as
    it is. *)
Lemma alphaBeta_full_table variant depth board alpha beta isMax player s :
  isMax = bool_decide (player = RED) ->
  STORE_BELOW <= tableSize s ->
  transpositionTable (fst (alphaBeta variant depth board alpha beta isMax player s))
  = transpositionTable s.
Proof.
  intros Hside Hfull.
  apply (alphaBeta_keeps_table (fun s' => transpositionTable s' = transpositionTable s) variant).
  - by intros f s' Hs'.
  - by intros s' Hs'.
  - intros key e s' Hs'. unfold tableSize in *. rewrite Hs'. lia.
  - done.
  - done.
Qed.

(** *** The tag of a stored entry *)

Lemma Nleb_refl a : Nleb a a = true.
Proof. destruct a; unfold Nleb; [done | apply Z.leb_refl | done]. Qed.

Lemma Nleb_total a b : Nleb a b = false -> Nleb b a = true.
Proof. destruct a, b; unfold Nleb; try done. rewrite Z.leb_gt, Z.leb_le. lia. Qed.

Lemma Nleb_Nmax_r a b : Nleb b (Nmax a b) = true.
Proof. unfold Nmax. destruct (Nleb a b) eqn:E; [apply Nleb_refl | by apply Nleb_total]. Qed.

Lemma Nleb_Nmin_r a b : Nleb (Nmin a b) b = true.
Proof. unfold Nmin. destruct (Nleb a b) eqn:E; [done | apply Nleb_refl]. Qed.

(** At a maximizing node the loop raises [alpha] to [best] at each move,
    so [best <= alpha] when it ends and the tag computed is [UPPER]; at a
    minimizing node [beta] is lowered to [best], and the tag is [UPPER] or
    [LOWER]: against the window left by the loop, never [EXACT]. *)
Lemma searchMoves_flag variant recur (isMax : bool) player board ordered w s :
  (if isMax then Nleb (Window.best w) (Window.alpha w)
   else Nleb (Window.beta w) (Window.best w)) = true ->
  match snd (searchMoves variant recur isMax player board ordered w s) with
  | Ok w' =>
      (if isMax then Nleb (Window.best w') (Window.alpha w')
       else Nleb (Window.beta w') (Window.best w')) = true
      /\ flagOf (Window.best w') (Window.alpha w') (Window.beta w') <> EXACT
      /\ (isMax = true ->
          flagOf (Window.best w') (Window.alpha w') (Window.beta w') = UPPER)
  | _ => True
  end.
Proof.
  revert w s. induction ordered as [|move rest IH]; intros w s Hw; simpl.
  - split; [done|]. unfold flagOf. destruct isMax.
    + rewrite Hw. by split.
    + split; [|done]. destruct (Nleb (Window.best w) _); [done | by rewrite Hw].
  - unfold sbind at 1, liftR. destruct (applyMove board move variant); try done.
    unfold sbind at 1.
    destruct (recur _ _ _ _) as [s' [score| |]]; try done.
    set (w' := if isMax then _ else _).
    assert ((if isMax then Nleb (Window.best w') (Window.alpha w')
             else Nleb (Window.beta w') (Window.best w')) = true) as Hw'.
    { subst w'. destruct isMax; simpl; [apply Nleb_Nmax_r | apply Nleb_Nmin_r]. }
    destruct (Nleb (Window.beta w') (Window.alpha w')) eqn:Hcut; [|by apply IH].
    simpl. split; [done|]. unfold flagOf. destruct isMax.
    + rewrite Hw'. by split.
    + split; [|done]. destruct (Nleb (Window.best w') _); [done | by rewrite Hw'].
Qed.

(** C3 (failing input).  A maximizing call at depth 1 from the opening
    position, with the full window and an empty table: the value 40 lies
    strictly inside the window the call was entered with, for which the tag
    is [EXACT]; the entry stored is tagged [UPPER]. *)
Theorem alphaBeta_tags_inner_value_upper :
  let out := alphaBeta ENGLISH 1 openingBoard NegInf PosInf true RED emptyState in
  snd out = Ok (Fin 40)
  /\ transpositionTable (fst out) !! openingKey = Some (Entry.mk 1 (Fin 40) UPPER)
  /\ Nltb NegInf (Fin 40) = true /\ Nltb (Fin 40) PosInf = true
  /\ flagOf (Fin 40) NegInf PosInf = EXACT.
Proof. vm_compute. repeat split; reflexivity. Qed.

(** The window with which [alphaBeta] enters the loop: whatever the moves
    and the scores of the children, the tag computed after the loop is not
    [EXACT]. *)
Lemma alphaBeta_never_tags_exact variant recur (isMax : bool) player board ordered
    alpha beta s :
  match snd (searchMoves variant recur isMax player board ordered
               (Window.mk (if isMax then NegInf else PosInf) alpha beta) s) with
  | Ok w' => flagOf (Window.best w') (Window.alpha w') (Window.beta w') <> EXACT
  | _ => True
  end.
Proof.
  pose proof (searchMoves_flag variant recur isMax player board ordered
                (Window.mk (if isMax then NegInf else PosInf) alpha beta) s) as H.
  destruct (snd _); [|done..]. apply H. destruct isMax; simpl; [done|].
  by destruct beta.
Qed.

(** *** Budgets and well-formed boards *)

(** [getBestMove] never exhausts the budgets of [findJumps] and
    [quiesce]. *)
Lemma getBestMove_fuel gs s : snd (getBestMove gs s) <> OutOfFuel.
Proof.
  assert (keeps (fun _ => True) (chooseMove gs)) as Hk.
  { by apply (chooseMove_keeps_table _ (GameState.variant gs)). }
  unfold getBestMove, sbind, tt_size. simpl.
  destruct (_ >? CLEAR_ABOVE); simpl; by apply Hk.
Qed.

Lemma cell_grid n f r c p :
  cell (grid n f) r c = Ok (Some p) -> 0 <= r < n /\ 0 <= c < n /\ f r c = Some p.
Proof.
  intros H.
  assert (0 <= r < n) as Hr.
  { destruct (Z.le_gt_cases 0 r), (Z.lt_ge_cases r n); try lia; exfalso;
      assert (cell (grid n f) r c = TypeError) as E
        by (apply cell_raises; rewrite length_grid; lia); congruence. }
  assert (0 <= c < n) as Hc.
  { revert H. unfold cell, grid. destruct (Z.ltb_spec r 0); [lia|].
    rewrite map_fmap, list_lookup_fmap, range_lookup by lia. simpl.
    destruct (Z.ltb_spec c 0); [done|].
    destruct (Z.lt_ge_cases c n); [lia|].
    rewrite map_fmap, list_lookup_fmap.
    rewrite (lookup_ge_None_2 (range n)) by (rewrite length_range; lia). done. }
  repeat split; try lia. rewrite <- (pieceAt_grid n f r c) by lia.
  unfold pieceAt. by rewrite H.
Qed.

Lemma wellFormed_grid rules f :
  0 <= boardSize rules ->
  (forall r c p, f r c = Some p -> Piece.position p = Pos.mk r c) ->
  wellFormed rules (grid (boardSize rules) f).
Proof.
  intros Hsz Hf. split; [rewrite length_grid; lia|].
  intros r c p H. apply cell_grid in H as (_ & _ & H). by apply Hf.
Qed.

(** The initial position of every variant is well formed, so
    [getValidMoves] returns on it. *)
Lemma initial_wellFormed variant :
  wellFormed (getVariantRules variant)
    (grid (boardSize (getVariantRules variant)) (initialCell variant)).
Proof.
  apply wellFormed_grid; [by destruct variant|].
  intros r c p. unfold initialCell.
  repeat match goal with
         | |- context [if ?b then _ else _] => destruct b
         end; intros [= <-]; reflexivity.
Qed.

Lemma skirmish_wellFormed variant :
  boardSize (getVariantRules variant) = 8 ->
  wellFormed (getVariantRules variant) skirmishBoard.
Proof.
  intros Hsz. unfold skirmishBoard. rewrite <- Hsz.
  apply wellFormed_grid; [lia|]. intros r c p.
  destruct ((r =? 4) && (c =? 1)) eqn:E1.
  { intros [= <-]. apply andb_true_iff in E1 as [?%Z.eqb_eq ?%Z.eqb_eq]. by subst. }
  destruct ((r =? 3) && (c =? 2)) eqn:E2; [|done].
  intros [= <-]. apply andb_true_iff in E2 as [?%Z.eqb_eq ?%Z.eqb_eq]. by subst.
Qed.

(** ** Applying a move *)

Lemma writeRow_lookup row c v c' :
  0 <= c' ->
  occupant (default Hole (writeRow row c v !! Z.to_nat c'))
  = if bool_decide (c' = c) then v else occupant (default Hole (row !! Z.to_nat c')).
Proof.
  intros Hc'. unfold writeRow. destruct (Z.ltb_spec c 0) as [Hneg|Hpos].
  { case_bool_decide; [lia | done]. }
  destruct (Z.ltb_spec c (Z.of_nat (length row))) as [Hin|Hout].
  - rewrite list_lookup_insert. case_bool_decide as Hd; case_decide as Hd'; try done.
    + exfalso. apply Hd'. split; lia.
    + exfalso. apply Hd. lia.
  - destruct (Z.lt_ge_cases c' (Z.of_nat (length row))) as [H1|H1].
    { rewrite lookup_app_l by lia. case_bool_decide; [lia | done]. }
    rewrite lookup_app_r by lia. rewrite (lookup_ge_None_2 row) by lia.
    destruct (Z.lt_ge_cases c' c) as [H2|H2].
    { rewrite lookup_app_l by (rewrite length_replicate; lia).
      rewrite lookup_replicate_2 by lia. case_bool_decide; [lia | done]. }
    rewrite lookup_app_r by (rewrite length_replicate; lia). rewrite length_replicate.
    case_bool_decide as Hd.
    + subst c'. replace (Z.to_nat c - length row - (Z.to_nat c - length row))%nat with 0%nat
        by lia. done.
    + rewrite lookup_ge_None_2 by (simpl; lia). done.
Qed.

(** Reading after a write: the written cell holds the new value, every
    other cell reads as before. *)
Lemma pieceAt_setCell board r c v board' r' c' :
  setCell board r c v = Ok board' ->
  0 <= c \/ v = None ->
  pieceAt board' r' c'
  = if bool_decide (r' = r /\ c' = c) then v else pieceAt board r' c'.
Proof.
  unfold setCell. destruct (Z.ltb_spec r 0) as [Hr|Hr]; [done|].
  destruct (board !! Z.to_nat r) as [row|] eqn:Hrow; [|done].
  intros [= <-] Hcv. unfold pieceAt, cell.
  destruct (Z.ltb_spec r' 0) as [Hr'|Hr'].
  { case_bool_decide; [lia | done]. }
  destruct (decide (r' = r)) as [->|Hne].
  - rewrite list_lookup_insert_eq by (by eapply lookup_lt_Some). rewrite Hrow.
    destruct (Z.ltb_spec c' 0) as [Hc'|Hc'].
    + case_bool_decide as Hd; [|done]. destruct Hd as [_ ->].
      destruct Hcv as [?| ->]; [lia | done].
    + rewrite writeRow_lookup by done.
      case_bool_decide as H1; case_bool_decide as H2; try done; exfalso; tauto.
  - rewrite list_lookup_insert_ne by lia. case_bool_decide; [tauto | done].
Qed.

Lemma length_setCell board r c v board' :
  setCell board r c v = Ok board' -> length board' = length board.
Proof.
  unfold setCell. destruct (r <? 0); [done|].
  destruct (board !! Z.to_nat r); [|done]. intros [= <-]. apply length_insert.
Qed.

(** Emptying the cells of a capture list, one after the other. *)
Lemma pieceAt_clear caps : forall board board' r c,
  forLoop (fun b cp => setCell b (Pos.r cp) (Pos.c cp) None) caps board = Ok board' ->
  pieceAt board' r c
  = if bool_decide (Pos.mk r c ∈ caps) then None else pieceAt board r c.
Proof.
  induction caps as [|cp caps IH]; intros board board' r c; cbn [forLoop].
  - intros [= <-]. case_bool_decide as Hd; [by apply elem_of_nil in Hd | done].
  - destruct (setCell board (Pos.r cp) (Pos.c cp) None) as [b1| |] eqn:E1;
      cbn [rbind]; try done.
    intros H. rewrite (IH _ _ _ _ H).
    rewrite (pieceAt_setCell _ _ _ _ _ r c E1) by (by right).
    destruct cp as [pr pc]. cbn [Pos.r Pos.c].
    repeat case_bool_decide; try done; exfalso.
    + match goal with H : _ ∉ _ :: _ |- _ => apply H end. by right.
    + match goal with H : _ ∉ _ :: _ |- _ => apply H end.
      match goal with H : _ /\ _ |- _ => destruct H as [-> ->] end. left.
    + match goal with H : _ ∈ _ :: _ |- _ => apply elem_of_cons in H as [[= -> ->]|?] end;
        tauto.
Qed.

Lemma length_clear caps : forall board board',
  forLoop (fun b cp => setCell b (Pos.r cp) (Pos.c cp) None) caps board = Ok board' ->
  length board' = length board.
Proof.
  induction caps as [|cp caps IH]; intros board board'; simpl; [by intros [= <-]|].
  destruct (setCell _ _ _ _) as [b1| |] eqn:E1; simpl; try done.
  intros H. rewrite (IH _ _ H). by eapply length_setCell.
Qed.

(** With an empty source cell [applyMove] returns the board as it is. *)
Lemma applyMove_empty_source board move variant board' :
  applyMove board move variant = Ok board' ->
  pieceOn board (Move.from move) = None ->
  board' = board.
Proof.
  unfold applyMove, pieceOn, pieceAt.
  destruct (cell board _ _) as [[piece|]| |]; simpl; try done. by intros [= <-].
Qed.

(** The cells of the board returned by [applyMove]. *)
Lemma applyMove_pieceAt board move variant board' piece :
  applyMove board move variant = Ok board' ->
  pieceOn board (Move.from move) = Some piece ->
  0 <= Pos.c (Move.to move) ->
  forall r c,
    pieceAt board' r c
    = if bool_decide (Pos.mk r c ∈ capturedCells move) then None
      else if bool_decide (Pos.mk r c = Move.from move) then None
      else if bool_decide (Pos.mk r c = Move.to move)
           then Some (movedPiece variant piece (Move.to move))
      else pieceAt board r c.
Proof.
  intros Happly Hpiece. revert Happly.
  unfold pieceOn, pieceAt in Hpiece. unfold applyMove.
  destruct (cell board _ _) as [[piece0|]| |] eqn:Ecell; simpl; try done.
  injection Hpiece as ->.
  destruct (setCell board _ _ (Some _)) as [b1| |] eqn:E1; simpl; try done.
  destruct (setCell b1 _ _ None) as [b2| |] eqn:E2; simpl; try done.
  intros Hcaps Hto r c.
  assert (pieceAt b2 r c
          = if bool_decide (Pos.mk r c = Move.from move) then None
            else if bool_decide (Pos.mk r c = Move.to move)
                 then Some (movedPiece variant piece (Move.to move))
            else pieceAt board r c) as Hb2.
  { rewrite (pieceAt_setCell _ _ _ _ _ r c E2) by (by right).
    rewrite (pieceAt_setCell _ _ _ _ _ r c E1) by (by left).
    destruct (Move.from move) as [fr fc], (Move.to move) as [tr tc]. simpl.
    repeat case_bool_decide; try done; exfalso;
      repeat match goal with
             | H : _ /\ _ |- _ => destruct H
             | H : Pos.mk _ _ = Pos.mk _ _ |- _ => injection H as ??
             end; subst; tauto. }
  unfold capturedCells. destruct (Move.captures move) as [caps|]; cbn [default].
  - rewrite (pieceAt_clear _ _ _ r c Hcaps). by rewrite Hb2.
  - injection Hcaps as <-.
    rewrite (bool_decide_eq_false_2 (Pos.mk r c ∈ [])); [exact Hb2 | apply not_elem_of_nil].
Qed.

(** ** What the generator guarantees *)

Lemma whenOk_bind {A B} (Q : B -> Prop) (x : result A) (f : A -> result B) :
  whenOk (fun a => whenOk Q (f a)) x -> whenOk Q (rbind x f).
Proof. by destruct x. Qed.

Lemma whenOk_mono {A} (Q Q' : A -> Prop) (x : result A) :
  (forall a, Q a -> Q' a) -> whenOk Q x -> whenOk Q' x.
Proof. destruct x; simpl; auto. Qed.

Lemma wp_whenOk {A} te (Q : A -> Prop) (x : result A) : wp te Q x -> whenOk Q x.
Proof. by destruct x. Qed.

Lemma whenOk_forEachPush {A B} (P : B -> Prop) (f : A -> result (list B)) (xs : list A) :
  (forall x, x ∈ xs -> whenOk (Forall P) (f x)) ->
  whenOk (Forall P) (forEachPush f xs).
Proof.
  induction xs as [|x xs IH]; intros Hf; simpl; [constructor|].
  apply whenOk_bind. eapply whenOk_mono; [|apply Hf; left].
  intros ys Hys. apply whenOk_bind.
  eapply whenOk_mono; [|apply IH; intros; apply Hf; by right].
  intros zs Hzs. simpl. by apply Forall_app.
Qed.

Lemma whenOk_forLoop {A S} (I : S -> Prop) (body : S -> A -> result S) (xs : list A) (s : S) :
  I s ->
  (forall s x, x ∈ xs -> I s -> whenOk I (body s x)) ->
  whenOk I (forLoop body xs s).
Proof.
  revert s. induction xs as [|x xs IH]; intros s Hs Hbody; simpl; [exact Hs|].
  apply whenOk_bind. eapply whenOk_mono; [|apply Hbody; [left | exact Hs]].
  intros s' Hs'. apply IH; [exact Hs'|]. intros; apply Hbody; [by right | done].
Qed.

Section CaptureFacts.
Variables (board : Board) (piece : Piece.t) (rules : VariantRules).

Lemma isEnemy_true mp : isEnemy piece mp = true -> Piece.player mp <> Piece.player piece.
Proof. unfold isEnemy. by intros ?%negb_true_iff%bool_decide_eq_false. Qed.

Lemma captureFacts_snoc ty ty' vis x m :
  capturable board piece rules ty x ->
  (ty = PAWN -> pawnKingTransformationMidJump rules = false -> ty' = PAWN) ->
  captureFacts board piece rules ty' (vis ++ [x]) m ->
  captureFacts board piece rules ty vis m.
Proof.
  intros Hx Hty (Hfrom & Hin & Hempty & ext & Hc & _ & Hall).
  split; [done|]. split; [done|]. split; [done|].
  exists (x :: ext). rewrite <- app_assoc in Hc. split; [exact Hc|]. split; [done|].
  constructor; [done|]. eapply Forall_impl; [exact Hall|].
  intros cp (mp & Hcell & Hside & Hking). exists mp. split; [done|]. split; [done|].
  intros Hp Hk Hpromo. apply Hking; [by apply Hty | done | done].
Qed.

Lemma chainsFrom_facts ty ty' vis x deeper dest :
  capturable board piece rules ty x ->
  (ty = PAWN -> pawnKingTransformationMidJump rules = false -> ty' = PAWN) ->
  inGrid rules (Pos.r dest) (Pos.c dest) = true ->
  cell board (Pos.r dest) (Pos.c dest) = Ok None ->
  Forall (captureFacts board piece rules ty' (vis ++ [x])) deeper ->
  Forall (captureFacts board piece rules ty vis) (chainsFrom piece deeper dest (vis ++ [x])).
Proof.
  intros Hx Hty Hin Hempty Hdeep. unfold chainsFrom. destruct (0 <? length deeper)%nat.
  - eapply Forall_impl; [exact Hdeep|]. intros m. by apply captureFacts_snoc.
  - constructor; [|constructor]. split; [done|]. split; [done|]. split; [done|].
    exists [x]. split; [done|]. split; [done|]. by constructor.
Qed.

Section Body.
Variable recur : Pos.t -> PieceType -> list Pos.t -> result (list Move.t).
Variables (cur : Pos.t) (ty : PieceType) (vis : list Pos.t).
Hypothesis Hrec : forall pos ty' vis',
  whenOk (Forall (captureFacts board piece rules ty' vis')) (recur pos ty' vis').

Lemma recur_facts mr mc er ec ty' :
  capturable board piece rules ty (Pos.mk mr mc) ->
  (ty = PAWN -> pawnKingTransformationMidJump rules = false -> ty' = PAWN) ->
  inGrid rules er ec = true ->
  cell board er ec = Ok None ->
  whenOk (fun deeper => Forall (captureFacts board piece rules ty vis)
                          (chainsFrom piece deeper (Pos.mk er ec) (vis ++ [Pos.mk mr mc])))
    (recur (Pos.mk er ec) ty' (vis ++ [Pos.mk mr mc])).
Proof using Hrec.
  intros Hx Hty Hin Hempty. eapply whenOk_mono; [|apply Hrec].
  intros deeper. by apply chainsFrom_facts.
Qed.

Lemma pawnJump_facts dr dc :
  whenOk (Forall (captureFacts board piece rules ty vis))
    (pawnJump board piece rules recur cur ty vis dr dc).
Proof using Hrec.
  unfold pawnJump.
  destruct (isBack piece dr && _ && _); [constructor|].
  destruct (inGrid rules _ _) eqn:Hgrid; [|constructor].
  destruct (cell board (Pos.r cur + dr) _) as [[mp|]| |] eqn:Em; simpl; try done.
  destruct (isEnemy piece mp) eqn:Hen; [|constructor].
  destruct (cell board (Pos.r cur + dr * 2) _) as [[lp|]| |] eqn:El; simpl; try done.
  destruct (visited vis _ _); [constructor|].
  destruct (negb (pawnCanCaptureKing rules) && bool_decide (Piece.type mp = KING)) eqn:Hk;
    [constructor|].
  apply whenOk_bind. apply recur_facts; try done.
  - exists mp. split; [done|]. split; [by apply isEnemy_true|].
    intros _ Hcan _. rewrite Hcan in Hk. simpl in Hk. apply bool_decide_eq_false in Hk.
    by destruct (Piece.type mp).
  - intros Hp Hpromo. rewrite Hpromo. by simpl.
Qed.

Lemma kingShortJump_facts dr dc :
  ty <> PAWN ->
  whenOk (Forall (captureFacts board piece rules ty vis))
    (kingShortJump board piece rules recur cur ty vis dr dc).
Proof using Hrec.
  intros Hty. unfold kingShortJump.
  destruct (inGrid rules _ _) eqn:Hgrid; [|constructor].
  destruct (cell board (Pos.r cur + dr) _) as [[mp|]| |] eqn:Em; simpl; try done.
  destruct (isEnemy piece mp) eqn:Hen; [|constructor].
  destruct (cell board (Pos.r cur + dr * 2) _) as [[lp|]| |] eqn:El; simpl; try done.
  destruct (visited vis _ _); simpl; [constructor|].
  apply whenOk_bind. apply recur_facts; try done.
  exists mp. split; [done|]. split; [by apply isEnemy_true | done].
Qed.

Lemma kingLandings_facts n l mr mc dr dc :
  ty <> PAWN ->
  capturable board piece rules ty (Pos.mk mr mc) ->
  whenOk (Forall (captureFacts board piece rules ty vis))
    (kingLandings board piece rules recur ty n l mr mc dr dc (vis ++ [Pos.mk mr mc])).
Proof using Hrec.
  intros Hty Hx. revert l. induction n as [|n IH]; intros l; simpl; [constructor|].
  destruct (inGrid rules _ _) eqn:Hgrid; simpl; [|constructor].
  destruct (cell board (mr + dr * l) _) as [[lp|]| |] eqn:El; simpl; try done.
  apply whenOk_bind. eapply whenOk_mono; [|by apply recur_facts].
  intros deeper Hdeep. apply whenOk_bind. eapply whenOk_mono; [|apply IH].
  intros rest Hrest. simpl. by apply Forall_app.
Qed.

Lemma kingCapture_facts mp mr mc dr dc :
  ty <> PAWN ->
  cell board mr mc = Ok (Some mp) ->
  whenOk (Forall (captureFacts board piece rules ty vis))
    (kingCapture board piece rules recur ty vis mp mr mc dr dc).
Proof using Hrec.
  intros Hty Hcell. unfold kingCapture.
  destruct (isEnemy piece mp) eqn:Hen; simpl; [|constructor].
  destruct (visited vis mr mc); simpl; [constructor|].
  destruct (inGrid rules _ _) eqn:Hgrid; [|constructor].
  destruct (cell board (mr + dr) _) as [[lp|]| |] eqn:El; simpl; try done.
  assert (capturable board piece rules ty (Pos.mk mr mc)) as Hx.
  { exists mp. split; [done|]. split; [by apply isEnemy_true | done]. }
  destruct (kingStopsAfterCapture rules).
  - apply whenOk_bind. by apply recur_facts.
  - by apply kingLandings_facts.
Qed.

Lemma kingScan_facts n d dr dc :
  ty <> PAWN ->
  whenOk (Forall (captureFacts board piece rules ty vis))
    (kingScan board piece rules recur cur ty vis n d dr dc).
Proof using Hrec.
  intros Hty. revert d. induction n as [|n IH]; intros d; simpl; [constructor|].
  destruct (inGrid rules _ _) eqn:Hgrid; simpl; [|constructor].
  destruct (cell board (Pos.r cur + dr * d) _) as [[mp|]| |] eqn:Em; simpl; try done.
  by apply kingCapture_facts.
Qed.

Lemma jumpsInDir_facts d :
  whenOk (Forall (captureFacts board piece rules ty vis))
    (jumpsInDir board piece rules recur cur ty vis d).
Proof using Hrec.
  unfold jumpsInDir. case_bool_decide as Hty; [apply pawnJump_facts|].
  destruct (kingLongRange rules); [by apply kingScan_facts | by apply kingShortJump_facts].
Qed.
End Body.

Lemma findJumps_facts fuel cur ty vis :
  whenOk (Forall (captureFacts board piece rules ty vis))
    (findJumps board piece rules fuel cur ty vis).
Proof.
  revert cur ty vis. induction fuel as [|fuel IH]; intros cur ty vis; [done|].
  simpl. apply whenOk_forEachPush. intros d _. by apply jumpsInDir_facts.
Qed.

Lemma slideSteps_facts n d dr dc :
  (dr, dc) ∈ dirs piece rules -> 1 <= d ->
  Piece.type piece = KING -> kingLongRange rules = true ->
  (forall i, 1 <= i < d ->
     inGrid rules (Pos.r (Piece.position piece) + dr * i)
                  (Pos.c (Piece.position piece) + dc * i) = true
     /\ cell board (Pos.r (Piece.position piece) + dr * i)
                   (Pos.c (Piece.position piece) + dc * i) = Ok None) ->
  whenOk (Forall (stepFacts board piece rules))
    (slideSteps board piece rules n d dr dc).
Proof.
  intros Hdir Hd Hking Hlong. revert d Hd.
  induction n as [|n IH]; intros d Hd Hway; simpl; [constructor|].
  destruct (inGrid rules _ _) eqn:Hgrid; [|constructor].
  destruct (cell board _ _) as [[mp|]| |] eqn:E; simpl; try done.
  assert (forall i, 1 <= i <= d ->
            inGrid rules (Pos.r (Piece.position piece) + dr * i)
                         (Pos.c (Piece.position piece) + dc * i) = true
            /\ cell board (Pos.r (Piece.position piece) + dr * i)
                          (Pos.c (Piece.position piece) + dc * i) = Ok None) as Hway'.
  { intros i Hi. destruct (decide (i = d)) as [->|Hne]; [done|]. apply Hway. lia. }
  apply whenOk_bind. eapply whenOk_mono; [|apply IH; [lia|]].
  2:{ intros i Hi. apply Hway'. lia. }
  intros rest Hrest. simpl. constructor; [|done].
  split; [done|]. split; [done|]. split; [done|]. split; [done|].
  exists (dr, dc), d. split; [done|]. split; [done|]. split; [done|].
  split; [by right|]. split; [|done]. intros Hp. congruence.
Qed.

Lemma stepsInDir_facts d :
  d ∈ dirs piece rules ->
  whenOk (Forall (stepFacts board piece rules)) (stepsInDir board piece rules d).
Proof.
  intros Hdir. destruct d as [dr dc]. unfold stepsInDir. cbn [fst snd].
  destruct (bool_decide (Piece.type piece = PAWN) && _) eqn:Hpawn; [constructor|].
  destruct (bool_decide (Piece.type piece = KING) && kingLongRange rules) eqn:Hslide.
  { apply andb_true_iff in Hslide as [Hk%bool_decide_eq_true Hl].
    apply slideSteps_facts; try done. intros i Hi. lia. }
  destruct (inGrid rules _ _) eqn:Hgrid; [|constructor].
  destruct (cell board _ _) as [[mp|]| |] eqn:E; simpl; try done.
  constructor; [|constructor].
  split; [done|]. split; [done|]. split; [done|]. split; [done|].
  exists (dr, dc), 1. cbn [fst snd]. rewrite !Z.mul_1_r.
  split; [done|]. split; [lia|]. split; [done|]. split; [by left|]. split.
  - intros Hp. rewrite (bool_decide_eq_true_2 _ Hp) in Hpawn. simpl in Hpawn.
    apply orb_false_iff in Hpawn as [Hback Hside]. split; [done|].
    intros ->. simpl in Hside. by destruct (isOrthogonal rules).
  - intros i Hi. assert (i = 1) as -> by lia. by rewrite !Z.mul_1_r.
Qed.

Lemma getPieceMoves_facts :
  whenOk (fun found =>
            Forall (captureFacts board piece rules (Piece.type piece) []) (fst found)
            /\ Forall (stepFacts board piece rules) (snd found))
    (getPieceMoves board piece rules).
Proof.
  unfold getPieceMoves. apply whenOk_bind.
  eapply whenOk_mono; [|apply findJumps_facts].
  intros jumps Hj. apply whenOk_bind.
  eapply whenOk_mono; [|apply whenOk_forEachPush; intros d Hd; by apply stepsInDir_facts].
  intros steps Hs. by split.
Qed.
End CaptureFacts.

Lemma collectMoves_facts board player rules :
  whenOk (fun found => Forall (moveOf board player rules) (fst found)
                       /\ Forall (moveOf board player rules) (snd found))
    (collectMoves board player rules).
Proof.
  unfold collectMoves. apply whenOk_forLoop; [split; constructor|].
  intros acc r Hr%elem_of_range Hacc. apply whenOk_forLoop; [exact Hacc|].
  clear acc Hacc. intros acc c Hc%elem_of_range [Hj Hs].
  destruct (cell board r c) as [[piece|]| |] eqn:E; simpl; try done.
  case_bool_decide as Hside; [|by split].
  apply whenOk_bind. eapply whenOk_mono; [|apply getPieceMoves_facts].
  intros [jumps steps] [Hj' Hs']. simpl in *.
  split; apply Forall_app; split; try done.
  - eapply Forall_impl; [exact Hj'|]. intros m Hm. exists piece, r, c.
    split; [done|]. split; [done|]. split; [lia|]. split; [lia|]. by left.
  - eapply Forall_impl; [exact Hs'|]. intros m Hm. exists piece, r, c.
    split; [done|]. split; [done|]. split; [lia|]. split; [lia|]. by right.
Qed.

(** Every move that [getValidMoves] returns is a capture or a step of a
    piece of the side to move found on the board. *)
Lemma getValidMoves_moveOf board player variant moves :
  getValidMoves board player variant = Ok moves ->
  Forall (moveOf board player (getVariantRules variant)) moves.
Proof.
  intros Hres.
  pose proof (getValidMoves_validMoves board player variant) as H. rewrite Hres in H.
  destruct H as (js & ss & Hscan & _ & _ & Hcap & Hstep).
  pose proof (collectMoves_facts board player (getVariantRules variant)) as Hf.
  rewrite Hscan in Hf. destruct Hf as [Hj Hs]. simpl in *.
  destruct js as [|j js].
  - by rewrite (Hstep eq_refl).
  - rewrite (Hcap ltac:(done)). by apply captureFilters_keeps.
Qed.

Lemma pieceAt_Some board r c p : pieceAt board r c = Some p <-> cell board r c = Ok (Some p).
Proof.
  unfold pieceAt. split; [|by intros ->].
  destruct (cell board r c) as [[q|]| |]; try done. by intros [= ->].
Qed.

(** On a well-formed board the piece that makes a move stands on the
    source of the move. *)
Lemma moveOf_source rules board player m :
  wellFormed rules board -> moveOf board player rules m ->
  exists piece,
    pieceOn board (Move.from m) = Some piece /\ Piece.player piece = player
    /\ (captureFacts board piece rules (Piece.type piece) [] m
        \/ stepFacts board piece rules m).
Proof.
  intros [_ Hpos] (piece & r & c & Hcell & Hside & _ & _ & Hm).
  exists piece. split; [|by split].
  assert (Move.from m = Pos.mk r c) as ->.
  { rewrite <- (Hpos _ _ _ Hcell). by destruct Hm as [[? _]|[? _]]. }
  unfold pieceOn. simpl. by apply pieceAt_Some.
Qed.

(** X2.  On a well-formed board every move returned by [getValidMoves]
    starts on a piece of the side to move, ends on an empty cell inside the
    grid, and captures only cells that hold pieces of the other side. *)
Theorem getValidMoves_legal board player variant moves m :
  wellFormed (getVariantRules variant) board ->
  getValidMoves board player variant = Ok moves ->
  m ∈ moves ->
  (exists piece, pieceOn board (Move.from m) = Some piece /\ Piece.player piece = player)
  /\ inGrid (getVariantRules variant) (Pos.r (Move.to m)) (Pos.c (Move.to m)) = true
  /\ pieceOn board (Move.to m) = None
  /\ Forall (fun cp => exists mp, pieceOn board cp = Some mp /\ Piece.player mp <> player)
       (capturedCells m).
Proof.
  intros Hwf Hres Hm.
  pose proof (getValidMoves_moveOf _ _ _ _ Hres) as Hall. rewrite Forall_forall in Hall.
  destruct (moveOf_source _ _ _ _ Hwf (Hall m Hm)) as (piece & Hsrc & Hside & Hfacts).
  split; [by exists piece|]. unfold pieceOn, capturedCells.
  destruct Hfacts as [(_ & Hin & Hempty & ext & Hc & _ & Hcaps)|(_ & Hc & Hin & Hempty & _)].
  - split; [done|]. split; [by rewrite (cell_pieceAt _ _ _ _ Hempty)|].
    rewrite Hc. simpl. eapply Forall_impl; [exact Hcaps|].
    intros cp (mp & Hcell & Hother & _). exists mp.
    split; [by apply pieceAt_Some | congruence].
  - split; [done|]. split; [by rewrite (cell_pieceAt _ _ _ _ Hempty)|].
    rewrite Hc. constructor.
Qed.

Lemma getValidMoves_legal_witness :
  (exists piece, pieceOn skirmishBoard (Pos.mk 4 1) = Some piece /\ Piece.player piece = RED)
  /\ inGrid (getVariantRules ENGLISH) 2 3 = true
  /\ pieceOn skirmishBoard (Pos.mk 2 3) = None
  /\ Forall (fun cp => exists mp, pieceOn skirmishBoard cp = Some mp /\ Piece.player mp <> RED)
       [Pos.mk 3 2].
Proof.
  apply (getValidMoves_legal skirmishBoard RED ENGLISH [skirmishJump] skirmishJump).
  - by apply skirmish_wellFormed.
  - vm_compute; reflexivity.
  - left.
Defined.



(** X4.  A step move of a man goes one cell, never backward (toward row 0
    for RED, away from it for WHITE), and sideways only in an orthogonal
    variant. *)
Theorem men_step_forward board player variant moves m piece :
  wellFormed (getVariantRules variant) board ->
  getValidMoves board player variant = Ok moves ->
  m ∈ moves ->
  Move.captures m = None ->
  pieceOn board (Move.from m) = Some piece ->
  Piece.type piece = PAWN ->
  let dr := Pos.r (Move.to m) - Pos.r (Move.from m) in
  let dc := Pos.c (Move.to m) - Pos.c (Move.from m) in
  (if bool_decide (Piece.player piece = RED) then -1 <= dr <= 0 else 0 <= dr <= 1)
  /\ -1 <= dc <= 1
  /\ (dr = 0 -> isOrthogonal (getVariantRules variant) = true).
Proof.
  intros Hwf Hres Hm Hnone Hsrc Hpawn.
  pose proof (getValidMoves_moveOf _ _ _ _ Hres) as Hall. rewrite Forall_forall in Hall.
  destruct (moveOf_source _ _ _ _ Hwf (Hall m Hm)) as (piece' & Hsrc' & _ & Hfacts).
  rewrite Hsrc in Hsrc'. injection Hsrc' as <-.
  destruct Hfacts as [(_ & _ & _ & ext & Hc & _)|Hstep]; [congruence|].
  destruct Hstep as (Hfrom & _ & _ & _ & [ddr ddc] & k & Hdir & Hk & Hto & Hone & Hman & _).
  destruct Hone as [->|[Hking _]]; [|congruence].
  destruct (Hman Hpawn) as [Hback Hside]. rewrite Hto, Hfrom. cbn [Pos.r Pos.c fst snd] in *.
  assert (-1 <= ddr <= 1 /\ -1 <= ddc <= 1) as [Hr Hc].
  { revert Hdir. unfold dirs.
    destruct (isOrthogonal _); [|destruct (frisianCapturing _)];
      rewrite ?elem_of_cons, elem_of_nil; intros H;
      repeat (destruct H as [[= -> ->]|H]); try contradiction; try lia.
    destruct (bool_decide _); lia. }
  unfold isBack in Hback.
  split; [|split; [lia|]].
  - destruct (bool_decide (Piece.player piece = RED)).
    + rewrite Z.gtb_ltb in Hback. apply Z.ltb_ge in Hback. lia.
    + apply Z.ltb_ge in Hback. lia.
  - intros H0. apply Hside. lia.
Qed.

Lemma men_step_forward_witness :
  -1 <= 4 - 5 <= 0 /\ -1 <= 1 - 0 <= 1
  /\ (4 - 5 = 0 -> isOrthogonal (getVariantRules ENGLISH) = true).
Proof.
  apply (men_step_forward openingBoard RED ENGLISH
           openingMoves openingStep (redPawn 5 0)).
  - apply (initial_wellFormed ENGLISH).
  - vm_compute; reflexivity.
  - left.
  - reflexivity.
  - reflexivity.
  - reflexivity.
Defined.

Lemma setCell_Ok board r c v :
  0 <= r < Z.of_nat (length board) -> exists board', setCell board r c v = Ok board'.
Proof.
  intros Hr. unfold setCell. destruct (Z.ltb_spec r 0); [lia|].
  destruct (board !! Z.to_nat r) eqn:E; [eauto|].
  apply lookup_ge_None in E. lia.
Qed.

Lemma clear_Ok caps : forall board,
  Forall (fun cp => 0 <= Pos.r cp < Z.of_nat (length board)) caps ->
  exists board', forLoop (fun b cp => setCell b (Pos.r cp) (Pos.c cp) None) caps board
                 = Ok board'.
Proof.
  induction caps as [|cp caps IH]; intros board Hall; simpl; [eauto|].
  inversion Hall as [|? ? Hcp Hrest]; subst.
  destruct (setCell_Ok board (Pos.r cp) (Pos.c cp) None Hcp) as [b1 E1]. rewrite E1. simpl.
  apply IH. by rewrite (length_setCell _ _ _ _ _ E1).
Qed.

Lemma cell_row board r c p : cell board r c = Ok p -> 0 <= r < Z.of_nat (length board).
Proof.
  intros H. destruct (Z.le_gt_cases 0 r), (Z.lt_ge_cases r (Z.of_nat (length board)));
    try lia; exfalso;
    assert (cell board r c = TypeError) as E by (apply cell_raises; lia); congruence.
Qed.

Lemma length_applyMove board move variant board' :
  applyMove board move variant = Ok board' -> length board' = length board.
Proof.
  unfold applyMove. destruct (cell board _ _) as [[piece|]| |]; simpl; try done;
    [|by intros [= <-]].
  destruct (setCell board _ _ (Some _)) as [b1| |] eqn:E1; simpl; try done.
  destruct (setCell b1 _ _ None) as [b2| |] eqn:E2; simpl; try done.
  destruct (Move.captures move) as [caps|].
  - intros H. rewrite (length_clear _ _ _ H), (length_setCell _ _ _ _ _ E2).
    by eapply length_setCell.
  - intros [= <-]. rewrite (length_setCell _ _ _ _ _ E2). by eapply length_setCell.
Qed.

(** Applying a move of a piece of the board to a well-formed board returns
    a well-formed board. *)
Lemma applyMove_moveOf board player variant m :
  wellFormed (getVariantRules variant) board ->
  moveOf board player (getVariantRules variant) m ->
  exists board',
    applyMove board m variant = Ok board' /\ wellFormed (getVariantRules variant) board'.
Proof.
  intros Hwf Hm. pose proof Hwf as [Hlen Hpos].
  destruct (moveOf_source _ _ _ _ Hwf Hm) as (piece & Hsrc & _ & Hfacts).
  assert (inGrid (getVariantRules variant) (Pos.r (Move.to m)) (Pos.c (Move.to m)) = true
          /\ Forall (fun cp => 0 <= Pos.r cp < Z.of_nat (length board)) (capturedCells m))
    as [Hin Hcaps].
  { unfold capturedCells.
    destruct Hfacts as [(_ & Hin & _ & ext & Hc & _ & Hcaps)|(_ & Hc & Hin & _)];
      (split; [done|]); rewrite Hc; simpl; [|constructor].
    eapply Forall_impl; [exact Hcaps|]. intros cp (mp & Hcell & _). by eapply cell_row. }
  apply inGrid_true in Hin as [Hr Hc].
  assert (exists board', applyMove board m variant = Ok board') as [board' Happly].
  { unfold applyMove. unfold pieceOn in Hsrc. apply pieceAt_Some in Hsrc as Hcell.
    rewrite Hcell. simpl.
    destruct (setCell_Ok board (Pos.r (Move.to m)) (Pos.c (Move.to m))
                (Some (movedPiece variant piece (Move.to m))) ltac:(lia)) as [b1 E1].
    unfold movedPiece in E1. rewrite E1. simpl.
    destruct (setCell_Ok b1 (Pos.r (Move.from m)) (Pos.c (Move.from m)) None) as [b2 E2].
    { rewrite (length_setCell _ _ _ _ _ E1). by eapply cell_row. }
    rewrite E2. simpl. unfold capturedCells in Hcaps.
    destruct (Move.captures m) as [caps|]; [|eauto]. apply clear_Ok. simpl in Hcaps.
    by rewrite (length_setCell _ _ _ _ _ E2), (length_setCell _ _ _ _ _ E1). }
  exists board'. split; [done|]. split.
  - by rewrite (length_applyMove _ _ _ _ Happly).
  - intros r c p Hcell%pieceAt_Some.
    rewrite (applyMove_pieceAt _ _ _ _ _ Happly Hsrc ltac:(lia) r c) in Hcell.
    repeat case_bool_decide; try done.
    + injection Hcell as <-. by simpl.
    + by apply Hpos, pieceAt_Some.
Qed.

(** X1.  The board returned by [applyMove] has as many rows as its input
    and, cell by cell: the captured cells and the source are empty, the
    destination holds the piece (crowned on its king row, with the
    destination as its position), every other cell is as before. *)
Theorem applyMove_cells board move variant board' piece :
  applyMove board move variant = Ok board' ->
  pieceOn board (Move.from move) = Some piece ->
  0 <= Pos.c (Move.to move) ->
  length board' = length board
  /\ forall r c,
       pieceAt board' r c
       = if bool_decide (Pos.mk r c ∈ capturedCells move) then None
         else if bool_decide (Pos.mk r c = Move.from move) then None
         else if bool_decide (Pos.mk r c = Move.to move)
              then Some (movedPiece variant piece (Move.to move))
         else pieceAt board r c.
Proof.
  intros Happly Hpiece Hto. split; [by eapply length_applyMove|].
  by eapply applyMove_pieceAt.
Qed.

Lemma applyMove_cells_witness :
  length skirmishAfter = length skirmishBoard
  /\ forall r c,
       pieceAt skirmishAfter r c
       = if bool_decide (Pos.mk r c ∈ capturedCells skirmishJump) then None
         else if bool_decide (Pos.mk r c = Move.from skirmishJump) then None
         else if bool_decide (Pos.mk r c = Move.to skirmishJump)
              then Some (movedPiece ENGLISH (redPawn 4 1) (Move.to skirmishJump))
         else pieceAt skirmishBoard r c.
Proof.
  apply (applyMove_cells skirmishBoard skirmishJump ENGLISH skirmishAfter (redPawn 4 1)).
  - vm_compute; reflexivity.
  - reflexivity.
  - simpl; lia.
Defined.

(** X5.  Applying a move returned by [getValidMoves] to a well-formed board
    returns a board, with as many rows, on which every piece again records
    the cell it stands on. *)
Theorem applyMove_keeps_wellFormed board player variant moves m :
  wellFormed (getVariantRules variant) board ->
  getValidMoves board player variant = Ok moves ->
  m ∈ moves ->
  exists board',
    applyMove board m variant = Ok board' /\ wellFormed (getVariantRules variant) board'.
Proof.
  intros Hwf Hres Hm.
  pose proof (getValidMoves_moveOf _ _ _ _ Hres) as Hall. rewrite Forall_forall in Hall.
  by eapply applyMove_moveOf, Hall.
Qed.

Lemma applyMove_keeps_wellFormed_witness :
  exists board',
    applyMove skirmishBoard skirmishJump ENGLISH = Ok board'
    /\ wellFormed (getVariantRules ENGLISH) board'.
Proof.
  apply (applyMove_keeps_wellFormed skirmishBoard RED ENGLISH [skirmishJump] skirmishJump).
  - by apply skirmish_wellFormed.
  - vm_compute; reflexivity.
  - left.
Defined.

(** ** Move ordering *)

Lemma insertByCaptures_perm m l : insertByCaptures m l ≡ₚ m :: l.
Proof.
  induction l as [|x l IH]; simpl; [done|].
  destruct (captureCount x <=? captureCount m); [done|].
  rewrite IH. apply Permutation_swap.
Qed.

Lemma insertByCaptures_sorted m l :
  StronglySorted (fun a b => captureCount b <= captureCount a) l ->
  StronglySorted (fun a b => captureCount b <= captureCount a) (insertByCaptures m l).
Proof.
  induction 1 as [|x l Hl IH Hx]; simpl; [repeat constructor|].
  destruct (Z.leb_spec (captureCount x) (captureCount m)) as [Hle|Hgt].
  - constructor; [by constructor|]. constructor; [done|].
    eapply Forall_impl; [exact Hx|]. intros y Hy. simpl in Hy. lia.
  - constructor; [exact IH|].
    rewrite insertByCaptures_perm. constructor; [lia | done].
Qed.

Lemma insertByCaptures_stable k m l :
  StronglySorted (fun a b => captureCount b <= captureCount a) l ->
  filter (fun x => captureCount x = k) (insertByCaptures m l)
  = filter (fun x => captureCount x = k) (m :: l).
Proof.
  induction 1 as [|x l Hl IH Hx]; simpl; [done|].
  destruct (Z.leb_spec (captureCount x) (captureCount m)) as [Hle|Hgt]; [done|].
  rewrite (filter_cons _ x), IH, !filter_cons.
  destruct (decide (captureCount x = k)) as [Hxk|Hxk],
           (decide (captureCount m = k)) as [Hmk|Hmk]; try done.
  lia.
Qed.

Lemma sortByCaptures_perm moves : sortByCaptures moves ≡ₚ moves.
Proof.
  unfold sortByCaptures. induction moves as [|m moves IH]; simpl; [done|].
  by rewrite insertByCaptures_perm, IH.
Qed.

(** X6.  The ordering of the moves in [alphaBeta] keeps every move, once
    each, puts them in descending order of capture count, and keeps the
    moves of equal count in the order in which they were generated. *)
Theorem sortByCaptures_stable_sort (moves : list Move.t) :
  sortByCaptures moves ≡ₚ moves
  /\ StronglySorted (fun a b => captureCount b <= captureCount a) (sortByCaptures moves)
  /\ forall k, filter (fun x => captureCount x = k) (sortByCaptures moves)
               = filter (fun x => captureCount x = k) moves.
Proof.
  unfold sortByCaptures. induction moves as [|m moves (IHp & IHs & IHf)]; simpl.
  - split; [done|]. split; [constructor | done].
  - split; [by rewrite insertByCaptures_perm, IHp|].
    split; [by apply insertByCaptures_sorted|].
    intros k. rewrite insertByCaptures_stable by done. by rewrite !filter_cons, IHf.
Qed.

(** ** The search on well-formed boards *)

Section YieldsRules.
Context {A B : Type}.

Lemma yields_ret (Q : A -> Prop) (a : A) : Q a -> yields Q (sret a).
Proof. intros Ha s. by exists a. Qed.

Lemma yields_bind (Q : A -> Prop) (R : B -> Prop) (m : M A) (f : A -> M B) :
  yields Q m -> (forall a, Q a -> yields R (f a)) -> yields R (sbind m f).
Proof.
  intros Hm Hf s. unfold sbind. destruct (Hm s) as (a & Ha & HQ).
  destruct (m s) as [s' x]. simpl in Ha. subst x. by apply Hf.
Qed.

Lemma yields_liftR (Q : A -> Prop) (x : result A) a : x = Ok a -> Q a -> yields Q (liftR x).
Proof. intros -> Ha s. by exists a. Qed.

Lemma yields_mono (Q Q' : A -> Prop) (m : M A) :
  (forall a, Q a -> Q' a) -> yields Q m -> yields Q' m.
Proof. intros HQ Hm s. destruct (Hm s) as (a & Ha & Hq). exists a. auto. Qed.

Lemma yields_framed (Q : A -> Prop) f (body : M A) : yields Q body -> yields Q (framed f body).
Proof.
  intros Hm s. unfold framed. destruct (Hm (enter f s)) as (a & Ha & Hq).
  destruct (body (enter f s)) as [s' r]. by exists a.
Qed.
End YieldsRules.

Lemma evaluateBoard_returns board variant :
  wellFormed (getVariantRules variant) board -> exists s, evaluateBoard board variant = Ok s.
Proof.
  intros [Hlen _].
  destruct (wp_unless _ _ _ (evaluateBoard_total board variant)) as (s & Hs & _); [lia|].
  by exists s.
Qed.

Section SearchReturns.
Variable variant : CheckersVariant.
#[local] Abbreviation rules := (getVariantRules variant).

(** The legal moves of a well-formed board, as the search sees them: a
    list of moves, each of which leads to a well-formed board. *)
Lemma getValidMoves_yields board player :
  wellFormed rules board ->
  yields (Forall (fun m => exists child, applyMove board m variant = Ok child
                                         /\ wellFormed rules child))
    (liftR (getValidMoves board player variant)).
Proof.
  intros Hwf. destruct (getValidMoves_total board player variant Hwf) as [moves Hres].
  eapply yields_liftR; [exact Hres|]. apply Forall_forall. intros m Hm.
  pose proof (getValidMoves_moveOf _ _ _ _ Hres) as Hall. rewrite Forall_forall in Hall.
  by eapply applyMove_moveOf, Hall.
Qed.

Lemma quiesceMax_yields recur board moves alpha beta :
  Forall (fun m => exists child, applyMove board m variant = Ok child
                                 /\ wellFormed rules child) moves ->
  (forall child a b, wellFormed rules child -> yields (fun _ => True) (recur child a b)) ->
  yields (fun _ => True) (quiesceMax variant recur board moves alpha beta).
Proof.
  intros Hmoves Hrec. revert alpha.
  induction Hmoves as [|move rest (child & Happly & Hwf) _ IH]; intros alpha; simpl.
  - by apply yields_ret.
  - eapply (yields_bind (fun c => c = child)); [by eapply yields_liftR|]. intros ? ->.
    eapply yields_bind; [by apply Hrec|]. intros v _.
    destruct (Nleb _ _); [by apply yields_ret | apply IH].
Qed.

Lemma quiesceMin_yields recur board moves alpha beta :
  Forall (fun m => exists child, applyMove board m variant = Ok child
                                 /\ wellFormed rules child) moves ->
  (forall child a b, wellFormed rules child -> yields (fun _ => True) (recur child a b)) ->
  yields (fun _ => True) (quiesceMin variant recur board moves alpha beta).
Proof.
  intros Hmoves Hrec. revert beta.
  induction Hmoves as [|move rest (child & Happly & Hwf) _ IH]; intros beta; simpl.
  - by apply yields_ret.
  - eapply (yields_bind (fun c => c = child)); [by eapply yields_liftR|]. intros ? ->.
    eapply yields_bind; [by apply Hrec|]. intros v _.
    destruct (Nleb _ _); [by apply yields_ret | apply IH].
Qed.

Lemma quiesce_yields fuel board alpha beta isMax player depth :
  wellFormed rules board ->
  (0 < fuel)%nat -> 5 - depth < Z.of_nat fuel ->
  yields (fun _ => True) (quiesce variant fuel board alpha beta isMax player depth).
Proof.
  revert board alpha beta isMax player depth.
  induction fuel as [|fuel IH]; intros board alpha beta isMax player depth Hwf Hpos Hfuel;
    [lia|].
  cbn [quiesce]. apply yields_framed.
  destruct (evaluateBoard_returns board variant Hwf) as [standPat Hs].
  eapply (yields_bind (fun v => v = standPat)); [by eapply yields_liftR|]. intros ? ->.
  destruct (Z.gtb_spec depth 4) as [Hd|Hd]; [by apply yields_ret|].
  assert (forall child a b isMax' player',
            wellFormed rules child ->
            yields (fun _ => True)
              (quiesce variant fuel child a b isMax' player' (depth + 1))) as Hrec.
  { intros. apply IH; [done | lia | lia]. }
  destruct isMax.
  - destruct (Nleb beta (Fin standPat)); [by apply yields_ret|].
    eapply yields_bind; [by apply getValidMoves_yields|]. intros moves Hmoves.
    apply quiesceMax_yields; [|intros; by apply Hrec].
    unfold captureMoves. by apply Forall_filter_keep.
  - destruct (Nleb (Fin standPat) alpha); [by apply yields_ret|].
    eapply yields_bind; [by apply getValidMoves_yields|]. intros moves Hmoves.
    apply quiesceMin_yields; [|intros; by apply Hrec].
    unfold captureMoves. by apply Forall_filter_keep.
Qed.

Lemma searchMoves_yields recur isMax player board ordered w :
  Forall (fun m => exists child, applyMove board m variant = Ok child
                                 /\ wellFormed rules child) ordered ->
  (forall child a b, wellFormed rules child -> yields (fun _ => True) (recur child a b)) ->
  yields (fun _ => True) (searchMoves variant recur isMax player board ordered w).
Proof.
  intros Hmoves Hrec. revert w.
  induction Hmoves as [|move rest (child & Happly & Hwf) _ IH]; intros w; simpl.
  - by apply yields_ret.
  - eapply (yields_bind (fun c => c = child)); [by eapply yields_liftR|]. intros ? ->.
    eapply yields_bind; [by apply Hrec|]. intros score _.
    destruct (Nleb _ _); [by apply yields_ret | apply IH].
Qed.

Lemma alphaBeta_yields depth board alpha beta isMax player :
  wellFormed rules board ->
  yields (fun _ => True) (alphaBeta variant depth board alpha beta isMax player).
Proof.
  revert board alpha beta isMax player.
  induction depth as [|depth IH]; intros board alpha beta isMax player Hwf; cbn [alphaBeta];
    apply yields_framed; cbv zeta.
  - eapply (yields_bind (fun _ => True)); [intros s; by eexists|]. intros cached _.
    destruct (probe _ _ _ _) as [score|[alpha' beta']]; [by apply yields_ret|].
    eapply yields_bind; [by apply getValidMoves_yields|]. intros moves _.
    apply quiesce_yields; [done | unfold quiesceBudget; lia..].
  - eapply (yields_bind (fun _ => True)); [intros s; by eexists|]. intros cached _.
    destruct (probe _ _ _ _) as [score|[alpha' beta']]; [by apply yields_ret|].
    eapply yields_bind; [by apply getValidMoves_yields|]. intros moves Hmoves.
    destruct (length moves =? 0)%nat.
    + apply quiesce_yields; [done | unfold quiesceBudget; lia..].
    + eapply yields_bind.
      { apply searchMoves_yields; [|intros; by apply IH].
        by rewrite sortByCaptures_perm. }
      intros w _. eapply (yields_bind (fun _ => True)); [intros s; by eexists|]. intros n _.
      eapply (yields_bind (fun _ => True)); [|intros; by apply yields_ret].
      destruct (n <? STORE_BELOW); intros s; by exists tt.
Qed.
End SearchReturns.

Lemma pickBest_yields gs depth moves :
  Forall (fun m => exists child,
            applyMove (GameState.board gs) m (GameState.variant gs) = Ok child
            /\ wellFormed (getVariantRules (GameState.variant gs)) child) moves ->
  forall bestMove bestScore,
    yields (fun m => m = bestMove \/ m ∈ moves) (pickBest gs depth moves bestMove bestScore).
Proof.
  induction 1 as [|move rest (child & Happly & Hwf) _ IH]; intros bestMove bestScore; simpl.
  - apply yields_ret. by left.
  - eapply (yields_bind (fun c => c = child)); [by eapply yields_liftR|]. intros ? ->.
    eapply yields_bind; [by apply alphaBeta_yields|]. intros score _.
    destruct (_ || _); (eapply yields_mono; [|apply IH]); intros m [->|Hm];
      try (right; by right); [right; left | by left].
Qed.

(** On a well-formed board [getBestMove] returns an answer chosen from the
    legal moves. *)
Lemma getBestMove_yields (gs : GameState.t) moves :
  wellFormed (getVariantRules (GameState.variant gs)) (GameState.board gs) ->
  getValidMoves (GameState.board gs) (GameState.turn gs) (GameState.variant gs) = Ok moves ->
  yields (chosenFrom moves) (getBestMove gs).
Proof.
  intros Hwf Hres.
  assert (yields (chosenFrom moves) (chooseMove gs)) as Hk.
  { unfold chooseMove. apply yields_framed. cbv zeta.
    eapply (yields_bind (fun l => l = moves)); [by eapply yields_liftR|]. intros ? ->.
    destruct moves as [|first rest]; [by apply yields_ret|].
    eapply yields_bind.
    - apply pickBest_yields. apply Forall_forall. intros m Hm.
      pose proof (getValidMoves_moveOf _ _ _ _ Hres) as Hall.
      rewrite Forall_forall in Hall. by eapply applyMove_moveOf, Hall.
    - intros m [->|Hm]; apply yields_ret; simpl; [left | done]. }
  intros s. unfold getBestMove, sbind, tt_size. simpl.
  destruct (_ >? CLEAR_ABOVE); simpl; apply Hk.
Qed.

(** X7.  On a well-formed board [getBestMove] returns, whatever the table
    holds: [null] when the side to move has no legal move, and one of the
    moves of [getValidMoves] otherwise. *)
Theorem getBestMove_chooses_legal (gs : GameState.t) (s : SearchState) :
  wellFormed (getVariantRules (GameState.variant gs)) (GameState.board gs) ->
  exists moves answer,
    getValidMoves (GameState.board gs) (GameState.turn gs) (GameState.variant gs) = Ok moves
    /\ snd (getBestMove gs s) = Ok answer
    /\ chosenFrom moves answer.
Proof.
  intros Hwf.
  destruct (getValidMoves_total _ (GameState.turn gs) _ Hwf) as [moves Hres].
  exists moves. destruct (getBestMove_yields gs moves Hwf Hres s) as (a & Ha & HQ).
  by exists a.
Qed.

Lemma getBestMove_chooses_legal_witness :
  exists moves answer,
    getValidMoves openingBoard RED ENGLISH = Ok moves
    /\ snd (getBestMove openingGame emptyState) = Ok answer
    /\ chosenFrom moves answer.
Proof.
  apply (getBestMove_chooses_legal openingGame emptyState).
  apply (initial_wellFormed ENGLISH).
Defined.

(** ** Serialization and the keys of the table *)

#[local] Arguments String.append !_ _ / : simpl nomatch.

Lemma cellChar_single p : exists ch, cellChar p = String ch EmptyString /\ ch <> newlineChar.
Proof.
  destruct p as [[i [] [] pos]|]; simpl; eexists; (split; [reflexivity | discriminate]).
Qed.

Lemma append_nil_r s : (s ++ "")%string = s.
Proof. induction s as [|ch s IH]; simpl; [done | by rewrite IH]. Qed.

Lemma join_empty_cons x xs : join "" (x :: xs) = (x ++ join "" xs)%string.
Proof. destruct xs; simpl; [by rewrite append_nil_r | done]. Qed.

Lemma rowString_plain row : plain (join "" (map slotChar row)).
Proof.
  induction row as [|[|p] row IH]; [done | |]; cbn [map]; rewrite join_empty_cons.
  - done.
  - simpl. destruct (cellChar_single p) as (ch & -> & Hch). by split.
Qed.

(** Where no index is a hole, every index prints one character, and the
    string of a row tells its cells. *)
Lemma rowString_inj row1 : forall row2,
  forallb held row1 = true -> forallb held row2 = true ->
  join "" (map slotChar row1) = join "" (map slotChar row2) ->
  map slotChar row1 = map slotChar row2.
Proof.
  induction row1 as [|[|p] row1 IH]; intros [|[|q] row2]; cbn [map forallb held];
    rewrite ?join_empty_cons; try done; intros H1 H2; cbn [slotChar].
  - destruct (cellChar_single q) as (ch & -> & _). done.
  - destruct (cellChar_single p) as (ch & -> & _). done.
  - destruct (cellChar_single p) as (ch & -> & _), (cellChar_single q) as (ch' & -> & _).
    simpl. intros [= -> H]. f_equal. by apply IH.
Qed.

Lemma plain_line_inj x : forall y s s',
  plain x -> plain y ->
  (x ++ String newlineChar s)%string = (y ++ String newlineChar s')%string ->
  x = y /\ s = s'.
Proof.
  induction x as [|ch x IH]; intros [|ch' y] s s'; simpl.
  - by intros _ _ [= ->].
  - intros _ [Hch _] [= <- _]. done.
  - intros [Hch _] _ [= -> _]. done.
  - intros [_ Hx] [_ Hy] [= -> H]. destruct (IH _ _ _ Hx Hy H) as [-> ->]. done.
Qed.

Lemma plain_line_last x : forall y s,
  plain x -> plain y -> (x ++ String newlineChar s)%string = y -> False.
Proof.
  induction x as [|ch x IH]; intros [|ch' y] s; simpl; try done.
  - intros _ [Hch _] [= <- _]. done.
  - intros [_ Hx] [_ Hy] [= _ H]. by eapply IH.
Qed.

Lemma join_newline_inj xs : forall ys,
  length xs = length ys ->
  Forall plain xs -> Forall plain ys ->
  join newline xs = join newline ys -> xs = ys.
Proof.
  induction xs as [|x xs IH]; intros [|y ys] Hlen Hxs Hys; try done.
  inversion Hxs as [|? ? Hx Hxs']; inversion Hys as [|? ? Hy Hys']; subst.
  destruct xs as [|x' xs], ys as [|y' ys]; try done.
  - simpl. by intros ->.
  - change (join newline (x :: x' :: xs))
      with (x ++ String newlineChar (join newline (x' :: xs)))%string.
    change (join newline (y :: y' :: ys))
      with (y ++ String newlineChar (join newline (y' :: ys)))%string.
    intros H. destruct (plain_line_inj _ _ _ _ Hx Hy H) as [-> H'].
    f_equal. apply IH; try done. simpl in Hlen |- *. lia.
Qed.

(** Boards without holes, with as many rows and the same serialization,
    have the same layout. *)
Lemma serializeBoard_layout board1 board2 :
  dense board1 -> dense board2 ->
  length board1 = length board2 ->
  serializeBoard board1 = serializeBoard board2 ->
  layout board1 = layout board2.
Proof.
  intros Hd1 Hd2 Hlen H. unfold serializeBoard in H.
  apply join_newline_inj in H.
  - unfold layout, dense in *. revert board2 Hd2 Hlen H.
    induction board1 as [|row1 board1 IH]; intros [|row2 board2] Hd2 Hlen; try done.
    cbn [forallb] in Hd1, Hd2.
    apply andb_true_iff in Hd1 as [Hr1 Hd1]. apply andb_true_iff in Hd2 as [Hr2 Hd2].
    cbn [map]. intros [= Hrow Hrest]. f_equal; [by apply rowString_inj|].
    apply IH; [done | done | simpl in Hlen; lia | done].
  - by rewrite !length_map.
  - apply Forall_forall. intros s (row & -> & _)%list_elem_of_fmap. apply rowString_plain.
  - apply Forall_forall. intros s (row & -> & _)%list_elem_of_fmap. apply rowString_plain.
Qed.

Lemma append_split s1 : forall s2 t1 t2,
  (s1 ++ t1)%string = (s2 ++ t2)%string ->
  (exists u, s1 = (s2 ++ u)%string /\ (u ++ t1)%string = t2)
  \/ (exists u, s2 = (s1 ++ u)%string /\ (u ++ t2)%string = t1).
Proof.
  induction s1 as [|ch s1 IH]; intros s2 t1 t2; simpl.
  - intros ->. right. by exists s2.
  - destruct s2 as [|ch' s2]; simpl.
    + intros <-. left. by exists (String ch s1).
    + intros [= -> H]. destruct (IH _ _ _ H) as [(u & -> & Hu)|(u & -> & Hu)].
      * left. by exists u.
      * right. by exists u.
Qed.

(** The suffix of a key tells the flag and the side. *)
Lemma key_suffix_inj s1 s2 isMax1 isMax2 player1 player2 :
  (s1 ++ showBool isMax1 ++ showPlayer player1)%string
  = (s2 ++ showBool isMax2 ++ showPlayer player2)%string ->
  s1 = s2 /\ isMax1 = isMax2 /\ player1 = player2.
Proof.
  intros H. apply append_split in H.
  destruct isMax1, isMax2, player1, player2; simpl in H;
    destruct H as [(u & -> & Hu)|(u & -> & Hu)];
    repeat (destruct u as [|? u]; simpl in Hu; try discriminate;
            try (injection Hu as ? Hu; subst));
    rewrite ?append_nil_r; done.
Qed.

Lemma layout_cell board1 board2 r c :
  layout board1 = layout board2 ->
  match cell board1 r c, cell board2 r c with
  | Ok p1, Ok p2 => cellChar p1 = cellChar p2
  | TypeError, TypeError => True
  | _, _ => False
  end.
Proof.
  intros H. unfold cell. destruct (r <? 0); [done|].
  assert (map slotChar <$> board1 !! Z.to_nat r = map slotChar <$> board2 !! Z.to_nat r) as Hr.
  { rewrite <- !list_lookup_fmap. unfold layout in H. by rewrite <- !map_fmap, H. }
  destruct (board1 !! Z.to_nat r) as [row1|], (board2 !! Z.to_nat r) as [row2|];
    simpl in Hr; try done.
  injection Hr as Hr. destruct (c <? 0); [done|].
  assert (slotChar <$> row1 !! Z.to_nat c = slotChar <$> row2 !! Z.to_nat c) as Hc.
  { rewrite <- !list_lookup_fmap. by rewrite <- !map_fmap, Hr. }
  destruct (row1 !! Z.to_nat c) as [s1|], (row2 !! Z.to_nat c) as [s2|]; simpl in *;
    try done.
  injection Hc as Hc. destruct s1 as [|p1], s2 as [|p2]; simpl in *; try done.
  - by destruct (cellChar_single p2) as (ch & E & _); rewrite E in Hc.
  - by destruct (cellChar_single p1) as (ch & E & _); rewrite E in Hc.
Qed.

Lemma cellChar_class p1 p2 :
  cellChar p1 = cellChar p2 ->
  match p1, p2 with
  | Some a, Some b => Piece.player a = Piece.player b /\ Piece.type a = Piece.type b
  | None, None => True
  | _, _ => False
  end.
Proof.
  destruct p1 as [[i1 [] [] pos1]|], p2 as [[i2 [] [] pos2]|]; simpl; intros H;
    try done; discriminate.
Qed.

Lemma tallyCell_layout size board1 board2 r acc c :
  layout board1 = layout board2 ->
  tallyCell size board1 r acc c = tallyCell size board2 r acc c.
Proof.
  intros H. unfold tallyCell. pose proof (layout_cell _ _ r c H) as Hcell.
  destruct (cell board1 r c) as [p1| |], (cell board2 r c) as [p2| |]; try done.
  apply cellChar_class in Hcell. destruct p1 as [a|], p2 as [b|]; try done.
  destruct Hcell as [Hp Ht]. simpl. unfold pieceValue. by rewrite Hp, Ht.
Qed.

Lemma forLoop_ext {A S} (f g : S -> A -> result S) xs s :
  (forall s x, f s x = g s x) -> forLoop f xs s = forLoop g xs s.
Proof.
  intros H. revert s. induction xs as [|x xs IH]; intros s; simpl; [done|].
  rewrite H. destruct (g s x); simpl; [apply IH | done | done].
Qed.

Lemma evaluateBoard_layout board1 board2 variant :
  layout board1 = layout board2 ->
  evaluateBoard board1 variant = evaluateBoard board2 variant.
Proof.
  intros H. unfold evaluateBoard. f_equal.
  apply forLoop_ext. intros acc r. apply forLoop_ext. intros acc' c.
  by apply tallyCell_layout.
Qed.

(** X8.  Two boards without holes and with as many rows get the same key
    in the transposition table only for the same orientation flag and the
    same side to move, and only if every cell holds the same side and rank
    on both; their static evaluations are then equal.  The boards of a game
    have no hole; boards with short rows can get one from a move, and then
    share keys. *)
Theorem tableKey_injective board1 board2 isMax1 isMax2 player1 player2 :
  dense board1 -> dense board2 ->
  length board1 = length board2 ->
  tableKey board1 isMax1 player1 = tableKey board2 isMax2 player2 ->
  isMax1 = isMax2 /\ player1 = player2
  /\ layout board1 = layout board2
  /\ forall variant, evaluateBoard board1 variant = evaluateBoard board2 variant.
Proof.
  intros Hd1 Hd2 Hlen H. apply key_suffix_inj in H as (Hs & -> & ->).
  pose proof (serializeBoard_layout _ _ Hd1 Hd2 Hlen Hs) as Hl.
  repeat split; try done. intros variant. by apply evaluateBoard_layout.
Qed.

Lemma tableKey_injective_witness :
  true = true /\ RED = RED
  /\ layout skirmishBoard = layout relabelledSkirmish
  /\ forall variant,
       evaluateBoard skirmishBoard variant = evaluateBoard relabelledSkirmish variant.
Proof.
  apply (tableKey_injective skirmishBoard relabelledSkirmish true true RED RED).
  - reflexivity.
  - reflexivity.
  - reflexivity.
  - vm_compute; reflexivity.
Defined.

(** ** The range of the evaluation *)

Lemma nth_Forall {A} (P : A -> Prop) (l : list A) (d : A) (n : nat) :
  Forall P l -> P d -> P (nth n l d).
Proof.
  intros Hl Hd. revert n. induction Hl as [|x l Hx Hl IH]; intros [|n]; simpl; auto.
Qed.

Lemma pst_bounds i j : 0 <= pst i j <= 50.
Proof.
  unfold pst. apply (nth_Forall (fun x => 0 <= x <= 50)); [|lia].
  apply (nth_Forall (Forall (fun x => 0 <= x <= 50))); [|constructor].
  unfold PST. repeat constructor; lia.
Qed.

Lemma pieceValue_bounds size r c p :
  0 <= r < 12 -> 880 <= pieceValue size r c p <= 3700.
Proof.
  intros Hr. unfold pieceValue, EVAL_KING, EVAL_PIECE, EVAL_BACK_ROW.
  pose proof (pst_bounds (Z.min r 7) (Z.min c 7)).
  pose proof (pst_bounds (7 - Z.min r 7) (7 - Z.min c 7)).
  destruct (Piece.player p), (Piece.type p); simpl;
    repeat match goal with
           | |- context [if ?b then _ else _] => destruct b
           end; lia.
Qed.

Lemma cellScore_bounds size r c p :
  0 <= r < 12 -> - 3725 <= cellScore size r c p <= 3725.
Proof.
  intros Hr. unfold cellScore, EVAL_MOBILITY. destruct p as [p|]; [|lia].
  pose proof (pieceValue_bounds size r c p Hr). destruct (bool_decide _); lia.
Qed.

Lemma sumZ_bounds f xs B :
  (forall x, x ∈ xs -> - B <= f x <= B) ->
  - (B * Z.of_nat (length xs)) <= sumZ f xs <= B * Z.of_nat (length xs).
Proof.
  unfold sumZ. induction xs as [|x xs IH]; intros H; simpl; [lia|].
  pose proof (H x ltac:(left)). pose proof (IH ltac:(intros; apply H; by right)). lia.
Qed.

(** X9.  The score of [evaluateBoard] is at most 3725 per cell of the grid
    in absolute value, hence at most 536400: far below 2^53, so every sum
    the function forms is an exact integer in JavaScript's numbers. *)
Theorem evaluateBoard_bounded board variant s :
  evaluateBoard board variant = Ok s ->
  let size := boardSize (getVariantRules variant) in
  - (3725 * size * size) <= s <= 3725 * size * size
  /\ 3725 * size * size <= 536400
  /\ 536400 < 2 ^ 53.
Proof.
  intros Hs size.
  pose proof (evaluateBoard_total board variant) as H. rewrite Hs in H. simpl in H.
  fold size in H.
  assert (size = 8 \/ size = 10 \/ size = 12) as Hsize by (subst size; destruct variant; auto).
  assert (- (3725 * size * size) <= boardTotal size board <= 3725 * size * size) as Hb.
  { unfold boardTotal.
    pose proof (sumZ_bounds
      (fun r => sumZ (fun c => cellScore size r c (pieceAt board r c)) (range size))
      (range size) (3725 * size)) as Hrows.
    rewrite length_range in Hrows. rewrite Z2Nat.id in Hrows by lia.
    replace (3725 * size * size) with (3725 * size * size) by done. apply Hrows.
    intros r Hr%elem_of_range.
    pose proof (sumZ_bounds (fun c => cellScore size r c (pieceAt board r c))
                  (range size) 3725) as Hcols.
    rewrite length_range in Hcols. rewrite Z2Nat.id in Hcols by lia. apply Hcols.
    intros c _. apply cellScore_bounds. lia. }
  split; [destruct (isLosingGoal _); lia|].
  split; [destruct Hsize as [->|[->| ->]]; lia | done].
Qed.

Lemma evaluateBoard_bounded_witness :
  - (3725 * 8 * 8) <= -5 <= 3725 * 8 * 8
  /\ 3725 * 8 * 8 <= 536400
  /\ 536400 < 2 ^ 53.
Proof.
  apply (evaluateBoard_bounded skirmishBoard ENGLISH (-5)).
  vm_compute; reflexivity.
Defined.

(** ** Entries of the table *)

Lemma exactFree_store key depth w s :
  exactFree s ->
  flagOf (Window.best w) (Window.alpha w) (Window.beta w) <> EXACT ->
  exactFree (fst (tt_set key
    (Entry.mk depth (Window.best w)
       (flagOf (Window.best w) (Window.alpha w) (Window.beta w))) s)).
Proof.
  intros Hs Hflag key' e. simpl. rewrite lookup_insert.
  case_decide as Hk; [by intros [= <-] | by apply Hs].
Qed.

Lemma alphaBeta_exactFree variant depth board alpha beta isMax player :
  isMax = bool_decide (player = RED) ->
  keeps exactFree (alphaBeta variant depth board alpha beta isMax player).
Proof.
  assert (forall f s, exactFree s -> exactFree (enter f s)) as Henter by done.
  assert (forall s, exactFree s -> exactFree (leave s)) as Hleave by done.
  revert board alpha beta isMax player.
  induction depth as [|depth IH]; intros board alpha beta isMax player Hside; cbn [alphaBeta];
    (apply framed_keeps_table; [done | done |]); cbv zeta.
  - apply keeps_bind; [apply keeps_tt_get|]. intros cached.
    destruct (probe _ _ _ _) as [score|[alpha' beta']]; [apply keeps_ret|].
    apply keeps_bind; [apply keeps_liftR, getValidMoves_fuel|]. intros moves.
    apply quiesce_keeps_table; [done | done | done | unfold quiesceBudget; lia..].
  - apply keeps_bind; [apply keeps_tt_get|]. intros cached.
    destruct (probe _ _ _ _) as [score|[alpha' beta']]; [apply keeps_ret|].
    apply keeps_bind; [apply keeps_liftR, getValidMoves_fuel|]. intros moves.
    destruct (length moves =? 0)%nat.
    + apply quiesce_keeps_table; [done | done | done | unfold quiesceBudget; lia..].
    + intros s Hs.
      set (loop := searchMoves variant _ isMax player board (sortByCaptures moves) _).
      unfold sbind, tt_size.
      assert (keeps exactFree loop) as Hloop.
      { apply (searchMoves_keeps (fun _ => exactFree) variant []). intros child a b. apply IH.
        subst isMax. by destruct player. }
      pose proof (alphaBeta_never_tags_exact variant
                    (fun child a b =>
                       alphaBeta variant depth child a b (negb isMax)
                         (if bool_decide (player = RED) then WHITE else RED))
                    isMax player board (sortByCaptures moves) alpha' beta' s) as Hflag.
      fold loop in Hflag. destruct (Hloop s Hs) as [Hs1 Hfuel].
      destruct (loop s) as [s1 [w| |]]; simpl in *; try done.
      destruct (_ <? STORE_BELOW); simpl; [|by split].
      split; [|done]. by apply exactFree_store.
Qed.

(** X10.  [getBestMove] never adds an entry tagged [EXACT] to the table:
    if the table holds none when it is called, it holds none when it
    returns. *)
Theorem getBestMove_stores_no_exact (gs : GameState.t) (s : SearchState) :
  exactFree s -> exactFree (fst (getBestMove gs s)).
Proof.
  intros Hs.
  assert (keeps exactFree (chooseMove gs)) as Hk.
  { unfold chooseMove. apply framed_keeps_table; [done | done |]. cbv zeta.
    apply keeps_bind; [apply keeps_liftR, getValidMoves_fuel|]. intros [|first moves];
      [apply keeps_ret|].
    apply keeps_bind; [|intros; apply keeps_ret].
    generalize (first :: moves) at 1 as todo. generalize first as bestMove.
    generalize (if bool_decide (GameState.turn gs = RED) then NegInf else PosInf) as bestScore.
    intros bestScore bestMove todo. revert bestMove bestScore.
    induction todo as [|move rest IH]; intros bestMove bestScore; simpl; [apply keeps_ret|].
    apply keeps_bind; [apply keeps_liftR, applyMove_fuel|]. intros child.
    apply keeps_bind; [apply alphaBeta_exactFree; by destruct (GameState.turn gs)|].
    intros score. destruct (_ || _); apply IH. }
  unfold getBestMove, sbind, tt_size. simpl.
  destruct (_ >? CLEAR_ABOVE); simpl; apply Hk; [|done].
  intros key e. simpl. by rewrite lookup_empty.
Qed.

Lemma getBestMove_stores_no_exact_witness :
  exactFree (fst (getBestMove openingGame emptyState)).
Proof.
  apply (getBestMove_stores_no_exact openingGame emptyState).
  intros key e H. vm_compute in H. discriminate.
Defined.

(** ** Material *)

Lemma sumZ_add f g xs : sumZ (fun x => f x + g x) xs = sumZ f xs + sumZ g xs.
Proof. unfold sumZ. induction xs as [|x xs IH]; simpl; [done | rewrite IH; lia]. Qed.

Lemma sumZ_point a v xs :
  NoDup xs ->
  sumZ (fun x => if bool_decide (x = a) then v else 0) xs
  = if bool_decide (a ∈ xs) then v else 0.
Proof.
  unfold sumZ. induction 1 as [|x xs Hx Hnd IH]; cbn [foldr].
  - case_bool_decide as E; [by apply elem_of_nil in E | done].
  - rewrite IH. destruct (decide (x = a)) as [->|Hxa].
    + rewrite bool_decide_eq_true_2 by done.
      rewrite (bool_decide_eq_false_2 (a ∈ xs)) by done.
      rewrite (bool_decide_eq_true_2 (a ∈ a :: xs)) by left. lia.
    + rewrite (bool_decide_eq_false_2 (x = a)) by done.
      rewrite (bool_decide_ext (a ∈ x :: xs) (a ∈ xs)); [lia|].
      rewrite elem_of_cons. split; [intros [->|?]; done | by right].
Qed.

Lemma NoDup_range n : NoDup (range n).
Proof.
  unfold range. rewrite map_fmap. apply NoDup_fmap_2; [|apply NoDup_seq].
  intros x y. lia.
Qed.

Lemma gridSum_ext n f g :
  (forall r c, 0 <= r < n -> 0 <= c < n -> f r c = g r c) -> gridSum n f = gridSum n g.
Proof.
  intros H. unfold gridSum. apply sumZ_ext. intros r Hr%elem_of_range.
  apply sumZ_ext. intros c Hc%elem_of_range. by apply H.
Qed.

Lemma gridSum_add n f g :
  gridSum n (fun r c => f r c + g r c) = gridSum n f + gridSum n g.
Proof.
  unfold gridSum. rewrite <- sumZ_add. apply sumZ_ext. intros r _. apply sumZ_add.
Qed.

Lemma gridSum_point n p v :
  0 <= Pos.r p < n -> 0 <= Pos.c p < n ->
  gridSum n (fun r c => if bool_decide (Pos.mk r c = p) then v else 0) = v.
Proof.
  intros Hr Hc. unfold gridSum.
  rewrite (sumZ_ext _ (fun r => if bool_decide (r = Pos.r p) then v else 0)).
  - rewrite sumZ_point by apply NoDup_range.
    by rewrite bool_decide_eq_true_2 by (by apply elem_of_range).
  - intros r _. destruct p as [pr pc]. simpl in *.
    rewrite (sumZ_ext _ (fun c => if bool_decide (c = pc)
                                  then (if bool_decide (r = pr) then v else 0) else 0)).
    + rewrite sumZ_point by apply NoDup_range.
      by rewrite bool_decide_eq_true_2 by (by apply elem_of_range).
    + intros c _. repeat case_bool_decide; simplify_eq; done.
Qed.

Lemma gridSum_cells n cells :
  NoDup cells ->
  Forall (fun p => 0 <= Pos.r p < n /\ 0 <= Pos.c p < n) cells ->
  gridSum n (fun r c => if bool_decide (Pos.mk r c ∈ cells) then 1 else 0)
  = Z.of_nat (length cells).
Proof.
  induction 1 as [|p cells Hp Hnd IH]; intros Hin.
  - rewrite (gridSum_ext _ _ (fun r c => 0 + 0)).
    + rewrite gridSum_add. unfold gridSum. simpl.
      assert (forall xs, sumZ (fun _ => sumZ (fun _ => 0) (range n)) xs = 0) as ->; [|done].
      assert (forall xs, sumZ (fun _ : Z => 0) xs = 0) as Hz.
      { induction xs as [|x xs IHx]; [done|]. unfold sumZ in *. simpl. by rewrite IHx. }
      intros xs. induction xs as [|x xs IHx]; [done|]. unfold sumZ in *. simpl.
      rewrite IHx. specialize (Hz (range n)). unfold sumZ in Hz. by rewrite Hz.
    + intros r c _ _. by rewrite bool_decide_eq_false_2 by (by intros ?%elem_of_nil).
  - apply Forall_cons in Hin as [[Hr Hc] Hin].
    rewrite (gridSum_ext _ _ (fun r c => (if bool_decide (Pos.mk r c = p) then 1 else 0)
                                         + (if bool_decide (Pos.mk r c ∈ cells) then 1 else 0))).
    + rewrite gridSum_add, gridSum_point, IH by done. simpl length. lia.
    + intros r c _ _. destruct (decide (Pos.mk r c = p)) as [->|Hne].
      * rewrite (bool_decide_eq_true_2 (p ∈ p :: cells)) by left.
        rewrite (bool_decide_eq_true_2 (p = p)) by done.
        by rewrite (bool_decide_eq_false_2 (p ∈ cells)) by done.
      * rewrite (bool_decide_eq_false_2 (_ = p)) by done.
        rewrite (bool_decide_ext (_ ∈ p :: cells) (Pos.mk r c ∈ cells)); [done|].
        rewrite elem_of_cons. split; [intros [?|?]; done | by right].
Qed.

Lemma confined_grid rules f : confined rules (grid (boardSize rules) f).
Proof.
  intros r c p H%pieceAt_Some. apply cell_grid in H as (Hr & Hc & _).
  by apply inGrid_true.
Qed.

(** A move of a piece of [player] with distinct captures keeps the number
    of pieces of [player], takes exactly its captures from the other side
    and leaves no piece outside the grid. *)
Lemma applyMove_material_moveOf board player variant m board' :
  wellFormed (getVariantRules variant) board ->
  confined (getVariantRules variant) board ->
  moveOf board player (getVariantRules variant) m ->
  NoDup (capturedCells m) ->
  applyMove board m variant = Ok board' ->
  material (getVariantRules variant) board' player
  = material (getVariantRules variant) board player
  /\ material (getVariantRules variant) board' (opponent player)
     = material (getVariantRules variant) board (opponent player) - captureCount m
  /\ confined (getVariantRules variant) board'.
Proof.
  intros Hwf Hconf Hmove Hnd Happly.
  set (rules := getVariantRules variant) in *.
  destruct (moveOf_source _ _ _ _ Hwf Hmove) as (piece & Hsrc & Hside & Hfacts).
  assert (inGrid rules (Pos.r (Move.to m)) (Pos.c (Move.to m)) = true
          /\ pieceOn board (Move.to m) = None
          /\ captureCount m = Z.of_nat (length (capturedCells m))
          /\ Forall (fun cp => exists mp, pieceOn board cp = Some mp
                                          /\ Piece.player mp <> player) (capturedCells m))
    as (Hto & Hempty & Hcount & Hcaps).
  { unfold pieceOn, capturedCells, captureCount.
    destruct Hfacts as [(_ & Hin & Hempty & ext & Hc & _ & Hcaps)|(_ & Hc & Hin & Hempty & _)];
      rewrite Hc; simpl.
    - split; [done|]. split; [by rewrite (cell_pieceAt _ _ _ _ Hempty)|]. split; [done|].
      eapply Forall_impl; [exact Hcaps|].
      intros cp (mp & Hcell & Hother & _). exists mp.
      split; [by apply pieceAt_Some | congruence].
    - split; [done|]. split; [by rewrite (cell_pieceAt _ _ _ _ Hempty)|]. split; [done|].
      constructor. }
  pose proof (Hconf _ _ _ Hsrc) as Hfrom.
  apply inGrid_true in Hto as Hto', Hfrom as Hfrom'.
  pose proof (applyMove_pieceAt _ _ _ _ _ Happly Hsrc ltac:(lia)) as Hcells.
  rewrite Forall_forall in Hcaps.
  assert (forall r c, Pos.mk r c ∈ capturedCells m ->
            exists mp, pieceAt board r c = Some mp /\ Piece.player mp <> player) as Hcap.
  { intros r c Hin. by apply (Hcaps _ Hin). }
  unfold pieceOn in Hsrc, Hempty.
  assert (Forall (fun p => 0 <= Pos.r p < boardSize rules /\ 0 <= Pos.c p < boardSize rules)
                 (capturedCells m)) as Hgrid.
  { apply Forall_forall. intros [r c] Hin. destruct (Hcap r c Hin) as (mp & Hmp & _).
    by apply inGrid_true, (Hconf _ _ _ Hmp). }
  split; [|split].
  - unfold material.
    pose proof (gridSum_point (boardSize rules) (Move.from m) 1 ltac:(lia) ltac:(lia)) as E1.
    pose proof (gridSum_point (boardSize rules) (Move.to m) 1 ltac:(lia) ltac:(lia)) as E2.
    match goal with
    | |- ?a = ?b =>
        enough (a + gridSum (boardSize rules)
                      (fun r c => if bool_decide (Pos.mk r c = Move.from m) then 1 else 0)
                = b + gridSum (boardSize rules)
                        (fun r c => if bool_decide (Pos.mk r c = Move.to m) then 1 else 0))
          as E; [rewrite E1, E2 in E; lia|]
    end.
    rewrite <- !gridSum_add. apply gridSum_ext. intros r c _ _. rewrite Hcells.
    destruct (Move.from m) as [fr fc], (Move.to m) as [tr tc]. simpl in *.
    repeat case_bool_decide; simplify_eq; simpl;
      try (destruct (Hcap _ _ ltac:(eassumption)) as (mp & Hmp & Hother); rewrite ?Hmp);
      rewrite ?Hsrc, ?Hempty; simpl;
      repeat case_bool_decide; try done; try lia; try congruence.
  - unfold material. rewrite Hcount, <- (gridSum_cells (boardSize rules)) by done.
    apply Z.add_move_r. rewrite <- gridSum_add. apply gridSum_ext. intros r c _ _.
    rewrite Hcells.
    destruct (Move.from m) as [fr fc], (Move.to m) as [tr tc]. simpl in *.
    repeat case_bool_decide; simplify_eq; simpl;
      try (destruct (Hcap _ _ ltac:(eassumption)) as (mp & Hmp & Hother); rewrite ?Hmp);
      rewrite ?Hsrc, ?Hempty; simpl; unfold opponent in *;
      repeat case_bool_decide; try done; try lia; try congruence;
      try (destruct (Piece.player mp), (Piece.player piece); done).
  - intros r c p. rewrite Hcells.
    destruct (bool_decide (Pos.mk r c ∈ capturedCells m)); [done|].
    destruct (bool_decide (Pos.mk r c = Move.from m)); [done|].
    case_bool_decide as Eto; [|apply Hconf].
    intros _. by rewrite <- Eto in Hto.
Qed.

(** X11.  Playing a move returned by [getValidMoves] on a well-formed board
    without pieces outside the grid keeps the number of pieces of the mover,
    lowers the number of pieces of the other side by exactly the number of
    captures of the move, and leaves no piece outside the grid. *)
Theorem applyMove_material board player variant moves m board' :
  wellFormed (getVariantRules variant) board ->
  confined (getVariantRules variant) board ->
  getValidMoves board player variant = Ok moves ->
  m ∈ moves ->
  applyMove board m variant = Ok board' ->
  material (getVariantRules variant) board' player
  = material (getVariantRules variant) board player
  /\ material (getVariantRules variant) board' (opponent player)
     = material (getVariantRules variant) board (opponent player) - captureCount m
  /\ confined (getVariantRules variant) board'.
Proof.
  intros Hwf Hconf Hres Hm Happly.
  set (rules := getVariantRules variant) in *.
  assert (NoDup (capturedCells m)) as Hnd.
  { pose proof (getValidMoves_validMoves board player variant) as H.
    rewrite Hres in H. destruct H as (js & ss & _ & Hj & Hs & Hcap & Hstep).
    destruct js as [|j js].
    - rewrite (Hstep eq_refl) in Hm. rewrite Forall_forall in Hs.
      by apply stepMove_NoDup, Hs.
    - rewrite (Hcap ltac:(done)) in Hm.
      pose proof (captureFilters_keeps rules board _ _ Hj) as Hall.
      rewrite Forall_forall in Hall. eapply captureMove_NoDup. by apply Hall. }
  pose proof (getValidMoves_moveOf _ _ _ _ Hres) as Hall. rewrite Forall_forall in Hall.
  by eapply applyMove_material_moveOf; [| |apply Hall| |].
Qed.

Lemma applyMove_material_witness :
  material (getVariantRules ENGLISH) skirmishAfter RED
  = material (getVariantRules ENGLISH) skirmishBoard RED
  /\ material (getVariantRules ENGLISH) skirmishAfter (opponent RED)
     = material (getVariantRules ENGLISH) skirmishBoard (opponent RED)
       - captureCount skirmishJump
  /\ confined (getVariantRules ENGLISH) skirmishAfter.
Proof.
  apply (applyMove_material skirmishBoard RED ENGLISH [skirmishJump] skirmishJump skirmishAfter).
  - by apply skirmish_wellFormed.
  - apply (confined_grid (getVariantRules ENGLISH)).
  - vm_compute; reflexivity.
  - left.
  - vm_compute; reflexivity.
Defined.

(** ** The component *)

Lemma createInitialBoard_grid variant :
  createInitialBoard variant
  = Ok (grid (boardSize (getVariantRules variant)) (initialCell variant)).
Proof. destruct variant; vm_compute; reflexivity. Qed.

(** RED has a move in the initial position of every variant. *)
Lemma initial_moves variant :
  exists move moves,
    getValidMoves (grid (boardSize (getVariantRules variant)) (initialCell variant))
      RED variant = Ok (move :: moves).
Proof. destruct variant; eexists _, _; vm_compute; reflexivity. Qed.

Lemma handleVariantChange_inv v st st' :
  handleVariantChange v st = Ok st' ->
  App.variant st' = v /\ App.mode st' = App.mode st /\ App.winStreak st' = App.winStreak st
  /\ App.gameState st'
     = GameState.mk (grid (boardSize (getVariantRules v)) (initialCell v)) RED None []
         (GameState.aiLevel (App.gameState st)) v (GameState.mode (App.gameState st)).
Proof.
  unfold handleVariantChange. rewrite createInitialBoard_grid. simpl. by intros [= <-].
Qed.

Lemma handleMove_inv move st st' :
  handleMove move st = Ok st' ->
  let gs := App.gameState st in
  exists newBoard nextMoves,
    applyMove (GameState.board gs) move (App.variant st) = Ok newBoard
    /\ getValidMoves newBoard (opponent (GameState.turn gs)) (App.variant st) = Ok nextMoves
    /\ App.variant st' = App.variant st /\ App.mode st' = App.mode st
    /\ (0 <= App.winStreak st -> 0 <= App.winStreak st')
    /\ GameState.board (App.gameState st') = newBoard
    /\ GameState.turn (App.gameState st') = opponent (GameState.turn gs)
    /\ GameState.history (App.gameState st') = GameState.history gs ++ [move]
    /\ GameState.variant (App.gameState st') = GameState.variant gs
    /\ GameState.winner (App.gameState st')
       = match nextMoves with
         | [] => Some (Won (if isLosingGoal (getVariantRules (App.variant st))
                            then opponent (GameState.turn gs) else GameState.turn gs))
         | _ :: _ => None
         end.
Proof.
  unfold handleMove, opponent. simpl.
  destruct (applyMove _ _ _) as [newBoard| |]; simpl; try done.
  destruct (getValidMoves newBoard _ _) as [nextMoves| |] eqn:Hnext; simpl; try done.
  intros [= <-]. exists newBoard, nextMoves.
  destruct nextMoves; simpl; [|done].
  repeat (split; [done|]). split; [|done]. intros Hs.
  repeat match goal with
         | |- context [match ?x with _ => _ end] => destruct x
         end; lia.
Qed.

Lemma handleMove_ready move st :
  engineReady st ->
  moveOf (GameState.board (App.gameState st)) (GameState.turn (App.gameState st))
    (getVariantRules (App.variant st)) move ->
  exists st', handleMove move st = Ok st' /\ engineReady st'.
Proof.
  intros (Hwf & Hvar & Hstreak) Hmove.
  destruct (applyMove_moveOf _ _ _ _ Hwf Hmove) as (newBoard & Happly & Hwf').
  destruct (getValidMoves_total newBoard (opponent (GameState.turn (App.gameState st)))
              _ Hwf') as [nextMoves Hnext].
  destruct (handleMove move st) as [st'| |] eqn:E.
  - exists st'. split; [done|].
    apply handleMove_inv in E
      as (b & ms & Hb & _ & Hv & _ & Hs & Hboard & _ & _ & Hgv & _).
    rewrite Happly in Hb. injection Hb as <-.
    split; [by rewrite Hv, Hboard|]. split; [congruence | by apply Hs].
  - exfalso. revert E. unfold handleMove. fold (opponent (GameState.turn (App.gameState st))).
    by rewrite Happly; simpl; rewrite Hnext.
  - exfalso. revert E. unfold handleMove. fold (opponent (GameState.turn (App.gameState st))).
    by rewrite Happly; simpl; rewrite Hnext.
Qed.

Lemma aiTurn_cases st s st' :
  engineReady st ->
  snd (aiTurn st s) = Ok st' ->
  exists moves,
    currentValidMoves st = Ok moves
    /\ ((exists move, move ∈ moves /\ handleMove move st = Ok st')
        \/ (moves = []
            /\ App.variant st' = App.variant st
            /\ GameState.turn (App.gameState st') = GameState.turn (App.gameState st)
            /\ GameState.board (App.gameState st') = GameState.board (App.gameState st)
            /\ GameState.history (App.gameState st') = GameState.history (App.gameState st)
            /\ GameState.variant (App.gameState st') = GameState.variant (App.gameState st)
            /\ App.winStreak st' = App.winStreak st
            /\ GameState.winner (App.gameState st')
               = Some (Won (if isLosingGoal (getVariantRules (App.variant st))
                            then WHITE else RED)))).
Proof.
  intros (Hwf & Hvar & _) Hai.
  destruct (getValidMoves_total _ (GameState.turn (App.gameState st)) _ Hwf) as [moves Hres].
  exists moves. split; [done|]. revert Hai. unfold aiTurn, sbind. cbv zeta.
  match goal with |- context [getBestMove ?g s] => set (gs' := g) end.
  assert (yields (chosenFrom moves) (getBestMove gs')) as Hy.
  { apply getBestMove_yields; subst gs'; simpl; by rewrite Hvar. }
  destruct (Hy s) as (a & Ha & Hchosen). destruct (getBestMove gs' s) as [s1 res].
  simpl in Ha. subst res. destruct a as [move|]; simpl in *.
  - intros E. left. by exists move.
  - intros [= <-]. right. by simpl.
Qed.

Lemma aiTurn_ready st s :
  engineReady st -> exists st', snd (aiTurn st s) = Ok st' /\ engineReady st'.
Proof.
  intros Hready. pose proof Hready as (Hwf & Hvar & Hstreak).
  destruct (getValidMoves_total _ (GameState.turn (App.gameState st)) _ Hwf) as [moves Hres].
  unfold aiTurn, sbind. cbv zeta.
  match goal with |- context [getBestMove ?g s] => set (gs' := g) end.
  assert (yields (chosenFrom moves) (getBestMove gs')) as Hy.
  { apply getBestMove_yields; subst gs'; simpl; by rewrite Hvar. }
  destruct (Hy s) as (a & Ha & Hchosen). destruct (getBestMove gs' s) as [s1 res].
  simpl in Ha. subst res. destruct a as [move|]; simpl in *.
  - apply handleMove_ready; [done|].
    pose proof (getValidMoves_moveOf _ _ _ _ Hres) as Hall. rewrite Forall_forall in Hall.
    by apply Hall.
  - eexists. split; [done|]. by split.
Qed.

Lemma cell_Ok board r c :
  0 <= r < Z.of_nat (length board) -> cell board r c = Ok (pieceAt board r c).
Proof.
  intros Hr. unfold pieceAt. destruct (cell board r c) eqn:E; [done| |].
  - by apply cell_raises in E.
  - by apply cell_fuel in E.
Qed.

Lemma editBoard_ready rules board r c :
  wellFormed rules board ->
  inGrid rules r c = true ->
  exists board',
    editBoard r c board = Ok board'
    /\ wellFormed rules board'
    /\ forall r' c',
         pieceAt board' r' c'
         = if bool_decide (r' = r /\ c' = c) then editedCell r c (pieceAt board r c)
           else pieceAt board r' c'.
Proof.
  intros [Hlen Hpos] [Hr Hc]%inGrid_true.
  unfold editBoard. rewrite cell_Ok by lia. simpl.
  destruct (setCell_Ok board r c (editedCell r c (pieceAt board r c)) ltac:(lia))
    as [board' Hset].
  exists board'. split; [done|].
  assert (forall r' c',
            pieceAt board' r' c'
            = if bool_decide (r' = r /\ c' = c) then editedCell r c (pieceAt board r c)
              else pieceAt board r' c') as Hcells.
  { intros r' c'. apply (pieceAt_setCell _ _ _ _ _ r' c' Hset). left. lia. }
  split; [|done]. split; [by rewrite (length_setCell _ _ _ _ _ Hset)|].
  intros r' c' p Hcell%pieceAt_Some. rewrite Hcells in Hcell.
  case_bool_decide as E; [|by apply Hpos, pieceAt_Some].
  destruct E as [-> ->]. unfold editedCell in Hcell.
  destruct (pieceAt board r c) as [p0|] eqn:E0; [|by injection Hcell as <-].
  apply pieceAt_Some, Hpos in E0.
  destruct (Piece.player p0), (Piece.type p0); simplify_eq; done.
Qed.

Lemma editorClick_ready r c st st' :
  engineReady st ->
  inGrid (getVariantRules (App.variant st)) r c = true ->
  editorClick r c st = Ok st' ->
  engineReady st'.
Proof.
  intros (Hwf & Hvar & Hstreak) Hin. unfold editorClick.
  destruct (GameState.winner _); [by intros [= <-]|].
  destruct (editBoard_ready _ _ _ _ Hwf Hin) as (board' & -> & Hwf' & _). simpl.
  by intros [= <-].
Qed.

Lemma handleVariantChange_ready v st st' :
  0 <= App.winStreak st -> handleVariantChange v st = Ok st' -> engineReady st'.
Proof.
  intros Hs (Hv & _ & Hw & Hgs)%handleVariantChange_inv.
  unfold engineReady. rewrite Hv, Hw, Hgs. simpl.
  split; [apply initial_wellFormed | done].
Qed.

Lemma initialApp_opening : initialApp = Ok openingApp.
Proof. vm_compute. reflexivity. Qed.

Lemma reachable_ready st : reachable st -> engineReady st.
Proof.
  induction 1 as [st Hinit|v st st' _ IH Hv|newMode st st' _ IH Hm|lv st _ IH
                 |move moves st st' _ IH Hmoves Hin Hmove|s st st' _ IH _ Hai
                 |r c st st' _ IH _ Hin Hedit].
  - rewrite initialApp_opening in Hinit. injection Hinit as <-.
    split; [apply (initial_wellFormed ENGLISH) | done].
  - eapply handleVariantChange_ready; [|exact Hv]. apply IH.
  - destruct IH as (Hwf & Hvar & Hs). unfold handleModeChange in Hm.
    destruct newMode; [by eapply handleVariantChange_ready; [|exact Hm]|..];
      injection Hm as <-; by split.
  - exact IH.
  - pose proof (getValidMoves_moveOf _ _ _ _ Hmoves) as Hall. rewrite Forall_forall in Hall.
    destruct (handleMove_ready move st IH (Hall _ Hin)) as (st2 & E & Hready).
    rewrite Hmove in E. by injection E as <-.
  - destruct (aiTurn_ready st s IH) as (st2 & E & Hready).
    rewrite Hai in E. by injection E as <-.
  - by eapply editorClick_ready.
Qed.

(** ** Boards without holes *)

Lemma cell_lookup board r c p :
  cell board r c = Ok (Some p) <->
  0 <= r /\ 0 <= c
  /\ exists row, board !! Z.to_nat r = Some row
                 /\ row !! Z.to_nat c = Some (Held (Some p)).
Proof.
  unfold cell. destruct (Z.ltb_spec r 0) as [Hr|Hr].
  { split; [done | lia]. }
  destruct (board !! Z.to_nat r) as [row|] eqn:Erow.
  - destruct (Z.ltb_spec c 0) as [Hc|Hc].
    { split; [done | lia]. }
    split.
    + intros [= E]. split; [done|]. split; [done|]. exists row. split; [done|].
      destruct (row !! Z.to_nat c) as [[|[?|]]|]; simpl in E; by simplify_eq.
    + intros (_ & _ & row' & [= <-] & ->). done.
  - split; [done|]. by intros (_ & _ & row' & ? & _).
Qed.

Lemma forallb_replicate {A} (f : A -> bool) n x :
  f x = true -> forallb f (replicate n x) = true.
Proof. intros Hx. induction n as [|n IH]; simpl; [done | by rewrite Hx]. Qed.

Lemma dense_shape board : dense board <-> forallb (forallb id) (shape board) = true.
Proof.
  unfold dense, shape.
  assert (forall row : list (Slot Piece.t), forallb id (map held row) = forallb held row)
    as Hrow.
  { induction row as [|s row IH]; simpl; [done | by rewrite IH]. }
  induction board as [|row board IH]; simpl; [done|].
  rewrite Hrow, !andb_true_iff. by rewrite IH.
Qed.

(** A full board has no hole. *)
Lemma full_dense rules board : full rules board -> dense board.
Proof.
  intros H. apply dense_shape. rewrite H. apply forallb_replicate.
  by apply forallb_replicate.
Qed.

Lemma map_constant {A B} (y : B) (xs : list A) :
  map (fun _ => y) xs = replicate (length xs) y.
Proof. induction xs as [|x xs IH]; simpl; [done | by rewrite IH]. Qed.

Lemma grid_full rules f : full rules (grid (boardSize rules) f).
Proof.
  unfold full, grid, shape. rewrite map_map.
  rewrite <- (length_range (boardSize rules)).
  rewrite <- (map_constant (replicate _ true) (range (boardSize rules))).
  apply map_ext. intros r. rewrite map_map. simpl. apply map_constant.
Qed.

(** On a full board every cell of the grid is held. *)
Lemma full_slotHeld rules board r c :
  full rules board -> inGrid rules r c = true -> slotHeld board r c = true.
Proof.
  intros Hfull (Hr & Hc)%inGrid_true. unfold slotHeld. rewrite Hfull.
  rewrite lookup_replicate_2 by lia. rewrite lookup_replicate_2 by lia.
  simpl. rewrite andb_true_r. apply andb_true_iff. split; apply Z.leb_le; lia.
Qed.

(** A cell that holds a piece is held. *)
Lemma cell_slotHeld board r c p : cell board r c = Ok (Some p) -> slotHeld board r c = true.
Proof.
  intros (Hr & Hc & row & Hrow & Hp)%cell_lookup. unfold slotHeld, shape.
  rewrite map_fmap, list_lookup_fmap, Hrow. simpl.
  rewrite map_fmap, list_lookup_fmap, Hp. simpl.
  rewrite andb_true_r. apply andb_true_iff. split; apply Z.leb_le; lia.
Qed.

(** A write on a held index leaves the shape of the rows as it is. *)
Lemma setCell_shape board r c v board' :
  slotHeld board r c = true -> setCell board r c v = Ok board' -> shape board' = shape board.
Proof.
  unfold slotHeld, shape, setCell.
  intros [[Hr%Z.leb_le Hc%Z.leb_le]%andb_true_iff H]%andb_true_iff.
  rewrite map_fmap, list_lookup_fmap in H.
  destruct (Z.ltb_spec r 0); [lia|].
  destruct (board !! Z.to_nat r) as [row|] eqn:Hrow; [|done]. simpl in H.
  rewrite map_fmap, list_lookup_fmap in H.
  destruct (row !! Z.to_nat c) as [s|] eqn:Hs; [|done]. simpl in H.
  intros [= <-]. unfold writeRow. destruct (Z.ltb_spec c 0); [lia|].
  pose proof (lookup_lt_Some _ _ _ Hs) as Hlt.
  destruct (Z.ltb_spec c (Z.of_nat (length row))); [|lia].
  rewrite !map_fmap, list_fmap_insert, map_fmap, list_fmap_insert. simpl.
  rewrite (list_insert_id (held <$> row)) by (by rewrite list_lookup_fmap, Hs; simpl; f_equal).
  apply list_insert_id. by rewrite list_lookup_fmap, Hrow.
Qed.

Lemma slotHeld_shape board board' r c :
  shape board' = shape board -> slotHeld board' r c = slotHeld board r c.
Proof. unfold slotHeld. by intros ->. Qed.

Lemma clear_shape caps : forall board board',
  Forall (fun cp => slotHeld board (Pos.r cp) (Pos.c cp) = true) caps ->
  forLoop (fun b cp => setCell b (Pos.r cp) (Pos.c cp) None) caps board = Ok board' ->
  shape board' = shape board.
Proof.
  induction caps as [|cp caps IH]; intros board board' Hall; cbn [forLoop].
  - by intros [= <-].
  - inversion Hall as [|? ? Hcp Hrest]; subst.
    destruct (setCell board (Pos.r cp) (Pos.c cp) None) as [b1| |] eqn:E1;
      cbn [rbind]; try done.
    pose proof (setCell_shape _ _ _ _ _ Hcp E1) as H1. intros H.
    rewrite <- H1. apply (IH b1); [|done].
    eapply Forall_impl; [exact Hrest|]. intros cp' Hcp'. simpl.
    by rewrite (slotHeld_shape _ _ _ _ H1).
Qed.

(** A move of a piece of a well-formed full board writes on held indices
    only: the board it makes has the same shape, and is full. *)
Lemma applyMove_full board player variant m board' :
  wellFormed (getVariantRules variant) board ->
  full (getVariantRules variant) board ->
  moveOf board player (getVariantRules variant) m ->
  applyMove board m variant = Ok board' ->
  full (getVariantRules variant) board'.
Proof.
  intros Hwf Hfull Hm Happly.
  destruct (moveOf_source _ _ _ _ Hwf Hm) as (piece & Hsrc & _ & Hfacts).
  assert (slotHeld board (Pos.r (Move.to m)) (Pos.c (Move.to m)) = true
          /\ Forall (fun cp => slotHeld board (Pos.r cp) (Pos.c cp) = true) (capturedCells m))
    as [Hto Hcaps].
  { unfold capturedCells.
    destruct Hfacts as [(_ & Hin & _ & ext & Hc & _ & Hcaps)|(_ & Hc & Hin & _)];
      (split; [by eapply full_slotHeld|]); rewrite Hc; simpl; [|constructor].
    eapply Forall_impl; [exact Hcaps|]. intros cp (mp & Hcell & _).
    by eapply cell_slotHeld. }
  unfold pieceOn in Hsrc. apply pieceAt_Some in Hsrc as Hcell.
  pose proof (cell_slotHeld _ _ _ _ Hcell) as Hfrom.
  unfold full. enough (shape board' = shape board) as -> by exact Hfull.
  revert Happly. unfold applyMove. rewrite Hcell. cbn [rbind].
  destruct (setCell board _ _ (Some _)) as [b1| |] eqn:E1; cbn [rbind]; try done.
  pose proof (setCell_shape _ _ _ _ _ Hto E1) as H1.
  destruct (setCell b1 _ _ None) as [b2| |] eqn:E2; cbn [rbind]; try done.
  assert (shape b2 = shape b1) as H2.
  { eapply setCell_shape; [|exact E2]. by rewrite (slotHeld_shape _ _ _ _ H1). }
  unfold capturedCells in Hcaps.
  destruct (Move.captures m) as [caps|]; [|intros [= <-]; by rewrite H2].
  intros Hclear. rewrite <- H1, <- H2. eapply clear_shape; [|exact Hclear].
  eapply Forall_impl; [exact Hcaps|]. intros cp Hcp. simpl.
  by rewrite (slotHeld_shape _ _ _ _ H2), (slotHeld_shape _ _ _ _ H1).
Qed.

(** Every board that the component reaches without puzzles is full: the
    boards of [createInitialBoard] are, and moves and clicks on squares of
    the grid write on held indices. *)
Lemma reachable_full st :
  reachable st ->
  full (getVariantRules (App.variant st)) (GameState.board (App.gameState st)).
Proof.
  induction 1 as [st Hinit|v st st' _ IH Hv|newMode st st' _ IH Hm|lv st _ IH
                 |move moves st st' Hst IH Hmoves Hin Hmove|s st st' Hst IH _ Hai
                 |r c st st' Hst IH _ Hin Hedit].
  - rewrite initialApp_opening in Hinit. injection Hinit as <-.
    apply (grid_full (getVariantRules ENGLISH)).
  - apply handleVariantChange_inv in Hv as (-> & _ & _ & ->). apply grid_full.
  - unfold handleModeChange in Hm. destruct newMode; [|by injection Hm as <-..].
    apply handleVariantChange_inv in Hm as (-> & _ & _ & ->). apply grid_full.
  - exact IH.
  - apply reachable_ready in Hst as (Hwf & _).
    pose proof (getValidMoves_moveOf _ _ _ _ Hmoves) as Hall. rewrite Forall_forall in Hall.
    apply handleMove_inv in Hmove as (b & ms & Hb & _ & -> & _ & _ & -> & _).
    by eapply applyMove_full; [| |apply (Hall _ Hin)|].
  - apply reachable_ready in Hst as Hready. pose proof Hready as (Hwf & _).
    destruct (aiTurn_cases _ _ _ Hready Hai)
      as (moves & Hmoves & [(move & Hin & Hmove)|(_ & -> & _ & -> & _)]); [|exact IH].
    pose proof (getValidMoves_moveOf _ _ _ _ Hmoves) as Hall. rewrite Forall_forall in Hall.
    apply handleMove_inv in Hmove as (b & ms & Hb & _ & -> & _ & _ & -> & _).
    by eapply applyMove_full; [| |apply (Hall _ Hin)|].
  - revert Hedit. unfold editorClick. destruct (GameState.winner _); [by intros [= <-]|].
    unfold editBoard.
    destruct (cell _ r c) as [current| |]; cbn [rbind]; try done.
    destruct (setCell _ r c _) as [b1| |] eqn:E1; cbn [rbind]; try done.
    intros [= <-]. simpl. unfold full.
    rewrite (setCell_shape _ _ _ _ _ (full_slotHeld _ _ _ _ IH Hin) E1). exact IH.
Qed.

(** [raggedBoard] is well formed: it has the eight rows of the grid, and
    its man records its cell. *)
Lemma ragged_wellFormed : wellFormed (getVariantRules ENGLISH) raggedBoard.
Proof.
  split; [done|]. intros r c p (Hr & Hc & row & Hrow & Hp)%cell_lookup.
  unfold raggedBoard in Hrow.
  destruct (Z.to_nat r) as [|[|[|[|[|[|[|[|n]]]]]]]] eqn:Er; simpl in Hrow;
    try discriminate; injection Hrow as <-; try done.
  destruct (Z.to_nat c) as [|[|[|n]]] eqn:Ec; simpl in Hp; try discriminate.
  injection Hp as <-. simpl. f_equal; lia.
Qed.

(** Without the hypothesis on holes the key does not tell the board.  On
    [raggedBoard] the man has two steps, to (4, 1) and to (4, 3); row 4 has
    no index, either step leaves holes before the man, and the two boards
    print alike, though they are scored differently. *)
Example ragged_boards_share_key :
  getValidMoves raggedBoard RED ENGLISH = Ok [raggedRight; raggedLeft]
  /\ exists left right,
       applyMove raggedBoard raggedLeft ENGLISH = Ok left
       /\ applyMove raggedBoard raggedRight ENGLISH = Ok right
       /\ length left = length right
       /\ serializeBoard left = serializeBoard right
       /\ evaluateBoard left ENGLISH <> evaluateBoard right ENGLISH.
Proof.
  split; [vm_compute; reflexivity|]. eexists _, _.
  split; [vm_compute; reflexivity|]. split; [vm_compute; reflexivity|].
  split; [reflexivity|]. split; [vm_compute; reflexivity|]. vm_compute. discriminate.
Qed.

(** X12.  In every state that the component reaches without puzzles the
    board is well formed for the variant in play and [gameState] carries
    that variant, so that the engine does not throw: [currentValidMoves]
    returns, [handleMove] returns on each of its moves, and the turn of the
    engine returns whatever the table holds. *)
Theorem reachable_engine_returns st :
  reachable st ->
  engineReady st
  /\ (exists moves,
        currentValidMoves st = Ok moves
        /\ forall move, move ∈ moves -> exists st', handleMove move st = Ok st')
  /\ forall s, exists st', snd (aiTurn st s) = Ok st'.
Proof.
  intros Hready%reachable_ready. split; [done|]. split.
  - pose proof Hready as (Hwf & _).
    destruct (getValidMoves_total _ (GameState.turn (App.gameState st)) _ Hwf)
      as [moves Hres].
    exists moves. split; [done|]. intros move Hin.
    pose proof (getValidMoves_moveOf _ _ _ _ Hres) as Hall. rewrite Forall_forall in Hall.
    destruct (handleMove_ready move st Hready (Hall _ Hin)) as (st' & E & _). eauto.
  - intros s. destruct (aiTurn_ready st s Hready) as (st' & E & _). eauto.
Qed.

Lemma reachable_engine_returns_witness :
  engineReady openingApp
  /\ (exists moves,
        currentValidMoves openingApp = Ok moves
        /\ forall move, move ∈ moves -> exists st', handleMove move openingApp = Ok st')
  /\ forall s, exists st', snd (aiTurn openingApp s) = Ok st'.
Proof.
  apply (reachable_engine_returns openingApp).
  apply reach_initial. vm_compute; reflexivity.
Defined.

Lemma played_reachable st : played st -> reachable st.
Proof.
  induction 1;
    [by apply reach_initial | by eapply reach_variant | by eapply reach_mode
    | by apply reach_level | by eapply reach_move | by eapply reach_ai].
Qed.

Lemma opponent_involutive player : opponent (opponent player) = player.
Proof. by destruct player. Qed.

Lemma handleMove_scoreKept move st st' :
  (GameState.turn (App.gameState st) = RED
   <-> Nat.even (length (GameState.history (App.gameState st))) = true) ->
  handleMove move st = Ok st' ->
  scoreKept st'.
Proof.
  intros Hparity (newBoard & nextMoves & _ & Hnext & Hv & _ & _ & Hb & Ht & Hh & _ & Hw)
    %handleMove_inv.
  unfold scoreKept, currentValidMoves. rewrite Hv, Hb, Ht, Hh, Hw, Hnext. split.
  - rewrite length_app, Nat.add_1_r, Nat.even_succ, <- Nat.negb_even.
    destruct (Nat.even _), (GameState.turn _); unfold opponent; simpl;
      intuition congruence.
  - destruct nextMoves as [|next rest]; [|by exists next, rest].
    split; [done|]. by rewrite opponent_involutive.
Qed.

(** The moves of [playFirst] are moves of a game. *)
Lemma playFirst_played n : forall st, played st -> played (playFirst n st).
Proof.
  induction n as [|n IH]; intros st Hp; [exact Hp|]. cbn [playFirst].
  destruct (currentValidMoves st) as [[|move moves]| |] eqn:Hmoves; try exact Hp.
  destruct (handleMove move st) as [st'| |] eqn:Hmove; try exact Hp.
  apply IH. eapply play_move; [exact Hp | exact Hmoves | by left | exact Hmove].
Qed.

(** The game of [finishedGame]: WHITE has won after 48 moves with 19
    captures, RED is to move and has none, and 5 pieces are left on the
    board. *)
Example finishedGame_score :
  GameState.winner (App.gameState finishedGame) = Some (Won WHITE)
  /\ GameState.turn (App.gameState finishedGame) = RED
  /\ length (GameState.history (App.gameState finishedGame)) = 48%nat
  /\ capturesOf (GameState.history (App.gameState finishedGame)) = 19
  /\ piecesOn (getVariantRules ENGLISH) (GameState.board (App.gameState finishedGame)) = 5.
Proof. by vm_compute. Qed.

(** X13.  In every state of a game (the states reached without the editor
    and without puzzles) RED is to move exactly after an even number of
    moves, no winner is recorded while the side to move has a legal move,
    and a recorded winner is the side that cannot move where losing is the
    goal, and the other side otherwise. *)
Theorem played_score_kept st : played st -> scoreKept st.
Proof.
  induction 1 as [st Hinit|v st st' _ IH Hv|newMode st st' _ IH Hm|lv st _ IH
                 |move moves st st' _ IH Hmoves Hin Hmove|s st st' Hp IH Hai Hturn].
  - rewrite initialApp_opening in Hinit. injection Hinit as <-.
    split; [done|]. apply (initial_moves ENGLISH).
  - apply handleVariantChange_inv in Hv as (Hv & _ & _ & Hgs).
    unfold scoreKept, currentValidMoves. rewrite Hv, Hgs. simpl.
    split; [done | apply initial_moves].
  - unfold handleModeChange in Hm. destruct newMode; [|by injection Hm as <-..].
    apply handleVariantChange_inv in Hm as (Hv & _ & _ & Hgs).
    unfold scoreKept, currentValidMoves. rewrite Hv, Hgs. simpl.
    split; [done | apply initial_moves].
  - exact IH.
  - eapply handleMove_scoreKept; [apply IH | exact Hmove].
  - apply played_reachable, reachable_ready in Hp.
    destruct (aiTurn_cases _ _ _ Hp Hturn)
      as (moves & Hmoves & [(move & _ & Hmove)|(-> & Hv & Ht & Hb & Hh & _ & _ & Hw)]).
    + eapply handleMove_scoreKept; [apply IH | exact Hmove].
    + unfold scoreKept, currentValidMoves in *. rewrite Hv, Ht, Hb, Hh, Hw.
      split; [apply IH|]. split; [done|].
      unfold aiToMove in Hai.
      destruct (App.mode st), (GameState.turn (App.gameState st)); try done.
Qed.

Lemma played_score_kept_witness : scoreKept finishedGame.
Proof.
  apply (played_score_kept finishedGame).
  apply playFirst_played, play_initial. vm_compute; reflexivity.
Defined.

(** ** The editor *)

Lemma clicks_ready rules r c n : forall board,
  wellFormed rules board ->
  inGrid rules r c = true ->
  exists board',
    clicks n r c board = Ok board'
    /\ wellFormed rules board'
    /\ forall r' c',
         pieceAt board' r' c'
         = if bool_decide (r' = r /\ c' = c)
           then Nat.iter n (editedCell r c) (pieceAt board r c)
           else pieceAt board r' c'.
Proof.
  induction n as [|n IH]; intros board Hwf Hin.
  - exists board. split; [done|]. split; [done|]. intros r' c'.
    case_bool_decide as E; [by destruct E as [-> ->] | done].
  - destruct (editBoard_ready _ _ _ _ Hwf Hin) as (b1 & E1 & Hwf1 & Hcells1).
    destruct (IH b1 Hwf1 Hin) as (b2 & E2 & Hwf2 & Hcells2).
    exists b2. cbn [clicks]. rewrite E1. simpl. split; [done|]. split; [done|].
    intros r' c'. rewrite Hcells2, !Hcells1.
    rewrite (bool_decide_eq_true_2 (r = r /\ c = c)) by done.
    case_bool_decide; [|done]. apply Nat.iter_swap.
Qed.

(** X14.  In the editor, five clicks on a square of the grid of a
    well-formed board return a well-formed board on which every square
    holds the side and rank it held before: the click goes through
    nothing, red man, red king, white man, white king, and back. *)
Theorem editor_five_clicks rules board r c :
  wellFormed rules board ->
  inGrid rules r c = true ->
  exists board',
    clicks 5 r c board = Ok board'
    /\ wellFormed rules board'
    /\ forall r' c', cellChar (pieceAt board' r' c') = cellChar (pieceAt board r' c').
Proof.
  intros Hwf Hin.
  destruct (clicks_ready rules r c 5 board Hwf Hin) as (board' & E & Hwf' & Hcells).
  exists board'. split; [done|]. split; [done|]. intros r' c'. rewrite Hcells.
  case_bool_decide as E'; [|done]. destruct E' as [-> ->].
  destruct (pieceAt board r c) as [[id [] [] pos]|]; reflexivity.
Qed.

Lemma editor_five_clicks_witness :
  exists board',
    clicks 5 4 1 skirmishBoard = Ok board'
    /\ wellFormed (getVariantRules ENGLISH) board'
    /\ forall r' c',
         cellChar (pieceAt board' r' c') = cellChar (pieceAt skirmishBoard r' c').
Proof.
  apply (editor_five_clicks (getVariantRules ENGLISH) skirmishBoard 4 1).
  - by apply skirmish_wellFormed.
  - reflexivity.
Defined.

(** ** The level of the engine *)

(** X15.  The streak bonus never lowers the depth of the search, and the
    level passed to [getBestMove] is at most 18, its depth at most 16. *)
Theorem adaptiveLevel_depth st :
  0 <= App.winStreak st ->
  adaptiveLevel st <= 18
  /\ depthOfLevel (GameState.aiLevel (App.gameState st)) <= depthOfLevel (adaptiveLevel st)
  /\ depthOfLevel (adaptiveLevel st) <= 16.
Proof.
  intros Hs. unfold adaptiveLevel.
  pose proof (Z.div_pos (App.winStreak st) 2 Hs ltac:(lia)) as Hq.
  generalize dependent (App.winStreak st / 2). intros q Hq.
  generalize (GameState.aiLevel (App.gameState st)). intros lv.
  split; [lia|]. unfold depthOfLevel.
  destruct (Z.min_spec 18 (lv + q)) as [[Hlt ->]|[Hle ->]];
    repeat match goal with
           | |- context [?a <=? ?b] => destruct (Z.leb_spec a b)
           | |- context [?a =? ?b] => destruct (Z.eqb_spec a b)
           end; lia.
Qed.

Lemma adaptiveLevel_depth_witness :
  adaptiveLevel streakApp <= 18
  /\ depthOfLevel (GameState.aiLevel (App.gameState streakApp))
     <= depthOfLevel (adaptiveLevel streakApp)
  /\ depthOfLevel (adaptiveLevel streakApp) <= 16.
Proof.
  apply (adaptiveLevel_depth streakApp). simpl; lia.
Defined.

(** With a streak of 4 the level 8 becomes 10, and the depth 6 becomes 8. *)
Example streakApp_level :
  adaptiveLevel streakApp = 10
  /\ depthOfLevel (GameState.aiLevel (App.gameState streakApp)) = 6
  /\ depthOfLevel (adaptiveLevel streakApp) = 8.
Proof. by vm_compute. Qed.

(** ** The service *)

Lemma updatePiecePositions_positioned board : positioned (updatePiecePositions board).
Proof.
  intros r c p (Hr & Hc & row & Hrow & Hp)%cell_lookup.
  unfold updatePiecePositions in Hrow. rewrite list_lookup_imap in Hrow.
  destruct (board !! Z.to_nat r) as [row0|]; [|done]. injection Hrow as <-.
  rewrite list_lookup_imap in Hp.
  destruct (row0 !! Z.to_nat c) as [[|[p0|]]|]; simpl in Hp; simplify_eq. simpl. f_equal; lia.
Qed.

Lemma length_updatePiecePositions board :
  length (updatePiecePositions board) = length board.
Proof. apply length_imap. Qed.

(** X16.  The board that the service gives to the engine (converted, then
    its positions updated) is well formed whenever the board of the
    existing system has one row per rank of the variant: [getValidMoves]
    and [getBestMove] then return on it. *)
Theorem service_board_wellFormed existingBoard variant :
  Z.of_nat (length existingBoard) = boardSize (getVariantRules variant) ->
  let board := updatePiecePositions (convertBoardToNewFormat existingBoard) in
  wellFormed (getVariantRules variant) board
  /\ forall turn,
       (exists moves, getValidMoves board turn variant = Ok moves)
       /\ forall level s,
            exists answer,
              snd (getBestMove (GameState.mk board turn None [] level variant PLAY) s)
              = Ok answer.
Proof.
  intros Hlen board.
  assert (wellFormed (getVariantRules variant) board) as Hwf.
  { split; [|apply updatePiecePositions_positioned].
    subst board. rewrite length_updatePiecePositions. unfold convertBoardToNewFormat.
    by rewrite length_map. }
  split; [done|]. intros turn.
  destruct (getValidMoves_total board turn variant Hwf) as [moves Hres].
  split; [by exists moves|]. intros level s.
  destruct (getBestMove_yields (GameState.mk board turn None [] level variant PLAY) moves
              Hwf Hres s) as (answer & Ha & _).
  by exists answer.
Qed.

Lemma service_board_wellFormed_witness :
  wellFormed (getVariantRules ENGLISH)
    (updatePiecePositions (convertBoardToNewFormat legacySkirmish))
  /\ forall turn,
       (exists moves,
          getValidMoves (updatePiecePositions (convertBoardToNewFormat legacySkirmish))
            turn ENGLISH = Ok moves)
       /\ forall level s,
            exists answer,
              snd (getBestMove
                     (GameState.mk
                        (updatePiecePositions (convertBoardToNewFormat legacySkirmish))
                        turn None [] level ENGLISH PLAY) s)
              = Ok answer.
Proof.
  apply (service_board_wellFormed legacySkirmish ENGLISH). reflexivity.
Defined.

Lemma legacy_newPiece piece r c :
  Legacy.color piece = "white" \/ Legacy.color piece = "black" ->
  legacyPieceOf (placeAt r c (newPieceOf piece)) = piece.
Proof.
  destruct piece as [color king id]. unfold legacyPieceOf, placeAt, newPieceOf. simpl.
  intros [->| ->]; simpl; by destruct king.
Qed.

(** X17.  A board of the existing system whose pieces are white or black
    comes back unchanged from the engine's format: conversion, update of
    the positions and conversion back are the identity. *)
Theorem legacy_round_trip existingBoard :
  twoColours existingBoard ->
  convertBoardToExistingFormat
    (updatePiecePositions (convertBoardToNewFormat existingBoard))
  = existingBoard.
Proof.
  intros Hcol. unfold convertBoardToExistingFormat, updatePiecePositions,
    convertBoardToNewFormat.
  rewrite !map_fmap, fmap_imap, imap_fmap.
  rewrite <- (list_fmap_id existingBoard) at 2. rewrite <- (imap_const id existingBoard).
  apply imap_ext. intros r row Hrow. simpl.
  rewrite !map_fmap, fmap_imap, imap_fmap.
  rewrite <- (list_fmap_id row) at 2. rewrite <- (imap_const id row).
  apply imap_ext. intros c cellv Hc. simpl.
  destruct cellv as [|[piece|]]; [done | | done]. simpl. do 2 f_equal.
  apply legacy_newPiece. apply (Hcol row); by eapply list_elem_of_lookup_2.
Qed.

Lemma legacy_round_trip_witness :
  convertBoardToExistingFormat
    (updatePiecePositions (convertBoardToNewFormat legacySkirmish))
  = legacySkirmish.
Proof.
  apply (legacy_round_trip legacySkirmish).
  intros row piece Hrow Hp. vm_compute in Hrow.
  repeat (apply elem_of_cons in Hrow as [->|Hrow];
          [repeat (apply elem_of_cons in Hp as [Hp|Hp]; [simplify_eq; auto|]);
           by apply elem_of_nil in Hp|]).
  by apply elem_of_nil in Hrow.
Defined.

(** X18.  A board of the engine on which every piece records its cell
    comes back unchanged from the format of the existing system. *)
Theorem engine_round_trip newBoard :
  positioned newBoard ->
  updatePiecePositions (convertBoardToNewFormat (convertBoardToExistingFormat newBoard))
  = newBoard.
Proof.
  intros Hpos. unfold convertBoardToExistingFormat, updatePiecePositions,
    convertBoardToNewFormat.
  rewrite !map_fmap, <- list_fmap_compose, imap_fmap.
  rewrite <- (list_fmap_id newBoard) at 2. rewrite <- (imap_const id newBoard).
  apply imap_ext. intros r row Hrow. simpl.
  rewrite !map_fmap, <- list_fmap_compose, imap_fmap.
  rewrite <- (list_fmap_id row) at 2. rewrite <- (imap_const id row).
  apply imap_ext. intros c cellv Hc. simpl.
  destruct cellv as [|[piece|]]; [done | | done]. simpl. do 2 f_equal.
  assert (Piece.position piece = Pos.mk (Z.of_nat r) (Z.of_nat c)) as Hp.
  { apply Hpos, cell_lookup. split; [lia|]. split; [lia|]. exists row.
    by rewrite !Nat2Z.id. }
  destruct piece as [id player type pos]. simpl in Hp. subst pos.
  unfold placeAt, newPieceOf, legacyPieceOf. simpl.
  by destruct player, type.
Qed.

Lemma engine_round_trip_witness :
  updatePiecePositions (convertBoardToNewFormat (convertBoardToExistingFormat skirmishBoard))
  = skirmishBoard.
Proof.
  apply (engine_round_trip skirmishBoard).
  exact (proj2 (skirmish_wellFormed ENGLISH eq_refl)).
Defined.

(** X19.  In the second version of the service the positions are not
    updated: every piece of the converted board records the cell (0, 0), and
    every move that [getValidMoves] returns on it starts there, wherever the
    pieces stand. *)
Theorem unplaced_moves_start_at_origin existingBoard turn variant moves m :
  getValidMoves (convertBoardFormat existingBoard) turn variant = Ok moves ->
  m ∈ moves ->
  Move.from m = Pos.mk 0 0.
Proof.
  intros Hres Hm.
  pose proof (getValidMoves_moveOf _ _ _ _ Hres) as Hall. rewrite Forall_forall in Hall.
  destruct (Hall m Hm) as (piece & r & c & Hcell & _ & _ & _ & Hfacts).
  assert (Piece.position piece = Pos.mk 0 0) as Hp.
  { apply cell_lookup in Hcell as (_ & _ & row & Hrow & Hc).
    unfold convertBoardFormat in Hrow. rewrite map_fmap, list_lookup_fmap in Hrow.
    destruct (existingBoard !! Z.to_nat r) as [row0|]; [|done]. injection Hrow as <-.
    rewrite map_fmap, list_lookup_fmap in Hc.
    destruct (row0 !! Z.to_nat c) as [[|[p0|]]|]; simpl in Hc; by simplify_eq. }
  rewrite <- Hp. by destruct Hfacts as [[? _]|[? _]].
Qed.

Lemma unplaced_moves_start_at_origin_witness :
  Move.from (Move.mk (Pos.mk 0 0) (Pos.mk 1 1) None) = Pos.mk 0 0.
Proof.
  apply (unplaced_moves_start_at_origin legacySkirmish WHITE ENGLISH
           [Move.mk (Pos.mk 0 0) (Pos.mk 1 1) None]).
  - vm_compute; reflexivity.
  - left.
Defined.

(** ** Captures are found *)

Lemma forEachPush_elem {A B} (f : A -> result (list B)) xs l x :
  forEachPush f xs = Ok l -> x ∈ xs ->
  exists lx, f x = Ok lx /\ forall y, y ∈ lx -> y ∈ l.
Proof.
  revert l. induction xs as [|a xs IH]; intros l Hl Hx; [by apply elem_of_nil in Hx|].
  simpl in Hl. destruct (f a) as [ys| |] eqn:Ea; simpl in Hl; try done.
  destruct (forEachPush f xs) as [zs| |]; simpl in Hl; try done. injection Hl as <-.
  apply elem_of_cons in Hx as [->|Hx].
  - exists ys. split; [done|]. intros y Hy. apply elem_of_app. by left.
  - destruct (IH zs eq_refl Hx) as (lx & Hlx & Hsub). exists lx. split; [done|].
    intros y Hy. apply elem_of_app. right. by apply Hsub.
Qed.

Section LoopGrowth.
Context {A S : Type} (size : S -> nat) (body : S -> A -> result S).
Hypothesis body_grows : forall s a s', body s a = Ok s' -> (size s <= size s')%nat.

Lemma forLoop_grows xs : forall s s',
  forLoop body xs s = Ok s' -> (size s <= size s')%nat.
Proof.
  induction xs as [|a xs IH]; intros s s' H; simpl in H; [injection H as <-; lia|].
  destruct (body s a) as [s1| |] eqn:E; simpl in H; try done.
  apply body_grows in E. apply IH in H. lia.
Qed.

Lemma forLoop_visit xs x : forall s s',
  forLoop body xs s = Ok s' -> x ∈ xs ->
  exists s1 s2, body s1 x = Ok s2 /\ (size s2 <= size s')%nat.
Proof.
  induction xs as [|a xs IH]; intros s s' H Hx; [by apply elem_of_nil in Hx|].
  simpl in H. destruct (body s a) as [s1| |] eqn:E; simpl in H; try done.
  apply elem_of_cons in Hx as [->|Hx].
  - exists s, s1. split; [done|]. by eapply forLoop_grows.
  - by eapply IH.
Qed.
End LoopGrowth.

Lemma manCanTake_jumps board rules piece d found :
  boardSize rules <= Z.of_nat (length board) ->
  Piece.type piece = PAWN ->
  manCanTake board rules piece d ->
  getPieceMoves board piece rules = Ok found ->
  fst found <> [].
Proof.
  intros Hrows Hman (mp & Hd & Hback & Hin & Hmid & Henemy & Hking & Hland).
  unfold getPieceMoves.
  destruct (findJumps _ _ _ _ _ _ _) as [jumps| |] eqn:Ejumps; simpl; try done.
  destruct (forEachPush _ _) as [steps| |]; simpl; try done. intros [= <-]. simpl.
  unfold chainBudget in Ejumps. cbn [findJumps] in Ejumps.
  destruct (forEachPush_elem _ _ _ d Ejumps Hd) as (lx & Hlx & Hsub).
  assert (lx <> []) as Hne.
  { revert Hlx. unfold jumpsInDir. rewrite Hman.
    rewrite bool_decide_eq_true_2 by done. unfold pawnJump. rewrite Hin.
    assert (isBack piece (fst d) && negb (pawnCaptureBackwards rules)
            && negb (isOrthogonal rules) = false) as ->.
    { destruct Hback as [-> | [-> | ->]]; simpl; [done|..];
        rewrite ?andb_false_r; done. }
    apply pieceAt_Some in Hmid. rewrite Hmid. simpl.
    unfold isEnemy. rewrite bool_decide_eq_false_2 by done. simpl.
    apply inGrid_true in Hin as [Hr Hc].
    rewrite cell_Ok by lia. rewrite Hland. simpl.
    assert (negb (pawnCanCaptureKing rules) && bool_decide (Piece.type mp = KING) = false)
      as ->.
    { destruct Hking as [-> | ->]; [done|]. by rewrite andb_false_r. }
    destruct (findJumps _ _ _ _ _ _ _) as [deeper| |]; simpl; try done.
    intros [= <-]. unfold chainsFrom. by destruct deeper. }
  destruct lx as [|y lx]; [done|]. intros ->.
  specialize (Hsub y ltac:(left)). by apply elem_of_nil in Hsub.
Qed.

Lemma collectMoves_finds board player rules piece r c js ss :
  cell board r c = Ok (Some piece) ->
  0 <= r < boardSize rules -> 0 <= c < boardSize rules ->
  Piece.player piece = player ->
  (forall found, getPieceMoves board piece rules = Ok found -> fst found <> []) ->
  collectMoves board player rules = Ok (js, ss) ->
  js <> [].
Proof.
  intros Hcell Hr Hc Hside Hfound Hscan. unfold collectMoves in Hscan.
  set (inner := fun r (acc : list Move.t * list Move.t) c =>
         (piece <- cell board r c ;;
          match piece with
          | Some piece =>
              if bool_decide (Piece.player piece = player) then
                found <- getPieceMoves board piece rules ;;
                Ok (fst acc ++ fst found, snd acc ++ snd found)
              else Ok acc
          | None => Ok acc
          end)%res) in *.
  assert (forall r s a s', inner r s a = Ok s' -> (length (fst s) <= length (fst s'))%nat)
    as Hinner.
  { intros r0 s a s'. unfold inner.
    destruct (cell board r0 a) as [[p|]| |]; simpl; try done;
      [|intros [= E]; by subst s'].
    destruct (bool_decide _); [|intros [= E]; by subst s'].
    destruct (getPieceMoves board p rules) as [f| |]; simpl; try done.
    intros [= E]. subst s'. simpl. rewrite length_app. lia. }
  destruct (forLoop_visit (fun s => length (fst s))
              (fun acc r => forLoop (inner r) (range (boardSize rules)) acc)
              ltac:(intros s a s'; apply forLoop_grows, Hinner)
              _ r _ _ Hscan ltac:(by apply elem_of_range)) as (s1 & s2 & Hrow & Hle).
  destruct (forLoop_visit (fun s => length (fst s)) (inner r) (Hinner r)
              _ c _ _ Hrow ltac:(by apply elem_of_range)) as (t1 & t2 & Hat & Hle').
  unfold inner in Hat. rewrite Hcell in Hat. simpl in Hat.
  rewrite bool_decide_eq_true_2 in Hat by done.
  destruct (getPieceMoves board piece rules) as [f| |] eqn:Ef; simpl in Hat; try done.
  injection Hat as <-. simpl in *. specialize (Hfound f eq_refl).
  rewrite length_app in Hle'. destruct (fst f); [done|]. simpl in *.
  destruct js; [simpl in *; lia | done].
Qed.

(** X20.  Capturing is found whenever it is possible for a man: if a man
    of the side to move on a well-formed board can take in one of its
    directions, [getValidMoves] returns at least one move and only capture
    moves. *)
Theorem man_capture_is_forced board player variant piece d moves :
  wellFormed (getVariantRules variant) board ->
  pieceOn board (Piece.position piece) = Some piece ->
  inGrid (getVariantRules variant) (Pos.r (Piece.position piece))
    (Pos.c (Piece.position piece)) = true ->
  Piece.player piece = player ->
  Piece.type piece = PAWN ->
  manCanTake board (getVariantRules variant) piece d ->
  getValidMoves board player variant = Ok moves ->
  moves <> [] /\ Forall (fun m => 0 < captureCount m) moves.
Proof.
  intros Hwf Hsrc [Hr Hc]%inGrid_true Hside Hman Htake Hres.
  pose proof (getValidMoves_validMoves board player variant) as H.
  rewrite Hres in H. destruct H as (js & ss & Hscan & Hj & _ & Hcap & _).
  assert (js <> []) as Hne.
  { unfold pieceOn in Hsrc. apply pieceAt_Some in Hsrc as Hcell.
    pose proof Hwf as [Hlen _].
    eapply collectMoves_finds; [exact Hcell | done | done | done | | exact Hscan].
    intros found. apply manCanTake_jumps with (d := d); [lia | done | done]. }
  rewrite (Hcap Hne). split; [by apply captureFilters_nonempty|].
  eapply Forall_impl; [by apply captureFilters_keeps, Hj|].
  intros m. apply captureMove_count.
Qed.

Lemma man_capture_is_forced_witness :
  [skirmishJump] <> [] /\ Forall (fun m => 0 < captureCount m) [skirmishJump].
Proof.
  apply (man_capture_is_forced skirmishBoard RED ENGLISH (redPawn 4 1) (-1, 1)).
  - by apply skirmish_wellFormed.
  - reflexivity.
  - reflexivity.
  - reflexivity.
  - reflexivity.
  - exists (whitePawn 3 2).
    split; [change ((-1, 1) ∈ [(1, 1); (1, -1); (-1, 1); (-1, -1)]); right; right; left|].
    split; [left; reflexivity|]. split; [reflexivity|]. split; [reflexivity|].
    split; [discriminate|]. split; [right; reflexivity | reflexivity].
  - vm_compute; reflexivity.
Defined.

(** ** The initial position, again *)

(** X21.  In every variant the initial position is its own side-swapped
    mirror in sides and ranks and gives both sides as many pieces; the
    evaluation scores it 0 on the 8-wide boards, but -1400 on the 10-wide
    and -4070 on the 12-wide ones. *)
Theorem createInitialBoard_symmetric variant :
  exists board,
    createInitialBoard variant = Ok board
    /\ layout (sideSwappedMirror variant board) = layout board
    /\ material (getVariantRules variant) board RED
       = material (getVariantRules variant) board WHITE
    /\ evaluateBoard board variant
       = Ok (initialScore (boardSize (getVariantRules variant))).
Proof.
  exists (grid (boardSize (getVariantRules variant)) (initialCell variant)).
  split; [apply createInitialBoard_grid|].
  destruct variant; vm_compute; repeat split; reflexivity.
Qed.

(** ** Errors *)

Lemma setCell_raises board r c v :
  ~ (0 <= r < Z.of_nat (length board)) -> setCell board r c v = TypeError.
Proof.
  intros Hr. unfold setCell. destruct (Z.ltb_spec r 0); [done|].
  rewrite lookup_ge_None_2; [done | lia].
Qed.

Lemma clear_returns_iff caps : forall board,
  match forLoop (fun b cp => setCell b (Pos.r cp) (Pos.c cp) None) caps board with
  | Ok _ => Forall (onRows board) caps
  | TypeError => ~ Forall (onRows board) caps
  | OutOfFuel => False
  end.
Proof.
  induction caps as [|cp caps IH]; intros board; simpl; [constructor|].
  destruct (decide (onRows board cp)) as [Hcp|Hcp].
  - destruct (setCell_Ok board (Pos.r cp) (Pos.c cp) None Hcp) as [b1 E]. rewrite E. simpl.
    specialize (IH b1). unfold onRows in *. rewrite (length_setCell _ _ _ _ _ E) in IH.
    destruct (forLoop _ caps b1); [by constructor | | done].
    intros [_ H]%Forall_cons. by apply IH.
  - rewrite setCell_raises by done. simpl. by intros [H _]%Forall_cons.
Qed.

(** X22.  [applyMove] returns a board exactly when the rows it reads and
    writes exist (the row of the source and, if the source holds a piece,
    the rows of the destination and of the captured cells), and throws
    otherwise. *)
Theorem applyMove_returns_iff board move variant :
  match applyMove board move variant with
  | Ok _ => moveOnRows board move
  | TypeError => ~ moveOnRows board move
  | OutOfFuel => False
  end.
Proof.
  unfold applyMove, moveOnRows, pieceOn.
  destruct (decide (onRows board (Move.from move))) as [Hfrom|Hfrom].
  2:{ apply cell_raises with (c := Pos.c (Move.from move)) in Hfrom as E. rewrite E. simpl.
      by intros [? _]. }
  rewrite cell_Ok by done. simpl.
  destruct (pieceAt board _ _) as [piece|]; [|split; [done | by left]].
  destruct (decide (onRows board (Move.to move))) as [Hto|Hto].
  2:{ rewrite setCell_raises by done. simpl. intros [_ [?|[? _]]]; done. }
  match goal with
  | |- context [setCell board ?r ?c ?v] =>
      destruct (setCell_Ok board r c v Hto) as [b1 E1]; rewrite E1
  end.
  simpl. unfold onRows in *. pose proof (length_setCell _ _ _ _ _ E1) as L1.
  destruct (setCell_Ok b1 (Pos.r (Move.from move)) (Pos.c (Move.from move)) None
              ltac:(by rewrite L1)) as [b2 E2].
  rewrite E2. simpl. pose proof (length_setCell _ _ _ _ _ E2) as L2.
  unfold capturedCells. destruct (Move.captures move) as [caps|]; simpl.
  - pose proof (clear_returns_iff caps b2) as H. unfold onRows in H.
    rewrite L2, L1 in H.
    destruct (forLoop _ caps b2); [by split; [|right] | | done].
    intros [_ [?|[_ ?]]]; done.
  - split; [done|]. right. by split.
Qed.

Lemma collectMoves_short board player rules :
  0 < boardSize rules ->
  Z.of_nat (length board) < boardSize rules ->
  forall found, collectMoves board player rules <> Ok found.
Proof.
  intros Hpos Hshort found Hscan. unfold collectMoves in Hscan.
  destruct (forLoop_visit (fun _ => O) _ ltac:(intros; lia)
              _ (Z.of_nat (length board)) _ _ Hscan
              ltac:(apply elem_of_range; lia)) as (s1 & s2 & Hrow & _).
  destruct (forLoop_visit (fun _ => O) _ ltac:(intros; lia)
              _ 0 _ _ Hrow ltac:(apply elem_of_range; lia)) as (t1 & t2 & Hat & _).
  rewrite (proj2 (cell_raises board (Z.of_nat (length board)) 0)) in Hat by lia.
  done.
Qed.

(** X23.  On a board with fewer rows than the variant has ranks
    [getValidMoves] throws, and so does [getBestMove], whatever the table
    holds. *)
Theorem short_board_throws (gs : GameState.t) :
  Z.of_nat (length (GameState.board gs))
    < boardSize (getVariantRules (GameState.variant gs)) ->
  getValidMoves (GameState.board gs) (GameState.turn gs) (GameState.variant gs) = TypeError
  /\ forall s, snd (getBestMove gs s) = TypeError.
Proof.
  intros Hshort.
  assert (getValidMoves (GameState.board gs) (GameState.turn gs) (GameState.variant gs)
          = TypeError) as Hthrow.
  { pose proof (getValidMoves_fuel (GameState.board gs) (GameState.turn gs)
                  (GameState.variant gs)) as Hfuel.
    pose proof (collectMoves_short (GameState.board gs) (GameState.turn gs)
                  (getVariantRules (GameState.variant gs))
                  ltac:(by destruct (GameState.variant gs)) Hshort) as Hscan.
    pose proof (getValidMoves_validMoves (GameState.board gs) (GameState.turn gs)
                  (GameState.variant gs)) as H.
    destruct (getValidMoves _ _ _) as [moves| |]; [|done|done].
    destruct H as (js & ss & E & _). by apply Hscan in E. }
  split; [done|]. intros s. unfold getBestMove, chooseMove, sbind, tt_size, liftR.
  simpl. rewrite Hthrow. by destruct (_ >? CLEAR_ABOVE).
Qed.

Lemma short_board_throws_witness :
  getValidMoves [] RED ENGLISH = TypeError
  /\ forall s, snd (getBestMove emptyGame s) = TypeError.
Proof.
  apply (short_board_throws emptyGame). simpl. reflexivity.
Defined.

(** ** What the search leaves alone *)

(** X24.  [quiesce] neither reads nor writes the transposition table: it
    returns with the table it was called with. *)
Theorem quiesce_leaves_table variant board alpha beta (isMax : bool) player s :
  isMax = bool_decide (player = RED) ->
  transpositionTable
    (fst (quiesce variant quiesceBudget board alpha beta isMax player 0 s))
  = transpositionTable s.
Proof.
  intros Hside.
  apply (quiesce_keeps_table (fun s' => transpositionTable s' = transpositionTable s) variant);
    [by intros f s' Hs' | by intros s' Hs' | done | unfold quiesceBudget; lia.. | done].
Qed.

Lemma quiesce_leaves_table_witness :
  transpositionTable
    (fst (quiesce ENGLISH quiesceBudget skirmishBoard NegInf PosInf true RED 0 oneEntryState))
  = transpositionTable oneEntryState.
Proof.
  apply (quiesce_leaves_table ENGLISH skirmishBoard NegInf PosInf true RED oneEntryState).
  reflexivity.
Defined.

(** X25.  [alphaBeta] never removes a key from the transposition table:
    entries are added or overwritten, and only [getBestMove] clears. *)
Theorem alphaBeta_keeps_keys variant depth board alpha beta (isMax : bool) player s key :
  isMax = bool_decide (player = RED) ->
  is_Some (transpositionTable s !! key) ->
  is_Some (transpositionTable
             (fst (alphaBeta variant depth board alpha beta isMax player s)) !! key).
Proof.
  intros Hside Hkey.
  apply (alphaBeta_keeps_table (fun s' => is_Some (transpositionTable s' !! key)) variant);
    [by intros f s' Hs' | by intros s' Hs' | | done | done].
  intros key' e s' Hs' _. simpl. apply lookup_insert_is_Some'. by right.
Qed.

Lemma alphaBeta_keeps_keys_witness :
  is_Some (transpositionTable
             (fst (alphaBeta ENGLISH 1 skirmishBoard NegInf PosInf true RED oneEntryState))
           !! openingKey).
Proof.
  apply (alphaBeta_keeps_keys ENGLISH 1 skirmishBoard NegInf PosInf true RED oneEntryState
           openingKey).
  - reflexivity.
  - eexists. apply lookup_singleton_eq.
Defined.

(** ** The choice at the root *)

Lemma better_or turn (score bestScore : Num) :
  (bool_decide (turn = RED) && Nltb bestScore score)
  || (bool_decide (turn = WHITE) && Nltb score bestScore)
  = better turn score bestScore.
Proof. unfold better. destruct turn; simpl; by rewrite ?orb_false_r. Qed.

Lemma pickBest_rootLoop gs depth moves : forall bestMove bestScore s,
  pickBest gs depth moves bestMove bestScore s
  = match rootLoop gs depth moves s with
    | (s', Ok scores) =>
        (s', Ok (keptMove (GameState.turn gs) moves scores bestMove bestScore))
    | (s', TypeError) => (s', TypeError)
    | (s', OutOfFuel) => (s', OutOfFuel)
    end.
Proof.
  induction moves as [|move rest IH]; intros bestMove bestScore s; [done|].
  cbn [pickBest rootLoop]. unfold sbind, liftR, sret.
  destruct (applyMove _ _ _) as [child| |]; [|done..].
  destruct (alphaBeta _ _ _ _ _ _ _ _) as [s2 [score| |]]; [|done..].
  rewrite better_or. cbn [keptMove].
  destruct (better _ score bestScore) eqn:Hb; rewrite IH;
    destruct (rootLoop gs depth rest s2) as [s3 [scores| |]]; try done;
    by rewrite Hb.
Qed.

Lemma length_rootLoop gs depth moves : forall s scores,
  snd (rootLoop gs depth moves s) = Ok scores -> length scores = length moves.
Proof.
  induction moves as [|move rest IH]; intros s scores; [by intros [= <-]|].
  cbn [rootLoop]. unfold sbind, liftR, sret.
  destruct (applyMove _ _ _) as [child| |]; [|done..].
  destruct (alphaBeta _ _ _ _ _ _ _ _) as [s2 [score| |]]; [|done..].
  specialize (IH s2).
  destruct (rootLoop gs depth rest s2) as [s3 [scores'| |]]; [|done..].
  cbn [snd]. intros [= <-]. cbn [length]. by rewrite (IH scores').
Qed.

Lemma better_irrefl turn a : better turn a a = false.
Proof.
  unfold better, Nltb, Nleb. destruct turn, a; simpl; try done;
    apply negb_false_iff, Z.leb_le; lia.
Qed.

Lemma better_trans turn a b c :
  better turn a b = false -> better turn c b = true -> better turn c a = true.
Proof.
  unfold better, Nltb, Nleb.
  destruct turn, a, b, c; simpl; try done;
    rewrite ?negb_false_iff, ?negb_true_iff, ?Z.leb_le, ?Z.leb_gt; lia.
Qed.

Lemma better_above turn a b c :
  better turn a b = false -> better turn c b = true -> better turn a c = false.
Proof.
  unfold better, Nltb, Nleb.
  destruct turn, a, b, c; simpl; try done;
    rewrite ?negb_false_iff, ?negb_true_iff, ?Z.leb_le, ?Z.leb_gt; lia.
Qed.

(** The move kept by the loop, started on the [i]-th move as the best so
    far with its score: a move at or after [i] that is the first with the
    best score. *)
Lemma keptMove_firstBest turn all scoresAll : forall moves scores k i bestMove bestScore,
  length scoresAll = length all ->
  moves = drop k all -> scores = drop k scoresAll ->
  all !! i = Some bestMove -> scoresAll !! i = Some bestScore -> (i < k)%nat ->
  (forall j score, (j < k)%nat -> scoresAll !! j = Some score ->
                   better turn score bestScore = false) ->
  (forall j score, (j < i)%nat -> scoresAll !! j = Some score ->
                   better turn bestScore score = true) ->
  exists i', all !! i' = Some (keptMove turn moves scores bestMove bestScore)
             /\ firstBest turn scoresAll i'.
Proof.
  induction moves as [|move rest IH];
    intros scores k i bestMove bestScore Hlen Hm Hs Hi Hsi Hik Hbest Hfirst.
  - exists i. split; [done|]. exists bestScore. split; [done|]. split; [|done].
    intros j score Hj. apply (Hbest j); [|done].
    apply lookup_lt_Some in Hj.
    assert (length (drop k all) = 0%nat) as Hd by (by rewrite <- Hm).
    rewrite length_drop in Hd. lia.
  - assert (all !! k = Some move) as Hk.
    { rewrite <- (Nat.add_0_r k), <- lookup_drop, <- Hm. done. }
    destruct scores as [|score scores'].
    { exfalso. apply lookup_lt_Some in Hk.
      assert (length (drop k scoresAll) = 0%nat) as Hd by (by rewrite <- Hs).
      rewrite length_drop in Hd. lia. }
    assert (scoresAll !! k = Some score) as Hsk.
    { rewrite <- (Nat.add_0_r k), <- lookup_drop, <- Hs. done. }
    assert (rest = drop (S k) all) as Hm'.
    { rewrite <- (Nat.add_1_r k), <- drop_drop, <- Hm. done. }
    assert (scores' = drop (S k) scoresAll) as Hs'.
    { rewrite <- (Nat.add_1_r k), <- drop_drop, <- Hs. done. }
    cbn [keptMove]. destruct (better turn score bestScore) eqn:Hb.
    + apply (IH scores' (S k) k move score); try done; [lia | |].
      * intros j sc Hj Hsc. destruct (decide (j = k)) as [->|Hne].
        { rewrite Hsk in Hsc. injection Hsc as <-. apply better_irrefl. }
        eapply better_above; [|exact Hb]. apply (Hbest j sc); [lia | done].
      * intros j sc Hj Hsc. eapply better_trans; [|exact Hb].
        apply (Hbest j sc); [lia | done].
    + apply (IH scores' (S k) i bestMove bestScore); try done; [lia|].
      intros j sc Hj Hsc. destruct (decide (j = k)) as [->|Hne].
      * rewrite Hsk in Hsc. by injection Hsc as <-.
      * apply (Hbest j sc); [lia | done].
Qed.

Lemma better_worst turn score :
  better turn score (if bool_decide (turn = RED) then NegInf else PosInf) = false ->
  score = if bool_decide (turn = RED) then NegInf else PosInf.
Proof. unfold better, Nltb, Nleb. by destruct turn, score. Qed.

Lemma getBestMove_searchStart gs s : getBestMove gs s = chooseMove gs (searchStart s).
Proof.
  unfold getBestMove, searchStart, tableSize, sbind, tt_size, tt_clear, sret, clearTable.
  by destruct (_ >? CLEAR_ABOVE).
Qed.

(** X26.  When the side to move has a legal move on a well-formed board,
    [getBestMove] returns the first of the moves of [getValidMoves] whose
    score at the root is the best for that side: the highest for RED, the
    lowest for WHITE. *)
Theorem getBestMove_first_best (gs : GameState.t) (s : SearchState) moves :
  wellFormed (getVariantRules (GameState.variant gs)) (GameState.board gs) ->
  getValidMoves (GameState.board gs) (GameState.turn gs) (GameState.variant gs) = Ok moves ->
  moves <> [] ->
  exists scores i move,
    snd (rootScores gs (depthOfLevel (GameState.aiLevel gs)) moves (searchStart s))
    = Ok scores
    /\ snd (getBestMove gs s) = Ok (Some move)
    /\ moves !! i = Some move
    /\ firstBest (GameState.turn gs) scores i.
Proof.
  intros Hwf Hres Hne. destruct moves as [|first rest]; [done|].
  rewrite getBestMove_searchStart. unfold chooseMove, rootScores, framed, sbind at 1, liftR.
  rewrite Hres.
  set (depth := depthOfLevel (GameState.aiLevel gs)).
  set (worst := if bool_decide (GameState.turn gs = RED) then NegInf else PosInf).
  set (start := enter (InGetBestMove (GameState.turn gs)) (searchStart s)).
  assert (yields (fun _ => True) (pickBest gs depth (first :: rest) first worst)) as Hy.
  { eapply yields_mono; [|apply pickBest_yields]; [done|].
    apply Forall_forall. intros m Hm.
    pose proof (getValidMoves_moveOf _ _ _ _ Hres) as Hall.
    rewrite Forall_forall in Hall. by eapply applyMove_moveOf, Hall. }
  destruct (Hy start) as (kept & Hkept & _).
  unfold sbind. rewrite pickBest_rootLoop in Hkept |- *.
  pose proof (length_rootLoop gs depth (first :: rest) start) as Hlen.
  destruct (rootLoop gs depth (first :: rest) start) as [s' [scores| |]];
    [|done..].
  specialize (Hlen scores eq_refl). destruct scores as [|score0 scores']; [done|].
  assert (keptMove (GameState.turn gs) (first :: rest) (score0 :: scores') first worst
          = keptMove (GameState.turn gs) rest scores' first score0) as Hstep.
  { cbn [keptMove]. destruct (better _ score0 worst) eqn:Hb; [done|].
    apply better_worst in Hb. by rewrite Hb. }
  destruct (keptMove_firstBest (GameState.turn gs) (first :: rest) (score0 :: scores')
              rest scores' 1 0 first score0 Hlen eq_refl eq_refl eq_refl eq_refl
              ltac:(lia)) as (i & Hi & Hbest).
  - intros j score Hj Hscore. destruct j; [|lia]. injection Hscore as <-.
    apply better_irrefl.
  - intros j score Hj. lia.
  - exists (score0 :: scores'), i, (keptMove (GameState.turn gs) rest scores' first score0).
    split; [done|]. split; [|done]. unfold sret. cbn [snd]. by rewrite Hstep.
Qed.

Lemma getBestMove_first_best_witness :
  exists scores i move,
    snd (rootScores openingGame (depthOfLevel (GameState.aiLevel openingGame)) openingMoves
           (searchStart emptyState))
    = Ok scores
    /\ snd (getBestMove openingGame emptyState) = Ok (Some move)
    /\ openingMoves !! i = Some move
    /\ firstBest (GameState.turn openingGame) scores i.
Proof.
  apply (getBestMove_first_best openingGame emptyState openingMoves).
  - apply (initial_wellFormed ENGLISH).
  - vm_compute; reflexivity.
  - discriminate.
Defined.

(** ** Finite scores *)

Section EnsuresRules.
Context {A B : Type} (I : SearchState -> Prop).

Lemma ensures_ret (Q : A -> Prop) (a : A) : Q a -> ensures I Q (sret a).
Proof. intros HQ s Hs. by split. Qed.

Lemma ensures_bind (Q : A -> Prop) (R : B -> Prop) (m : M A) (f : A -> M B) :
  ensures I Q m -> (forall a, Q a -> ensures I R (f a)) -> ensures I R (sbind m f).
Proof.
  intros Hm Hf s Hs. unfold sbind. destruct (Hm s Hs) as [Hs1 HQ].
  destruct (m s) as [s1 [a| |]]; simpl in *; [by apply Hf | done..].
Qed.

Lemma ensures_liftR (Q : A -> Prop) (x : result A) : whenOk Q x -> ensures I Q (liftR x).
Proof. intros HQ s Hs. by split. Qed.

Lemma ensures_mono (Q Q' : A -> Prop) (m : M A) :
  (forall a, Q a -> Q' a) -> ensures I Q m -> ensures I Q' m.
Proof.
  intros HQ Hm s Hs. destruct (Hm s Hs) as [Hs1 Ha]. split; [done|].
  destruct (snd (m s)); simpl in *; auto.
Qed.
End EnsuresRules.

Lemma whenOk_True {A} (x : result A) : whenOk (fun _ => True) x.
Proof. by destruct x. Qed.

Lemma ensures_framed {A} (Q : A -> Prop) f (body : M A) :
  ensures finiteTable Q body -> ensures finiteTable Q (framed f body).
Proof.
  intros Hbody s Hs. unfold framed.
  destruct (Hbody (enter f s)) as [H1 H2]; [done|].
  by destruct (body (enter f s)) as [s' r].
Qed.

Lemma finite_Fin z : finite (Fin z).
Proof. by exists z. Qed.

Lemma finite_Nmax a b : a <> PosInf -> finite b -> finite (Nmax a b).
Proof.
  intros Ha [z ->]. unfold Nmax, Nleb.
  destruct a as [|x|]; [apply finite_Fin | | done].
  destruct (x <=? z); apply finite_Fin.
Qed.

Lemma finite_Nmin a b : a <> NegInf -> finite b -> finite (Nmin a b).
Proof.
  intros Ha [z ->]. unfold Nmin, Nleb.
  destruct a as [|x|]; [done | | apply finite_Fin].
  destruct (x <=? z); apply finite_Fin.
Qed.

Lemma finite_bounds v : finite v -> v <> PosInf /\ v <> NegInf.
Proof. by intros [z ->]. Qed.

Section FiniteSearch.
Variable variant : CheckersVariant.

Lemma quiesceMax_finite recur board moves : forall alpha beta,
  (forall child a b, a <> PosInf -> b <> NegInf ->
                     ensures finiteTable finite (recur child a b)) ->
  finite alpha -> beta <> NegInf ->
  ensures finiteTable finite (quiesceMax variant recur board moves alpha beta).
Proof.
  induction moves as [|move rest IH]; intros alpha beta Hrec Ha Hb; simpl.
  - by apply ensures_ret.
  - eapply ensures_bind; [apply ensures_liftR, whenOk_True|]. intros child _.
    eapply ensures_bind; [apply Hrec; [by apply finite_bounds | done]|]. intros v Hv.
    assert (finite (Nmax alpha v)) as Hmax.
    { apply finite_Nmax; [by apply finite_bounds | done]. }
    destruct (Nleb _ _); [by apply ensures_ret | by apply IH].
Qed.

Lemma quiesceMin_finite recur board moves : forall alpha beta,
  (forall child a b, a <> PosInf -> b <> NegInf ->
                     ensures finiteTable finite (recur child a b)) ->
  alpha <> PosInf -> finite beta ->
  ensures finiteTable finite (quiesceMin variant recur board moves alpha beta).
Proof.
  induction moves as [|move rest IH]; intros alpha beta Hrec Ha Hb; simpl.
  - by apply ensures_ret.
  - eapply ensures_bind; [apply ensures_liftR, whenOk_True|]. intros child _.
    eapply ensures_bind; [apply Hrec; [done | by apply finite_bounds]|]. intros v Hv.
    assert (finite (Nmin beta v)) as Hmin.
    { apply finite_Nmin; [by apply finite_bounds | done]. }
    destruct (Nleb _ _); [by apply ensures_ret | by apply IH].
Qed.

Lemma quiesce_finite fuel : forall board alpha beta isMax player depth,
  alpha <> PosInf -> beta <> NegInf ->
  ensures finiteTable finite (quiesce variant fuel board alpha beta isMax player depth).
Proof.
  induction fuel as [|fuel IH]; intros board alpha beta isMax player depth Ha Hb.
  { apply ensures_liftR. done. }
  cbn [quiesce]. apply ensures_framed.
  eapply ensures_bind; [apply ensures_liftR, whenOk_True|]. intros standPat _.
  destruct (depth >? 4); [apply ensures_ret, finite_Fin|].
  destruct isMax.
  - destruct (Nleb beta (Fin standPat)) eqn:Hcut.
    { apply ensures_ret. unfold Nleb in Hcut. destruct beta; try done. apply finite_Fin. }
    eapply ensures_bind; [apply ensures_liftR, whenOk_True|]. intros moves _.
    apply quiesceMax_finite; [intros; by apply IH | | done].
    unfold Nltb, Nleb. destruct alpha as [|x|]; simpl; try done; [apply finite_Fin|].
    destruct (standPat <=? x); apply finite_Fin.
  - destruct (Nleb (Fin standPat) alpha) eqn:Hcut.
    { apply ensures_ret. unfold Nleb in Hcut. destruct alpha; try done. apply finite_Fin. }
    eapply ensures_bind; [apply ensures_liftR, whenOk_True|]. intros moves _.
    apply quiesceMin_finite; [intros; by apply IH | done |].
    unfold Nltb, Nleb. destruct beta as [|x|]; simpl; try done; [|apply finite_Fin].
    destruct (x <=? standPat); apply finite_Fin.
Qed.

Lemma searchMoves_finite recur (isMax : bool) player board ordered : forall w,
  (forall child a b, a <> PosInf -> b <> NegInf ->
                     ensures finiteTable finite (recur child a b)) ->
  Window.alpha w <> PosInf -> Window.beta w <> NegInf ->
  (if isMax then Window.best w <> PosInf else Window.best w <> NegInf) ->
  ensures finiteTable
    (fun w' => finite (Window.best w) \/ ordered <> [] -> finite (Window.best w'))
    (searchMoves variant recur isMax player board ordered w).
Proof.
  induction ordered as [|move rest IH]; intros w Hrec Ha Hb Hbest; cbn [searchMoves].
  - apply ensures_ret. by intros [?|?].
  - eapply ensures_bind; [apply ensures_liftR, whenOk_True|]. intros child _.
    eapply ensures_bind; [by apply Hrec|]. intros score Hscore.
    destruct isMax.
    + assert (finite (Nmax (Window.best w) score)) as Hnew by (by apply finite_Nmax).
      destruct (Nleb _ _); [by apply ensures_ret|].
      eapply ensures_mono; [|apply IH]; simpl; try done.
      * intros w' Hw' _. apply Hw'. by left.
      * unfold Nmax. destruct (Nleb _ _); [by apply finite_bounds | done].
      * by apply finite_bounds.
    + assert (finite (Nmin (Window.best w) score)) as Hnew by (by apply finite_Nmin).
      destruct (Nleb _ _); [by apply ensures_ret|].
      eapply ensures_mono; [|apply IH]; simpl; try done.
      * intros w' Hw' _. apply Hw'. by left.
      * unfold Nmin. destruct (Nleb _ _); [done | by apply finite_bounds].
      * by apply finite_bounds.
Qed.

Lemma probe_finite cached depth alpha beta :
  (forall e, cached = Some e -> finite (Entry.score e)) ->
  alpha <> PosInf -> beta <> NegInf ->
  match probe cached depth alpha beta with
  | inl score => finite score
  | inr (alpha', beta') => alpha' <> PosInf /\ beta' <> NegInf
  end.
Proof.
  intros Hc Ha Hb. unfold probe. destruct cached as [e|]; [|done].
  specialize (Hc e eq_refl). destruct (_ <=? _)%nat; [|done].
  destruct (bool_decide (Entry.flag e = EXACT)); [done|].
  destruct (Nleb _ _); [done|]. split.
  - destruct (bool_decide _); [|done]. by apply finite_bounds, finite_Nmax.
  - destruct (bool_decide _); [|done]. by apply finite_bounds, finite_Nmin.
Qed.

Lemma alphaBeta_ensures_finite depth : forall board alpha beta isMax player,
  alpha <> PosInf -> beta <> NegInf ->
  ensures finiteTable finite (alphaBeta variant depth board alpha beta isMax player).
Proof.
  assert (forall key, ensures finiteTable
            (fun cached => forall e, cached = Some e -> finite (Entry.score e))
            (tt_get key)) as Hget.
  { intros key s Hs. split; [done|]. simpl. intros e He. by eapply Hs. }
  induction depth as [|depth IH]; intros board alpha beta isMax player Ha Hb;
    cbn [alphaBeta]; apply ensures_framed; cbv zeta.
  - eapply ensures_bind; [apply Hget|]. intros cached Hc.
    pose proof (probe_finite cached 0 alpha beta Hc Ha Hb) as Hp.
    destruct (probe _ _ _ _) as [score|[alpha' beta']]; [by apply ensures_ret|].
    destruct Hp as [Ha' Hb'].
    eapply ensures_bind; [apply ensures_liftR, whenOk_True|]. intros moves _.
    by apply quiesce_finite.
  - eapply ensures_bind; [apply Hget|]. intros cached Hc.
    pose proof (probe_finite cached (S depth) alpha beta Hc Ha Hb) as Hp.
    destruct (probe _ _ _ _) as [score|[alpha' beta']]; [by apply ensures_ret|].
    destruct Hp as [Ha' Hb'].
    eapply ensures_bind; [apply ensures_liftR, whenOk_True|]. intros moves _.
    destruct (length moves =? 0)%nat eqn:Hlen.
    + by apply quiesce_finite.
    + eapply ensures_bind.
      { apply searchMoves_finite; [intros; by apply IH | done | done |].
        by destruct isMax. }
      intros w Hw. simpl in Hw.
      assert (finite (Window.best w)) as Hbest.
      { apply Hw. right. intros Hnil.
        assert (length (sortByCaptures moves) = length moves) as Hl.
        { apply Permutation_length, sortByCaptures_perm. }
        rewrite Hnil in Hl. apply Nat.eqb_neq in Hlen. simpl in Hl. lia. }
      intros s Hs. unfold sbind, tt_size, sret. simpl.
      destruct (_ <? STORE_BELOW); simpl; [|by split]. split; [|done].
      intros key e. unfold tt_set. simpl. rewrite lookup_insert.
      case_decide; [|by apply Hs]. by intros [= <-].
Qed.
End FiniteSearch.

(** X27.  No infinite score comes out of the search: called with a lower
    bound other than [Infinity] and an upper bound other than [-Infinity],
    as every call from [getBestMove] is, on a table whose scores are
    finite, [alphaBeta] returns a finite score and leaves only finite
    scores in the table. *)
Theorem alphaBeta_finite variant depth board alpha beta (isMax : bool) player s :
  finiteTable s ->
  alpha <> PosInf -> beta <> NegInf ->
  finiteTable (fst (alphaBeta variant depth board alpha beta isMax player s))
  /\ whenOk finite (snd (alphaBeta variant depth board alpha beta isMax player s)).
Proof.
  intros Hs Ha Hb. by apply alphaBeta_ensures_finite.
Qed.

Lemma alphaBeta_finite_witness :
  finiteTable (fst (alphaBeta ENGLISH 1 openingBoard NegInf PosInf true RED emptyState))
  /\ whenOk finite
       (snd (alphaBeta ENGLISH 1 openingBoard NegInf PosInf true RED emptyState)).
Proof.
  apply (alphaBeta_finite ENGLISH 1 openingBoard NegInf PosInf true RED emptyState).
  - intros key e H. vm_compute in H. discriminate.
  - discriminate.
  - discriminate.
Defined.

(** ** Step moves *)

(** X28.  A step move returned by [getValidMoves] on a well-formed board
    goes from its piece along one of the directions of that piece, one cell
    or, for a king of a variant with long-range kings, any number of cells,
    and every cell on the way, the destination included, is an empty cell
    of the grid: no step passes over a piece. *)
Theorem steps_cross_empty_cells board player variant moves m :
  wellFormed (getVariantRules variant) board ->
  getValidMoves board player variant = Ok moves ->
  m ∈ moves ->
  Move.captures m = None ->
  exists piece d k,
    pieceOn board (Move.from m) = Some piece
    /\ d ∈ dirs piece (getVariantRules variant)
    /\ 1 <= k
    /\ Move.to m = Pos.mk (Pos.r (Move.from m) + fst d * k) (Pos.c (Move.from m) + snd d * k)
    /\ (k = 1 \/ (Piece.type piece = KING /\ kingLongRange (getVariantRules variant) = true))
    /\ forall i, 1 <= i <= k ->
         inGrid (getVariantRules variant)
           (Pos.r (Move.from m) + fst d * i) (Pos.c (Move.from m) + snd d * i) = true
         /\ pieceAt board (Pos.r (Move.from m) + fst d * i) (Pos.c (Move.from m) + snd d * i)
            = None.
Proof.
  intros Hwf Hres Hm Hnone.
  pose proof (getValidMoves_moveOf _ _ _ _ Hres) as Hall. rewrite Forall_forall in Hall.
  destruct (moveOf_source _ _ _ _ Hwf (Hall m Hm)) as (piece & Hsrc & _ & Hfacts).
  destruct Hfacts as [(_ & _ & _ & ext & Hc & _)|Hstep]; [congruence|].
  destruct Hstep as (Hfrom & _ & _ & _ & d & k & Hdir & Hk & Hto & Hone & _ & Hway).
  exists piece, d, k. rewrite Hfrom in Hsrc |- *. do 5 (split; [done|]).
  intros i Hi. destruct (Hway i Hi) as [Hin Hcell]. split; [done|].
  by apply cell_pieceAt in Hcell.
Qed.

Lemma steps_cross_empty_cells_witness :
  exists piece d k,
    pieceOn loneKingBoard (Pos.mk 3 3) = Some piece
    /\ d ∈ dirs piece (getVariantRules RUSSIAN)
    /\ 1 <= k
    /\ Pos.mk 1 1 = Pos.mk (3 + fst d * k) (3 + snd d * k)
    /\ (k = 1 \/ (Piece.type piece = KING /\ kingLongRange (getVariantRules RUSSIAN) = true))
    /\ forall i, 1 <= i <= k ->
         inGrid (getVariantRules RUSSIAN) (3 + fst d * i) (3 + snd d * i) = true
         /\ pieceAt loneKingBoard (3 + fst d * i) (3 + snd d * i) = None.
Proof.
  apply (steps_cross_empty_cells loneKingBoard RED RUSSIAN
           (match getValidMoves loneKingBoard RED RUSSIAN with
            | Ok moves => moves
            | _ => []
            end)
           (Move.mk (Pos.mk 3 3) (Pos.mk 1 1) None)).
  - change loneKingBoard with
      (grid (boardSize (getVariantRules RUSSIAN))
         (fun r c => if (r =? 3) && (c =? 3)
                     then Some (Piece.mk "r-3-3" RED KING (Pos.mk 3 3)) else None)).
    apply wellFormed_grid; [done|]. intros r c p.
    destruct ((r =? 3) && (c =? 3)) eqn:E; [|done].
    intros [= <-]. apply andb_true_iff in E as [?%Z.eqb_eq ?%Z.eqb_eq]. by subst.
  - vm_compute; reflexivity.
  - vm_compute. do 11 right. left.
  - reflexivity.
Defined.

(** ** Single captures *)

Lemma forEachPush_origin {A B} (f : A -> result (list B)) xs l y :
  forEachPush f xs = Ok l -> y ∈ l ->
  exists x lx, x ∈ xs /\ f x = Ok lx /\ y ∈ lx.
Proof.
  revert l. induction xs as [|a xs IH]; intros l Hl Hy; simpl in Hl.
  { injection Hl as <-. by apply elem_of_nil in Hy. }
  destruct (f a) as [ys| |] eqn:Ea; simpl in Hl; try done.
  destruct (forEachPush f xs) as [zs| |]; simpl in Hl; try done. injection Hl as <-.
  apply elem_of_app in Hy as [Hy|Hy].
  - exists a, ys. split; [left | done].
  - destruct (IH zs eq_refl Hy) as (x & lx & Hx & Hlx & Hin). exists x, lx.
    split; [by right | done].
Qed.

Lemma collectMoves_origin board player rules :
  whenOk (fun found => Forall (chainFound board rules) (fst found))
    (collectMoves board player rules).
Proof.
  unfold collectMoves. apply whenOk_forLoop; [constructor|].
  intros acc r _ Hacc. apply whenOk_forLoop; [exact Hacc|].
  clear acc Hacc. intros acc c _ Hacc.
  destruct (cell board r c) as [[piece|]| |] eqn:E; simpl; try done.
  case_bool_decide as Hside; [|done].
  pose proof (getPieceMoves_facts board piece rules) as Hfacts.
  destruct (getPieceMoves board piece rules) as [found| |] eqn:Efound; simpl; try done.
  apply Forall_app. split; [done|]. destruct Hfacts as [Hj _].
  rewrite Forall_forall in Hj. apply Forall_forall. intros m Hm.
  exists piece, r, c, found. repeat (split; [done|]). by destruct (Hj m Hm).
Qed.

Lemma findJumps_single board piece rules jumps m :
  findJumps board piece rules (chainBudget board) (Piece.position piece) PAWN [] = Ok jumps ->
  m ∈ jumps ->
  captureCount m = 1 ->
  exists d,
    d ∈ dirs piece rules
    /\ (isBack piece (fst d) = true ->
        pawnCaptureBackwards rules = true \/ isOrthogonal rules = true)
    /\ Move.to m = Pos.mk (Pos.r (Piece.position piece) + fst d * 2)
                          (Pos.c (Piece.position piece) + snd d * 2)
    /\ Move.captures m = Some [Pos.mk (Pos.r (Piece.position piece) + fst d)
                                      (Pos.c (Piece.position piece) + snd d)].
Proof.
  unfold chainBudget. cbn [findJumps]. intros Hjumps Hm Hone.
  destruct (forEachPush_origin _ _ _ _ Hjumps Hm) as (d & lx & Hd & Hlx & Hin).
  exists d. split; [done|]. revert Hlx. unfold jumpsInDir.
  rewrite bool_decide_eq_true_2 by done. unfold pawnJump.
  destruct (isBack piece (fst d) && _ && _) eqn:Hback.
  { intros [= <-]. by apply elem_of_nil in Hin. }
  destruct (inGrid rules _ _); [|intros [= <-]; by apply elem_of_nil in Hin].
  destruct (cell board _ _) as [[mp|]| |] eqn:Emid; simpl; try done;
    [|intros [= <-]; by apply elem_of_nil in Hin].
  destruct (isEnemy piece mp); [|intros [= <-]; by apply elem_of_nil in Hin].
  destruct (cell board (_ + fst d * 2) _) as [[lp|]| |]; simpl; try done;
    [intros [= <-]; by apply elem_of_nil in Hin|].
  destruct (negb _ && _); [intros [= <-]; by apply elem_of_nil in Hin|].
  match goal with
  | |- context [findJumps board piece rules ?fuel ?pos ?ty ?vis] =>
      pose proof (findJumps_chains board piece rules fuel pos ty vis) as Hchains;
        destruct (findJumps board piece rules fuel pos ty vis) as [deeper| |]
  end; simpl; try done.
  intros [= <-]. split.
  { intros Hb. rewrite Hb in Hback. simpl in Hback.
    destruct (pawnCaptureBackwards rules); [by left|].
    destruct (isOrthogonal rules); [by right | done]. }
  unfold chainsFrom in Hin. destruct deeper as [|m' deeper]; simpl in Hin.
  { apply elem_of_cons in Hin as [->|Hin]; [done | by apply elem_of_nil in Hin]. }
  exfalso. simpl in Hchains.
  assert (Forall (chainOf board piece
                    [Pos.mk (Pos.r (Piece.position piece) + fst d)
                            (Pos.c (Piece.position piece) + snd d)]) (m' :: deeper)) as Hall.
  { apply Hchains; [|simpl; lia]. split; [apply NoDup_singleton|].
    constructor; [|constructor]. by exists mp. }
  rewrite Forall_forall in Hall. destruct (Hall m Hin) as (_ & ext & Hc & Hext & _).
  unfold captureCount in Hone. rewrite Hc in Hone. simpl in Hone.
  destruct ext; [done|]. simpl in Hone. lia.
Qed.

(** X29.  A move of a man with exactly one capture jumps over an adjacent
    piece: for one of the directions of the man, the captured cell is the
    next cell that way and the destination is the cell behind it; the
    direction is backward only where men capture backward. *)
Theorem man_single_capture board player variant moves m piece :
  wellFormed (getVariantRules variant) board ->
  getValidMoves board player variant = Ok moves ->
  m ∈ moves ->
  pieceOn board (Move.from m) = Some piece ->
  Piece.type piece = PAWN ->
  captureCount m = 1 ->
  exists d,
    d ∈ dirs piece (getVariantRules variant)
    /\ (isBack piece (fst d) = true ->
        pawnCaptureBackwards (getVariantRules variant) = true
        \/ isOrthogonal (getVariantRules variant) = true)
    /\ Move.to m = Pos.mk (Pos.r (Move.from m) + fst d * 2) (Pos.c (Move.from m) + snd d * 2)
    /\ Move.captures m = Some [Pos.mk (Pos.r (Move.from m) + fst d)
                                      (Pos.c (Move.from m) + snd d)].
Proof.
  intros Hwf Hres Hm Hsrc Hman Hone.
  pose proof (getValidMoves_validMoves board player variant) as H.
  rewrite Hres in H. destruct H as (js & ss & Hscan & _ & Hs & Hcap & Hstep).
  pose proof (collectMoves_origin board player (getVariantRules variant)) as Horigin.
  rewrite Hscan in Horigin. simpl in Horigin.
  destruct js as [|j js].
  { rewrite (Hstep eq_refl) in Hm. rewrite Forall_forall in Hs.
    specialize (Hs m Hm). unfold stepMove in Hs. unfold captureCount in Hone.
    by rewrite Hs in Hone. }
  rewrite (Hcap ltac:(done)) in Hm.
  pose proof (captureFilters_keeps (getVariantRules variant) board _ _ Horigin) as Hall.
  rewrite Forall_forall in Hall.
  destruct (Hall m Hm) as (piece' & r & c & found & Hcell & Hfound & Hin & Hfrom).
  assert (piece' = piece) as ->.
  { destruct Hwf as [_ Hpos]. rewrite Hfrom, (Hpos _ _ _ Hcell) in Hsrc.
    unfold pieceOn in Hsrc. simpl in Hsrc. apply pieceAt_Some in Hsrc. congruence. }
  rewrite Hfrom. apply (findJumps_single board piece _ (fst found)); [|done|done].
  revert Hfound. unfold getPieceMoves. rewrite Hman.
  destruct (findJumps _ _ _ _ _ _ _) as [jumps| |]; simpl; try done.
  destruct (forEachPush _ _) as [steps| |]; simpl; try done. by intros [= <-].
Qed.

Lemma man_single_capture_witness :
  exists d,
    d ∈ dirs (redPawn 4 1) (getVariantRules ENGLISH)
    /\ (isBack (redPawn 4 1) (fst d) = true ->
        pawnCaptureBackwards (getVariantRules ENGLISH) = true
        \/ isOrthogonal (getVariantRules ENGLISH) = true)
    /\ Pos.mk 2 3 = Pos.mk (4 + fst d * 2) (1 + snd d * 2)
    /\ Some [Pos.mk 3 2] = Some [Pos.mk (4 + fst d) (1 + snd d)].
Proof.
  apply (man_single_capture skirmishBoard RED ENGLISH [skirmishJump] skirmishJump
           (redPawn 4 1)).
  - by apply skirmish_wellFormed.
  - vm_compute; reflexivity.
  - left.
  - reflexivity.
  - reflexivity.
  - reflexivity.
Defined.

(** ** Pieces and captures of a game *)

Lemma validMoves_distinct rules board player moves m :
  validMoves rules board player moves -> m ∈ moves -> NoDup (capturedCells m).
Proof.
  intros (js & ss & _ & Hj & Hs & Hcap & Hstep) Hm. destruct js as [|j js].
  - rewrite (Hstep eq_refl) in Hm. rewrite Forall_forall in Hs.
    by apply stepMove_NoDup, Hs.
  - rewrite (Hcap ltac:(done)) in Hm.
    pose proof (captureFilters_keeps rules board _ _ Hj) as Hall.
    rewrite Forall_forall in Hall. eapply captureMove_NoDup. by apply Hall.
Qed.

Lemma capturesOf_snoc history m :
  capturesOf (history ++ [m]) = capturesOf history + captureCount m.
Proof.
  unfold capturesOf. induction history as [|x history IH]; simpl; [lia|].
  rewrite IH. lia.
Qed.

Lemma handleMove_accounted move moves st st' :
  engineReady st ->
  piecesAccounted st ->
  currentValidMoves st = Ok moves ->
  move ∈ moves ->
  handleMove move st = Ok st' ->
  piecesAccounted st'.
Proof.
  intros (Hwf & _ & _) [Hconf Hsum] Hmoves Hin
    (newBoard & nextMoves & Happly & _ & Hv & _ & _ & Hb & _ & Hh & _)%handleMove_inv.
  unfold currentValidMoves in Hmoves.
  pose proof (getValidMoves_validMoves (GameState.board (App.gameState st))
                (GameState.turn (App.gameState st)) (App.variant st)) as Hvalid.
  rewrite Hmoves in Hvalid. simpl in Hvalid.
  pose proof (getValidMoves_moveOf _ _ _ _ Hmoves) as Hall. rewrite Forall_forall in Hall.
  destruct (applyMove_material_moveOf _ _ _ _ _ Hwf Hconf (Hall _ Hin)
              (validMoves_distinct _ _ _ _ _ Hvalid Hin) Happly) as (Hown & Hother & Hconf').
  unfold piecesAccounted. rewrite Hv, Hb, Hh, capturesOf_snoc. split; [done|].
  rewrite <- Hsum. unfold piecesOn.
  destruct (GameState.turn (App.gameState st)); unfold opponent in *; simpl in *; lia.
Qed.

Lemma initial_accounted v aiLevel mode mode' streak :
  piecesAccounted
    (App.mk mode v streak
       (GameState.mk (grid (boardSize (getVariantRules v)) (initialCell v)) RED None []
          aiLevel v mode')).
Proof.
  split; [apply confined_grid|]. simpl. unfold capturesOf. simpl. lia.
Qed.

(** X30.  In every state of a game the pieces are accounted for: the
    pieces on the board and the captures of the moves in [history] add up
    to the pieces of the initial position of the variant, and no piece
    stands outside the grid. *)
Theorem played_pieces_accounted st : played st -> piecesAccounted st.
Proof.
  induction 1 as [st Hinit|v st st' _ IH Hv|newMode st st' _ IH Hm|lv st _ IH
                 |move moves st st' Hp IH Hmoves Hin Hmove|s st st' Hp IH Hai Hturn].
  - rewrite initialApp_opening in Hinit. injection Hinit as <-.
    apply (initial_accounted ENGLISH).
  - apply handleVariantChange_inv in Hv as (Hv & _ & _ & Hgs).
    destruct st' as [mode' v' streak' gs']. simpl in *. subst. apply initial_accounted.
  - unfold handleModeChange in Hm. destruct newMode; [|by injection Hm as <-..].
    apply handleVariantChange_inv in Hm as (Hv & _ & _ & Hgs).
    destruct st' as [mode' v' streak' gs']. simpl in *. subst. apply initial_accounted.
  - exact IH.
  - apply played_reachable, reachable_ready in Hp. by eapply handleMove_accounted.
  - apply played_reachable, reachable_ready in Hp.
    destruct (aiTurn_cases _ _ _ Hp Hturn)
      as (moves & Hmoves & [(move & Hin & Hmove)|(-> & Hv & _ & Hb & Hh & _)]).
    + by eapply handleMove_accounted.
    + unfold piecesAccounted in *. by rewrite Hv, Hb, Hh.
Qed.

Lemma played_pieces_accounted_witness : piecesAccounted finishedGame.
Proof.
  apply (played_pieces_accounted finishedGame).
  apply playFirst_played, play_initial. vm_compute; reflexivity.
Defined.
